(** * NEAR Intents simulator (1Click API): quote engine and swap lifecycle

    A shallow embedding of [src/intents/simulator.ts] (class
    [OneClickSimulator]) together with the types of [src/types.ts], the
    configuration and the factory, and the properties of the specification
    settled against it.

    Layout:
    - [JS]: the JavaScript built-ins the simulator relies on (binary64
      numbers, [parseFloat], [Number.prototype.toFixed], [Number::toString],
      [String.prototype.split], truthiness);
    - the data model of [types.ts];
    - [Prog]: asynchronous methods as trees of synchronous actions and
      [await]ed host calls;
    - the methods of [OneClickSimulator];
    - the event loop that interleaves them;
    - [Config] and [Factory]: [src/config.ts] and [src/factory.ts];
    - the properties: of quotes, of executions, of the event loop, and of
      the clients the factory makes. *)

From Stdlib Require Import ZArith Floats SpecFloat FloatAxioms Lia Bool Ascii String.
From stdpp Require Import base option list strings pretty gmap.

Local Open Scope string_scope.
Local Open Scope Z_scope.

(* Decimal literals stand for the nearest binary64 value, as in JavaScript. *)
#[local] Set Warnings "-inexact-float".

(* ===================================================================== *)
(** ** JavaScript built-ins *)
(* ===================================================================== *)

Module JS.

(** A JavaScript Number is an IEEE 754 binary64 value: Rocq's primitive
    [float], whose operations are the same round-to-nearest-even ones. *)
Definition prec : Z := 53.
Definition emax : Z := 1024.

(** The Number nearest to [m * 2^e] ([neg] is the sign of a zero result). *)
Definition of_dyadic (neg : bool) (m e : Z) : float :=
  SF2Prim (binary_normalize prec emax (if neg then - m else m) e neg).

(** The Number nearest to [n / d], for [0 <= n] and [0 < d].  The quotient
    is computed with more than 64 significant bits and a sticky last bit, so
    that the single rounding done by [binary_normalize] is that of the exact
    ratio. *)
Definition of_ratio (neg : bool) (n d : Z) : float :=
  let s := 64 + Z.log2_up d in
  let q := (n * 2 ^ s) / d in
  let sticky := if (n * 2 ^ s) mod d =? 0 then 0 else 1 in
  of_dyadic neg (2 * q + sticky) (- s - 1).

(** The Number nearest to [m * 10^e], for [0 <= m]: the Number value of a
    decimal literal. *)
Definition of_decimal (neg : bool) (m e : Z) : float :=
  if 0 <=? e then of_dyadic neg (m * 10 ^ e) 0
  else of_ratio neg m (10 ^ (- e)).

Definition nan : float := PrimFloat.nan.

(** *** Truthiness *)

(** [ToBoolean] of a Number: false for [+0], [-0] and [NaN]. *)
Definition truthy_num (x : float) : bool :=
  negb (PrimFloat.eqb x 0%float) && PrimFloat.eqb x x.

(** [ToBoolean] of a possibly [undefined] string: false for [undefined] and
    for the empty string. *)
Definition truthy_str (s : option string) : bool :=
  match s with
  | None | Some "" => false
  | Some _ => true
  end.

(** [ToBoolean] of a possibly [undefined] boolean. *)
Definition truthy_bool (b : option bool) : bool :=
  match b with
  | Some true => true
  | _ => false
  end.

(** A template literal renders [undefined] as the word. *)
Definition template (s : option string) : string :=
  match s with
  | Some s => s
  | None => "undefined"
  end.

(** *** Strings *)

(** [s.split(sep)] for a one-character separator: the pieces between the
    separators, at least one piece. *)
Fixpoint split_on (sep : ascii) (s : string) : list string :=
  match s with
  | EmptyString => [EmptyString]
  | String c rest =>
      if Ascii.eqb c sep then EmptyString :: split_on sep rest
      else match split_on sep rest with
           | [] => [String c EmptyString]
           | piece :: pieces => String c piece :: pieces
           end
  end.

Definition split_colon (s : string) : list string := split_on ":" s.

(** [s.startsWith(p)]. *)
Definition startsWith (p s : string) : bool := String.prefix p s.

(** *** Decimal renderings *)

Fixpoint zeros (n : nat) : string :=
  match n with
  | O => ""
  | S n => String "0" (zeros n)
  end.

(** The decimal digits of a natural number. *)
Definition digits (n : Z) : string := pretty (Z.to_N n).
Definition ndigits (n : Z) : Z := Z.of_nat (String.length (digits n)).

(** The digits of [n] with a point before the last [f] of them, padded with
    zeros on the left to at least [f + 1] digits ([toFixed], steps 6 to 10). *)
Definition fixed_digits (n : Z) (f : nat) : string :=
  let m := digits n in
  match f with
  | O => m
  | _ =>
      let k := String.length m in
      let m := if (k <=? f)%nat then zeros (f + 1 - k) ++ m else m in
      let k := String.length m in
      substring 0 (k - f) m ++ "." ++ substring (k - f) f m
  end.

(** The decade of the positive ratio [num / den]: the [n] with
    [10^(n-1) <= num / den < 10^n]. *)
Definition decade (num den : Z) : Z :=
  let d := ndigits num - ndigits den in
  let reaches := if 0 <=? d then den * 10 ^ d <=? num
                 else den <=? num * 10 ^ (- d) in
  if reaches then d + 1 else d.

(** The shortest decimal that reads back as the positive finite Number [x],
    whose exact value is [num / den]: the digits [s], their number [k] and
    the decade [n], with [s * 10^(n-k)] the nearest to [x] among the
    candidates of that length (Number::toString, step 5). *)
Fixpoint shortest_from (fuel : nat) (k : Z) (x : float) (num den n : Z)
  : Z * Z * Z :=
  let scale := n - k in
  let lo := if 0 <=? scale then num / (den * 10 ^ scale)
            else (num * 10 ^ (- scale)) / den in
  let hi := lo + 1 in
  let reads s := PrimFloat.eqb (of_decimal false s scale) x in
  (* twice the distance to the midpoint of [lo] and [hi], as a sign *)
  let cmp := if 0 <=? scale
             then Z.compare (2 * num) ((2 * lo + 1) * 10 ^ scale * den)
             else Z.compare (2 * num * 10 ^ (- scale)) ((2 * lo + 1) * den) in
  let pick_hi := match cmp with
                 | Lt => false
                 | Gt => true
                 | Eq => Z.odd lo
                 end in
  let found :=
    match reads lo, reads hi with
    | true, true => Some (if pick_hi then hi else lo)
    | true, false => Some lo
    | false, true => Some hi
    | false, false => None
    end in
  match found, fuel with
  | None, S fuel => shortest_from fuel (k + 1) x num den n
  | _, _ =>
      let s := default lo found in
      if s =? 10 ^ k then (10 ^ (k - 1), k, n + 1) else (s, k, n)
  end.

Definition shortest (x : float) (num den : Z) : Z * Z * Z :=
  shortest_from 16 1 x num den (decade num den).

(** Number::toString of the positive finite Number [x = num / den]
    (steps 6 to 10: plain notation for decades -5 to 21, else exponent
    notation). *)
Definition toString_pos (x : float) (num den : Z) : string :=
  let '(s, k, n) := shortest x num den in
  let ds := digits s in
  let nat_k := Z.to_nat k in
  if (k <=? n) && (n <=? 21) then ds ++ zeros (Z.to_nat (n - k))
  else if (0 <? n) && (n <=? 21)
  then substring 0 (Z.to_nat n) ds ++ "." ++ substring (Z.to_nat n) (nat_k - Z.to_nat n) ds
  else if (-6 <? n) && (n <=? 0) then "0." ++ zeros (Z.to_nat (- n)) ++ ds
  else
    let e := n - 1 in
    let es := (if 0 <=? e then "+" else "-") ++ digits (Z.abs e) in
    if k =? 1 then ds ++ "e" ++ es
    else substring 0 1 ds ++ "." ++ substring 1 (nat_k - 1) ds ++ "e" ++ es.

(** The exact value of a finite Number [m * 2^e] as a ratio. *)
Definition ratio_of (m : positive) (e : Z) : Z * Z :=
  if 0 <=? e then (Z.pos m * 2 ^ e, 1) else (Z.pos m, 2 ^ (- e)).

(** [x.toString()]. *)
Definition toString (x : float) : string :=
  match Prim2SF x with
  | S754_nan => "NaN"
  | S754_zero _ => "0"
  | S754_infinity s => if s then "-Infinity" else "Infinity"
  | S754_finite s m e =>
      let '(num, den) := ratio_of m e in
      (if s then "-" else "") ++ toString_pos (PrimFloat.abs x) num den
  end.

(** [x.toFixed(f)], for [0 <= f <= 100]: Numbers that are not finite, and
    those of magnitude [10^21] or more, are rendered as by [toString];
    otherwise the integer [n] nearest to [x * 10^f] (the larger one on a tie)
    is rendered with [f] digits after the point.  The sign is that of
    [x < 0], so [-0] has none. *)
Definition toFixed (x : float) (f : nat) : string :=
  match Prim2SF x with
  | S754_nan => "NaN"
  | S754_zero _ => fixed_digits 0 f
  | S754_infinity s => if s then "-Infinity" else "Infinity"
  | S754_finite s m e =>
      let '(num, den) := ratio_of m e in
      (if s then "-" else "") ++
      (if 10 ^ 21 * den <=? num then toString_pos (PrimFloat.abs x) num den
       else
         let p := 10 ^ Z.of_nat f in
         fixed_digits ((2 * num * p + den) / (2 * den)) f)
  end.

(** *** parseFloat *)

(** A string is the sequence of the bytes of its UTF-8 encoding.  The
    white space and line terminators that [parseFloat] skips
    (StrWhiteSpaceChar) are of one byte (TAB, LF, VT, FF, CR, SP), of two
    (U+00A0) or of three (U+1680, U+2000 to U+200A, U+2028, U+2029,
    U+202F, U+205F, U+3000, U+FEFF). *)
Definition is_space (c : ascii) : bool :=
  let n := Z.of_N (N_of_ascii c) in
  (n =? 32) || ((9 <=? n) && (n <=? 13)).

Definition is_space2 (c1 c2 : ascii) : bool :=
  let a := Z.of_N (N_of_ascii c1) in
  let b := Z.of_N (N_of_ascii c2) in
  (a =? 194) && (b =? 160).

Definition is_space3 (c1 c2 c3 : ascii) : bool :=
  let a := Z.of_N (N_of_ascii c1) in
  let b := Z.of_N (N_of_ascii c2) in
  let c := Z.of_N (N_of_ascii c3) in
  ((a =? 225) && (b =? 154) && (c =? 128))
  || ((a =? 226) && (b =? 128)
      && (((128 <=? c) && (c <=? 138)) || (c =? 168) || (c =? 169) || (c =? 175)))
  || ((a =? 226) && (b =? 129) && (c =? 159))
  || ((a =? 227) && (b =? 128) && (c =? 128))
  || ((a =? 239) && (b =? 187) && (c =? 191)).

Fixpoint trim_start (s : string) : string :=
  match s with
  | String c1 rest1 =>
      if is_space c1 then trim_start rest1
      else
        match rest1 with
        | String c2 rest2 =>
            if is_space2 c1 c2 then trim_start rest2
            else
              match rest2 with
              | String c3 rest3 =>
                  if is_space3 c1 c2 c3 then trim_start rest3 else s
              | EmptyString => s
              end
        | EmptyString => s
        end
  | EmptyString => s
  end.

Definition digit_of (c : ascii) : option Z :=
  let n := Z.of_N (N_of_ascii c) in
  if (48 <=? n) && (n <=? 57) then Some (n - 48) else None.

(** Reads a run of decimal digits: the number read so far, how many digits
    were read, and the rest of the string. *)
Fixpoint read_digits (s : string) (acc cnt : Z) : Z * Z * string :=
  match s with
  | String c rest =>
      match digit_of c with
      | Some d => read_digits rest (10 * acc + d) (cnt + 1)
      | None => (acc, cnt, s)
      end
  | EmptyString => (acc, cnt, s)
  end.

(** An exponent part [e], [e+] or [e-] followed by digits; 0 when the string
    does not start with one. *)
Definition read_exponent (s : string) : Z :=
  match s with
  | String c rest =>
      if Ascii.eqb c "e" || Ascii.eqb c "E" then
        let '(neg, rest) :=
          match rest with
          | String "-" r => (true, r)
          | String "+" r => (false, r)
          | _ => (false, rest)
          end in
        let '(e, cnt, _) := read_digits rest 0 0 in
        if cnt =? 0 then 0 else if neg then - e else e
      else 0
  | EmptyString => 0
  end.

(** The longest prefix that is an unsigned decimal literal, as a Number;
    [NaN] when there is none. *)
Definition read_unsigned (neg : bool) (s : string) : float :=
  if String.prefix "Infinity" s
  then (if neg then neg_infinity else infinity)
  else
    let '(int, ci, rest) := read_digits s 0 0 in
    let '(mant, cf, rest) :=
      match rest with
      | String "." r => let '(m, c, r') := read_digits r int 0 in (m, c, r')
      | _ => (int, 0, rest)
      end in
    if ci + cf =? 0 then nan
    else of_decimal neg mant (read_exponent rest - cf).

(** [parseFloat(s)]: leading white space is skipped, then the longest
    prefix that is a decimal literal is converted; anything after it is
    ignored. *)
Definition parseFloat (s : string) : float :=
  match trim_start s with
  | String "-" rest => read_unsigned true rest
  | String "+" rest => read_unsigned false rest
  | rest => read_unsigned false rest
  end.

End JS.

(* ===================================================================== *)
(** ** Data model ([types.ts]) *)
(* ===================================================================== *)

(** Fields that TypeScript declares as [string] are [option string] here:
    the validation of a request tests them for being missing, which only a
    value that may be [undefined] can be.  A [Date] and its ISO rendering
    are its milliseconds since the epoch. *)

Inductive SwapType : Set := EXACT_INPUT | EXACT_OUTPUT | ANY_INPUT.

Inductive SwapStatus : Set :=
| PENDING_DEPOSIT
| PROCESSING
| SUCCESS
| INCOMPLETE_DEPOSIT
| REFUNDED
| FAILED.

#[global] Instance SwapStatus_eq_dec : EqDecision SwapStatus.
Proof. solve_decision. Defined.

Record QuoteRequest : Set := {
  dry : option bool;
  swapType : SwapType;
  slippageTolerance : option float;
  originAsset : option string;
  destinationAsset : option string;
  amount : option string;
  refundTo : option string;
  recipient : option string;
  requestDeadline : option string;          (* [deadline] of a request *)
  _senderEncryptedPrivateKey : option string (* read through [as any] *)
}.

Record RouteStep : Set := {
  from : option string;
  to : option string;
  protocol : string
}.

Record Route : Set := { steps : list RouteStep }.

Record Quote : Set := {
  depositAddress : option string;
  amountIn : option string;
  amountOut : string;
  amountOutFormatted : string;
  deadline : Z;
  timeEstimate : Z;
  fee : string;
  route : Route
}.

Record QuoteResponse : Set := {
  quoteId : string;
  timestamp : Z;
  quoteRequest : QuoteRequest;
  quote : Quote
}.

(** [swapDetails] of a completed swap. *)
Record SwapDetails : Set := {
  nearTxHashes : list string;
  destinationTxHash : option string;
  detailsAmountIn : option string;          (* [amountIn] of the details *)
  detailsAmountOut : string;                (* [amountOut] of the details *)
  executionTime : Z
}.

(** A value that is not [undefined]: a string, or anything else ([null], a
    number, an object, ...), of which only the identity matters. *)
Inductive Value : Set :=
| Str (s : string)
| Other (tag : N).

Record SwapStatusResponse : Set := {
  responseQuote : QuoteResponse;            (* [quoteResponse] *)
  responseStatus : SwapStatus;              (* [status] *)
  responseUpdatedAt : Z;                    (* [updatedAt] *)
  responseSwapDetails : option SwapDetails; (* [swapDetails] *)
  responseError : option Value              (* [error] *)
}.

(** The record the simulator keeps per quote ([interface StoredSwap]).
    [error] is declared a string; what is assigned to it is the [message]
    of a caught value of any type, so that it holds [undefined] ([None]),
    a string, or another value. *)
Record StoredSwap : Set := {
  quoteResponse : QuoteResponse;
  status : SwapStatus;
  createdAt : Z;
  updatedAt : Z;
  swapDetails : option SwapDetails;
  error : option Value
}.

(** Assignments to the fields of a stored record. *)
Definition set_status (v : SwapStatus) (r : StoredSwap) : StoredSwap :=
  {| quoteResponse := quoteResponse r; status := v; createdAt := createdAt r;
     updatedAt := updatedAt r; swapDetails := swapDetails r; error := error r |}.
Definition set_updatedAt (v : Z) (r : StoredSwap) : StoredSwap :=
  {| quoteResponse := quoteResponse r; status := status r; createdAt := createdAt r;
     updatedAt := v; swapDetails := swapDetails r; error := error r |}.
Definition set_swapDetails (v : SwapDetails) (r : StoredSwap) : StoredSwap :=
  {| quoteResponse := quoteResponse r; status := status r; createdAt := createdAt r;
     updatedAt := updatedAt r; swapDetails := Some v; error := error r |}.
Definition set_error (v : option Value) (r : StoredSwap) : StoredSwap :=
  {| quoteResponse := quoteResponse r; status := status r; createdAt := createdAt r;
     updatedAt := updatedAt r; swapDetails := swapDetails r; error := v |}.

(** An [Error] object, as [new Error(message)] makes it and as the engine
    makes a [TypeError]. *)
Record Error : Set := { message : string }.

(** A thrown value, and the reason of a rejected promise: a value of any
    type ([catch (error: any)]).  All the code does with it is read
    [error.message]: of [undefined] and of [null] that read throws a
    [TypeError]; of any other value it gives what the property holds,
    which is [undefined] ([None]) when the value has no such property (a
    string, a number, a plain object).  A value is therefore given by
    what its [message] holds. *)
Inductive Thrown : Set :=
| IsUndefined
| IsNull
| IsValue (its_message : option Value).

(** An [Error] object thrown: a value whose [message] is a string. *)
Definition of_Error (e : Error) : Thrown := IsValue (Some (Str (message e))).
Coercion of_Error : Error >-> Thrown.

(** *** The adapters ([NearExecutionAdapter], [CrossChainAdapter]) *)

Record DerivedAddress : Set := { address : string; publicKey : string }.
Record TransferResult : Set := { txHash : string; blockHeight : Z }.

(** What a method can [await]: a call of an adapter, or a pause
    ([new Promise(resolve => setTimeout(resolve, ms))]). *)
Inductive Call : Set :=
| DeriveAddress (nearAccount chain : option string)
| SendNearTransfer (sender : option string) (encryptedKey recipient amountNear : string)
| SimulateDestinationTx (chain : option string) (correlateTo : string)
| Sleep (ms : Z).

(** How the awaited promise settles: an adapter's promise is rejected with
    an error ([inl]) or resolved with a value ([inr]); a pause only ever
    resolves. *)
Definition Settled (c : Call) : Set :=
  match c with
  | DeriveAddress _ _ => Thrown + DerivedAddress
  | SendNearTransfer _ _ _ _ => Thrown + TransferResult
  | SimulateDestinationTx _ _ => Thrown + string
  | Sleep _ => unit
  end.

(* ===================================================================== *)
(** ** The state of a simulator and of its host *)
(* ===================================================================== *)

(** The host's sources of time and randomness, each an unbounded sequence
    of which the next unread element is returned: [new Date()] and
    [Date.now()] read [clock], [randomUUID()] reads [uuid], and
    [Math.floor(Math.random() * 16)] reads [hex] (a number below 16, as
    [Math.random()] is at least 0 and less than 1). *)
Record Host : Type := {
  clock : nat -> Z;
  clock_ix : nat;
  uuid : nat -> string;
  uuid_ix : nat;
  hex : nat -> N;
  hex_ix : nat
}.

(** The fields of a [OneClickSimulator], the timers it has set, and the
    host.  [swaps] maps a quote id to its record; the simulator never
    rebinds or removes a key, so that the record object a running
    [simulateExecution] holds is the one stored under its quote id, and
    assigning to its fields is updating the map at that key.  [nearExec]
    tells whether a [NearExecutionAdapter] was given to the constructor (a
    [CrossChainAdapter] always is).  [timers] lists the pending
    [setTimeout(() => this.simulateExecution(quoteId), ms)]. *)
Record Sys : Type := {
  swaps : gmap string StoredSwap;
  nearExec : bool;
  timers : list (string * Z);
  host : Host
}.

Definition with_swaps (m : gmap string StoredSwap) (s : Sys) : Sys :=
  {| swaps := m; nearExec := nearExec s; timers := timers s; host := host s |}.
Definition with_timers (t : list (string * Z)) (s : Sys) : Sys :=
  {| swaps := swaps s; nearExec := nearExec s; timers := t; host := host s |}.
Definition with_host (h : Host) (s : Sys) : Sys :=
  {| swaps := swaps s; nearExec := nearExec s; timers := timers s; host := h |}.

(* ===================================================================== *)
(** ** Asynchronous methods *)
(* ===================================================================== *)

(** An [async] method is a tree: it returns, throws, performs a
    synchronous action on the state and goes on, or [await]s a call and
    goes on with the settled promise.  Awaiting the promise of another
    method of the class is running that method in place; the suspension
    points are the [Await] nodes.  Logging ([console.log] and the like)
    changes nothing a method or a caller can observe and is left out,
    except for the reading of [error.message] in its arguments, which can
    throw. *)
Inductive Prog (A : Type) : Type :=
| Ret (a : A)
| Throw (e : Thrown)
| Act {X : Type} (f : Sys -> X * Sys) (k : X -> Prog A)
| Await (c : Call) (k : Settled c -> Prog A).

Arguments Ret {A} a.
Arguments Throw {A} e.
Arguments Act {A X} f k.
Arguments Await {A} c k.

Fixpoint bind {A B : Type} (p : Prog A) (g : A -> Prog B) : Prog B :=
  match p with
  | Ret a => g a
  | Throw e => Throw e
  | Act f k => Act f (fun x => bind (k x) g)
  | Await c k => Await c (fun r => bind (k r) g)
  end.

(** [try { p } catch (error) { h error }]. *)
Fixpoint try_catch {A : Type} (p : Prog A) (h : Thrown -> Prog A) : Prog A :=
  match p with
  | Ret a => Ret a
  | Throw e => h e
  | Act f k => Act f (fun x => try_catch (k x) h)
  | Await c k => Await c (fun r => try_catch (k r) h)
  end.

Notation "'let!' x ':=' p 'in' q" := (bind p (fun x => q))
  (at level 10, x pattern, p at level 100, q at level 200).
Notation "p ';;' q" := (bind p (fun _ => q))
  (at level 100, q at level 200, right associativity).

(** [await promise]: the value the promise resolves to; a rejection is
    thrown. *)
Definition settle {A : Type} (r : Thrown + A) : Prog A :=
  match r with
  | inl e => Throw e
  | inr v => Ret v
  end.

(** The awaited calls of the simulator. *)
Definition deriveAddress (nearAccount chain : option string) : Prog DerivedAddress :=
  Await (DeriveAddress nearAccount chain) settle.
Definition sendNearTransfer (sender : option string)
    (encryptedKey recipient amountNear : string) : Prog TransferResult :=
  Await (SendNearTransfer sender encryptedKey recipient amountNear) settle.
Definition simulateDestinationTx (chain : option string) (correlateTo : string)
  : Prog string :=
  Await (SimulateDestinationTx chain correlateTo) settle.
Definition sleep (ms : Z) : Prog unit :=
  Await (Sleep ms) Ret.

(** *** Synchronous actions *)

(** [this.swaps.get(quoteId)]. *)
Definition swaps_get (quoteId : string) : Prog (option StoredSwap) :=
  Act (fun s => (swaps s !! quoteId, s)) Ret.

(** [this.swaps.set(quoteId, record)]. *)
Definition swaps_set (quoteId : string) (record : StoredSwap) : Prog unit :=
  Act (fun s => (tt, with_swaps (<[quoteId := record]> (swaps s)) s)) Ret.

(** An assignment to a field of the record stored under [quoteId]. *)
Definition assign (quoteId : string) (f : StoredSwap -> StoredSwap) : Prog unit :=
  Act (fun s => (tt, with_swaps (alter f quoteId (swaps s)) s)) Ret.

(** [this.nearExec], as a truth value. *)
Definition this_nearExec : Prog bool :=
  Act (fun s => (nearExec s, s)) Ret.

(** [setTimeout(() => this.simulateExecution(quoteId), ms)]. *)
Definition setTimeout (quoteId : string) (ms : Z) : Prog unit :=
  Act (fun s => (tt, with_timers (timers s ++ [(quoteId, ms)]) s)) Ret.

(** The host after one reading of the clock, of the identifiers, and of
    the random digits. *)
Definition next_clock (h : Host) : Host :=
  {| clock := clock h; clock_ix := S (clock_ix h);
     uuid := uuid h; uuid_ix := uuid_ix h;
     hex := hex h; hex_ix := hex_ix h |}.

Definition next_uuid (h : Host) : Host :=
  {| clock := clock h; clock_ix := clock_ix h;
     uuid := uuid h; uuid_ix := S (uuid_ix h);
     hex := hex h; hex_ix := hex_ix h |}.

Definition next_hex (h : Host) : Host :=
  {| clock := clock h; clock_ix := clock_ix h;
     uuid := uuid h; uuid_ix := uuid_ix h;
     hex := hex h; hex_ix := S (hex_ix h) |}.

(** [new Date()], [Date.now()]. *)
Definition new_Date : Prog Z :=
  Act (fun s => (clock (host s) (clock_ix (host s)),
                 with_host (next_clock (host s)) s)) Ret.

(** [randomUUID()]. *)
Definition randomUUID : Prog string :=
  Act (fun s => (uuid (host s) (uuid_ix (host s)),
                 with_host (next_uuid (host s)) s)) Ret.

(** [Math.floor(Math.random() * 16)]. *)
Definition random16 : Prog N :=
  Act (fun s => ((hex (host s) (hex_ix (host s)) mod 16)%N,
                 with_host (next_hex (host s)) s)) Ret.

(** *** Semantics *)

(** Where a method stands when it stops running: returned, threw, or
    awaiting a call with the rest of its body. *)
Inductive Outcome (A : Type) : Type :=
| Done (a : A)
| Raised (e : Thrown)
| Blocked (c : Call) (k : Settled c -> Prog A).

Arguments Done {A} a.
Arguments Raised {A} e.
Arguments Blocked {A} c k.

(** Runs a method up to its next [await], without interruption (a
    JavaScript job runs to completion). *)
Fixpoint run {A : Type} (p : Prog A) (s : Sys) : Outcome A * Sys :=
  match p with
  | Ret a => (Done a, s)
  | Throw e => (Raised e, s)
  | Act f k => let '(x, s') := f s in run (k x) s'
  | Await c k => (Blocked c k, s)
  end.

(** The adapters as the method sees them: how each awaited call settles. *)
Definition Adapters : Type := forall c : Call, Settled c.

(** Runs a method to its end, each awaited call settling as [ad] says:
    the method's promise is rejected ([inl]) or resolved ([inr]). *)
Fixpoint exec {A : Type} (ad : Adapters) (p : Prog A) (s : Sys) : (Thrown + A) * Sys :=
  match p with
  | Ret a => (inr a, s)
  | Throw e => (inl e, s)
  | Act f k => let '(x, s') := f s in exec ad (k x) s'
  | Await c k => exec ad (k (ad c)) s
  end.

(* ===================================================================== *)
(** ** [class OneClickSimulator] *)
(* ===================================================================== *)

Module OneClickSimulator.


(** The [TypeError] of reading the property [what] of [undefined], and of
    [null] (the wording is the one of V8). *)
Definition TypeError (what : string) : Error :=
  {| message := "Cannot read properties of undefined (reading '" ++ what ++ "')" |}.
Definition TypeError_null (what : string) : Error :=
  {| message := "Cannot read properties of null (reading '" ++ what ++ "')" |}.

(** [error.message], for a caught [error]. *)
Definition read_message (error : Thrown) : Prog (option Value) :=
  match error with
  | IsUndefined => Throw (TypeError "message")
  | IsNull => Throw (TypeError_null "message")
  | IsValue m => Ret m
  end.

(** [private getDecimals(chain, token)]: [registry[key] || 18]. *)
Definition getDecimals (chain token : option string) : nat :=
  let key := JS.template chain ++ ":" ++ JS.template token in
  if String.eqb key "near:native" then 24
  else if String.eqb key "near:wrap.near" then 24
  else if String.eqb key "near:usdc.near" then 6
  else if String.eqb key "ethereum:native" then 18
  else if String.eqb key "ethereum:usdc.eth" then 6
  else if String.eqb key "bitcoin:native" then 8
  else if String.eqb key "dogecoin:native" then 8
  else 18.

(** [private getSymbol(chain, token)]: [registry[key] || token]. *)
Definition getSymbol (chain token : option string) : option string :=
  let key := JS.template chain ++ ":" ++ JS.template token in
  if String.eqb key "near:native" then Some "NEAR"
  else if String.eqb key "near:wrap.near" then Some "wNEAR"
  else if String.eqb key "near:usdc.near" then Some "USDC"
  else if String.eqb key "ethereum:native" then Some "ETH"
  else if String.eqb key "ethereum:usdc.eth" then Some "USDC"
  else if String.eqb key "bitcoin:native" then Some "BTC"
  else if String.eqb key "dogecoin:native" then Some "DOGE"
  else token.

(** [private validateQuoteRequest(request)]. *)
Definition validateQuoteRequest (request : QuoteRequest) : Prog unit :=
  if negb (JS.truthy_str (originAsset request))
     || negb (JS.truthy_str (destinationAsset request))
  then Throw {| message := "Origin and destination assets required" |}
  else if negb (JS.truthy_str (amount request))
          || PrimFloat.leb (JS.parseFloat (JS.template (amount request))) 0
  then Throw {| message := "Valid amount required" |}
  else if negb (JS.truthy_str (refundTo request))
          || negb (JS.truthy_str (recipient request))
  then Throw {| message := "Refund and recipient addresses required" |}
  else Ret tt.

(** [const [chain, token] = asset.split(':')]; a missing asset has no
    [split]. *)
Definition split_asset (asset : option string)
  : Prog (option string * option string) :=
  match asset with
  | None => Throw (TypeError "split")
  | Some a => let parts := JS.split_colon a in Ret (parts !! 0%nat, parts !! 1%nat)
  end.

Definition feePercent : float := 0.003.

(** [request.slippageTolerance || 0.01]. *)
Definition effective_slippage (request : QuoteRequest) : float :=
  match slippageTolerance request with
  | Some x => if JS.truthy_num x then x else 0.01
  | None => 0.01
  end.

(** The three amounts [calculateQuote] computes, as Numbers: the fee, the
    amount after the fee, and the amount after the fee and the slippage. *)
Definition amountInNum (request : QuoteRequest) : float :=
  JS.parseFloat (JS.template (amount request)).
Definition feeNum (request : QuoteRequest) : float :=
  amountInNum request * feePercent.
Definition amountOutNum (request : QuoteRequest) : float :=
  amountInNum request * (1 - feePercent).
Definition amountOutWithSlippage (request : QuoteRequest) : float :=
  amountOutNum request * (1 - effective_slippage request).

(** [private async calculateQuote(request)]. *)
Definition calculateQuote (request : QuoteRequest) : Prog Quote :=
  let! (originChain, originToken) := split_asset (originAsset request) in
  let! (destChain, destToken) := split_asset (destinationAsset request) in
  let originDecimals := getDecimals originChain originToken in
  let destDecimals := getDecimals destChain destToken in
  let! depositAddress :=
    if negb (bool_decide (originChain = Some "near"))
    then let! derived := deriveAddress (refundTo request) originChain in
         Ret (Some (address derived))
    else Ret (refundTo request) in
  let! now := new_Date in
  let deadline := now + 5 * 60 * 1000 in
  let isCrossChain := negb (bool_decide (originChain = destChain)) in
  let timeEstimate := if isCrossChain then 45 else 7 in
  let originSymbol := getSymbol originChain originToken in
  let destSymbol := getSymbol destChain destToken in
  Ret {| depositAddress := depositAddress;
         amountIn := amount request;
         amountOut := JS.toFixed (amountOutWithSlippage request) destDecimals;
         amountOutFormatted :=
           JS.toFixed (amountOutWithSlippage request) 2 ++ " " ++ JS.template destSymbol;
         deadline := deadline;
         timeEstimate := timeEstimate;
         fee := JS.toFixed (feeNum request) originDecimals;
         route :=
           {| steps :=
                if isCrossChain
                then [ {| from := originSymbol;
                          to := Some (JS.template originSymbol ++ " (bridged)");
                          protocol := "rainbow-bridge" |};
                       {| from := Some (JS.template originSymbol ++ " (bridged)");
                          to := destSymbol;
                          protocol := "uniswap-v3" |} ]
                else [ {| from := originSymbol;
                          to := destSymbol;
                          protocol := "ref-finance" |} ] |} |}.

(** [async requestQuote(request)]. *)
Definition requestQuote (request : QuoteRequest) : Prog QuoteResponse :=
  validateQuoteRequest request ;;
  let! quote := calculateQuote request in
  let! quoteId := randomUUID in
  let! timestamp := new_Date in
  let quoteResponse :=
    {| quoteId := quoteId; timestamp := timestamp;
       quoteRequest := request; quote := quote |} in
  let! createdAt := new_Date in
  let! updatedAt := new_Date in
  swaps_set quoteId
    {| quoteResponse := quoteResponse; status := PENDING_DEPOSIT;
       createdAt := createdAt; updatedAt := updatedAt;
       swapDetails := None; error := None |} ;;
  (if negb (JS.truthy_bool (dry request))
   then setTimeout quoteId 1000
   else Ret tt) ;;
  Ret quoteResponse.

(** [async getSwapStatus(quoteId)]. *)
Definition getSwapStatus (quoteId : string) : Prog SwapStatusResponse :=
  let! swap := swaps_get quoteId in
  match swap with
  | None => Throw {| message := "Quote not found: " ++ quoteId |}
  | Some swap =>
      Ret {| responseQuote := quoteResponse swap;
             responseStatus := status swap;
             responseUpdatedAt := updatedAt swap;
             responseSwapDetails := swapDetails swap;
             responseError := error swap |}
  end.

(** [n.toString(16)] for [n] below 16. *)
Definition hex_digit (n : N) : string :=
  String.substring (N.to_nat n) 1 "0123456789abcdef".

(** [Array.from({ length: n }, () =>
      Math.floor(Math.random() * 16).toString(16)).join('')]. *)
Fixpoint random_hex (n : nat) : Prog string :=
  match n with
  | O => Ret ""
  | S n =>
      let! d := random16 in
      let! rest := random_hex n in
      Ret (hex_digit d ++ rest)
  end.

(** [private generateMockTxHash(chain)].  The prefix is looked up in an
    object literal with the keys NEAR, ETHEREUM and BITCOIN; the class
    only ever passes "NEAR".  (For a name that every object inherits, such
    as "constructor", the source would concatenate the inherited value;
    the properties below are stated for the three keys.) *)
Definition generateMockTxHash (chain : string) : Prog string :=
  let prefix := if String.eqb chain "ETHEREUM" then "0x" else "" in
  let! hash := random_hex 64 in
  Ret (prefix ++ hash).

(** The outer [catch] block of [simulateExecution]: it first reads
    [error.message] for the log, then marks the swap. *)
Definition swap_failed (quoteId : string) (error : Thrown) : Prog unit :=
  read_message error ;;
  assign quoteId (set_status FAILED) ;;
  let! now := new_Date in
  assign quoteId (set_updatedAt now) ;;
  let! reason := read_message error in
  assign quoteId (set_error reason).

(** [private async simulateExecution(quoteId)].  [swap] is the record as
    it was read at the start; the method reads from it only what is never
    assigned after creation ([quoteResponse], [createdAt]). *)
Definition simulateExecution (quoteId : string) : Prog unit :=
  let! swap := swaps_get quoteId in
  match swap with
  | None => Ret tt
  | Some swap =>
      try_catch
        (assign quoteId (set_status PROCESSING) ;;
         let! now := new_Date in
         assign quoteId (set_updatedAt now) ;;
         (* Simulate execution time *)
         sleep (timeEstimate (quote (quoteResponse swap)) * 100) ;;
         let quoteReq := quoteRequest (quoteResponse swap) in
         let sender := refundTo quoteReq in
         (* Determine recipient NEAR account *)
         let! recipientAccount :=
           match destinationAsset quoteReq with
           | None => Throw (TypeError "startsWith")
           | Some dest =>
               Ret (if JS.startsWith "near:" dest then recipient quoteReq else None)
           end in
         (* Try to execute real NEAR transfer if adapter and recipient available *)
         let! adapter := this_nearExec in
         let! nearTxHash :=
           if adapter && JS.truthy_str recipientAccount
           then
             try_catch
               (let amountYocto := amountIn (quote (quoteResponse swap)) in
                let amountNear :=
                  JS.toString (JS.parseFloat (JS.template amountYocto) / 1e24) in
                let! result :=
                  sendNearTransfer
                    sender
                    (if JS.truthy_str (_senderEncryptedPrivateKey quoteReq)
                     then JS.template (_senderEncryptedPrivateKey quoteReq)
                     else "")
                    (JS.template recipientAccount)
                    amountNear in
                Ret (txHash result))
               (fun error =>
                  (* the log reads [error.message] before the fallback *)
                  read_message error ;;
                  generateMockTxHash "NEAR")
           else
             (* Pure simulation: generate mock hash *)
             generateMockTxHash "NEAR" in
         (* Simulate destination chain execution *)
         let! destChain :=
           match destinationAsset quoteReq with
           | None => Throw (TypeError "split")
           | Some dest => Ret (JS.split_colon dest !! 0%nat)
           end in
         let! destTxHash :=
           if negb (bool_decide (destChain = Some "near"))
           then let! tx := simulateDestinationTx destChain nearTxHash in
                Ret (Some tx)
           else Ret None in
         assign quoteId (set_status SUCCESS) ;;
         let! updated := new_Date in
         assign quoteId (set_updatedAt updated) ;;
         assign quoteId
           (set_swapDetails
              {| nearTxHashes := [nearTxHash];
                 destinationTxHash := destTxHash;
                 detailsAmountIn := amount quoteReq;
                 detailsAmountOut := amountOut (quote (quoteResponse swap));
                 executionTime := (updated - createdAt swap) / 1000 |}))
        (swap_failed quoteId)
  end.

End OneClickSimulator.

(* ===================================================================== *)
(** ** The event loop *)
(* ===================================================================== *)

(** Which call a suspended job continues. *)
Inductive Owner : Set :=
| ORequest                     (* a call of [requestQuote] *)
| OStatus                      (* a call of [getSwapStatus] *)
| OExec (quoteId : string).    (* the [simulateExecution] of a quote *)

#[global] Instance Owner_eq_dec : EqDecision Owner.
Proof. solve_decision. Defined.

(** A job suspended at an [await]: the call it waits for and the rest of
    its body. *)
Record Job : Type := {
  owner : Owner;
  call : Call;
  cont : Settled call -> Prog unit
}.

Record Loop : Type := {
  sys : Sys;
  jobs : list Job
}.

(** Starts or resumes a job: it runs up to its next [await], where it is
    queued, or to its end, where the settlement of its promise is the
    caller's business (nothing in the simulator waits for it).  The
    promise of a [simulateExecution] started by a timer has no handler: a
    host that ends the process on an unhandled rejection stops the loop
    there, so that its runs are the runs below up to that event. *)
Definition launch (o : Owner) (p : Prog unit) (s : Sys) (js : list Job) : Loop :=
  match run p s with
  | (Blocked c k, s') => {| sys := s'; jobs := js ++ [ {| owner := o; call := c; cont := k |} ] |}
  | (_, s') => {| sys := s'; jobs := js |}
  end.

(** What can happen next: a client calls one of the two public methods,
    a timer set by [requestQuote] fires, or the call a job waits for
    settles (how, the adapters tell). *)
Inductive Event : Type :=
| CallRequestQuote (request : QuoteRequest)
| CallGetSwapStatus (quoteId : string)
| TimerFires (i : nat)
| Settles (i : nat) (ad : Adapters).

Import OneClickSimulator.

Definition step (l : Loop) (e : Event) : option Loop :=
  match e with
  | CallRequestQuote request =>
      Some (launch ORequest (requestQuote request ;; Ret tt) (sys l) (jobs l))
  | CallGetSwapStatus quoteId =>
      Some (launch OStatus (getSwapStatus quoteId ;; Ret tt) (sys l) (jobs l))
  | TimerFires i =>
      match timers (sys l) !! i with
      | Some (quoteId, _) =>
          Some (launch (OExec quoteId) (simulateExecution quoteId)
                  (with_timers (delete i (timers (sys l))) (sys l)) (jobs l))
      | None => None
      end
  | Settles i ad =>
      match jobs l !! i with
      | Some j =>
          Some (launch (owner j) (cont j (ad (call j))) (sys l) (delete i (jobs l)))
      | None => None
      end
  end.

(** A simulator starts with no record, no timer and no job; the host's
    [randomUUID] never returns the same identifier twice. *)
Definition initial (l : Loop) : Prop :=
  swaps (sys l) = ∅ /\ timers (sys l) = [] /\ jobs l = [] /\
  Inj (=) (=) (uuid (host (sys l))).

Inductive reachable : Loop -> Prop :=
| reachable_initial l : initial l -> reachable l
| reachable_step l e l' : reachable l -> step l e = Some l' -> reachable l'.


(* ===================================================================== *)
(** ** Notions the properties are stated with *)
(* ===================================================================== *)

(** The state after one reading of the clock. *)
Definition tick (s : Sys) : Sys := with_host (next_clock (host s)) s.

(** The chain and the token of an asset, as [calculateQuote] and
    [simulateExecution] read them: the first and the second piece of
    [asset.split(':')]. *)
Definition asset_chain (asset : string) : option string :=
  JS.split_colon asset !! 0%nat.
Definition asset_token (asset : string) : option string :=
  JS.split_colon asset !! 1%nat.
Definition asset_decimals (asset : string) : nat :=
  getDecimals (asset_chain asset) (asset_token asset).

(** The response and the record [requestQuote] makes of a computed quote,
    and the state it leaves, from the state [s] in which the quote was
    computed. *)
Definition response_at (request : QuoteRequest) (q : Quote) (s : Sys) : QuoteResponse :=
  {| quoteId := uuid (host s) (uuid_ix (host s));
     timestamp := clock (host s) (clock_ix (host s));
     quoteRequest := request;
     quote := q |}.

Definition record_at (request : QuoteRequest) (q : Quote) (s : Sys) : StoredSwap :=
  {| quoteResponse := response_at request q s;
     status := PENDING_DEPOSIT;
     createdAt := clock (host s) (S (clock_ix (host s)));
     updatedAt := clock (host s) (S (S (clock_ix (host s))));
     swapDetails := None;
     error := None |}.

Definition stored_at (request : QuoteRequest) (q : Quote) (s : Sys) : Sys :=
  let id := uuid (host s) (uuid_ix (host s)) in
  {| swaps := <[id := record_at request q s]> (swaps s);
     nearExec := nearExec s;
     timers := if negb (JS.truthy_bool (dry request))
               then timers s ++ [(id, 1000)] else timers s;
     host := next_clock (next_clock (next_clock (next_uuid (host s)))) |}.

(** A request with its [slippageTolerance] left out. *)
Definition without_slippage (request : QuoteRequest) : QuoteRequest :=
  {| dry := dry request; swapType := swapType request;
     slippageTolerance := None;
     originAsset := originAsset request;
     destinationAsset := destinationAsset request;
     amount := amount request; refundTo := refundTo request;
     recipient := recipient request;
     requestDeadline := requestDeadline request;
     _senderEncryptedPrivateKey := _senderEncryptedPrivateKey request |}.

(** *** A concrete simulator, to run the methods on *)

Module Scenario.

Definition host0 : Host :=
  {| clock := fun n => 1700000000000 + 10 * Z.of_nat n; clock_ix := 0;
     uuid := fun n => "quote-" ++ pretty n; uuid_ix := 0;
     hex := fun n => N.of_nat (7 * n + 3); hex_ix := 0 |}.

(** A new simulator, with or without a [NearExecutionAdapter]. *)
Definition sys0 (withNearExec : bool) : Sys :=
  {| swaps := ∅; nearExec := withNearExec; timers := []; host := host0 |}.

Definition loop0 (withNearExec : bool) : Loop :=
  {| sys := sys0 withNearExec; jobs := [] |}.

Definition request0 (origin destination amount : string) : QuoteRequest :=
  {| dry := None; swapType := EXACT_INPUT; slippageTolerance := None;
     originAsset := Some origin; destinationAsset := Some destination;
     amount := Some amount;
     refundTo := Some "alice.near"; recipient := Some "bob.near";
     requestDeadline := None; _senderEncryptedPrivateKey := None |}.

Definition with_slippage (x : float) (request : QuoteRequest) : QuoteRequest :=
  {| dry := dry request; swapType := swapType request;
     slippageTolerance := Some x;
     originAsset := originAsset request;
     destinationAsset := destinationAsset request;
     amount := amount request; refundTo := refundTo request;
     recipient := recipient request;
     requestDeadline := requestDeadline request;
     _senderEncryptedPrivateKey := _senderEncryptedPrivateKey request |}.

Definition with_dry (b : bool) (request : QuoteRequest) : QuoteRequest :=
  {| dry := Some b; swapType := swapType request;
     slippageTolerance := slippageTolerance request;
     originAsset := originAsset request;
     destinationAsset := destinationAsset request;
     amount := amount request; refundTo := refundTo request;
     recipient := recipient request;
     requestDeadline := requestDeadline request;
     _senderEncryptedPrivateKey := _senderEncryptedPrivateKey request |}.

(** Adapters whose every call succeeds, and adapters whose every call
    fails. *)
Definition succeeding : Adapters := fun c =>
  match c with
  | DeriveAddress _ _ => inr {| address := "0xderived"; publicKey := "ed25519:pk" |}
  | SendNearTransfer _ _ _ _ => inr {| txHash := "RealTxHash"; blockHeight := 42 |}
  | SimulateDestinationTx _ _ => inr "0xdestination"
  | Sleep _ => tt
  end.

Definition failing : Adapters := fun c =>
  match c with
  | DeriveAddress _ _ => inl (of_Error {| message := "derivation failed" |})
  | SendNearTransfer _ _ _ _ => inl (of_Error {| message := "transfer failed" |})
  | SimulateDestinationTx _ _ => inl (of_Error {| message := "destination failed" |})
  | Sleep _ => tt
  end.

(** Adapters whose every call is rejected with the same reason, as with
    [Promise.reject(reason)]. *)
Definition rejecting (reason : Thrown) : Adapters := fun c =>
  match c with
  | DeriveAddress _ _ => inl reason
  | SendNearTransfer _ _ _ _ => inl reason
  | SimulateDestinationTx _ _ => inl reason
  | Sleep _ => tt
  end.

(** The outcome of a call of [requestQuote] on a new simulator. *)
Definition quoted (ad : Adapters) (request : QuoteRequest)
  : (Thrown + QuoteResponse) * Sys :=
  exec ad (requestQuote request) (sys0 true).

(** The response of a call that succeeded (a rejected call has none: the
    result is then a response without content). *)
Definition response_of (r : (Thrown + QuoteResponse) * Sys) : QuoteResponse :=
  match fst r with
  | inr resp => resp
  | inl _ =>
      {| quoteId := ""; timestamp := 0;
         quoteRequest := request0 "" "" "";
         quote := {| depositAddress := None; amountIn := None; amountOut := "";
                     amountOutFormatted := ""; deadline := 0; timeEstimate := 0;
                     fee := ""; route := {| steps := [] |} |} |}
  end.

End Scenario.

(** *** Mock transaction hashes *)

Fixpoint skip_hex (n : nat) (h : Host) : Host :=
  match n with
  | O => h
  | S n => skip_hex n (next_hex h)
  end.

(** The [n] hexadecimal digits that [n] readings give. *)
Fixpoint hex_from (n : nat) (h : Host) : string :=
  match n with
  | O => ""
  | S n => hex_digit (hex h (hex_ix h) mod 16)%N ++ hex_from n (next_hex h)
  end.

(** The hash [generateMockTxHash('NEAR')] returns. *)
Definition mock_hash (h : Host) : string := hex_from 64 h.

Definition is_hex_char (c : ascii) : bool :=
  let n := Z.of_N (N_of_ascii c) in
  ((48 <=? n) && (n <=? 57)) || ((97 <=? n) && (n <=? 102)).

Fixpoint all_hex (s : string) : bool :=
  match s with
  | EmptyString => true
  | String c rest => is_hex_char c && all_hex rest
  end.

(** A mock transaction reference: 64 hexadecimal digits. *)
Definition is_mock_hash (h : string) : Prop :=
  String.length h = 64%nat /\ all_hex h = true.

(** The record of a swap that completed: [SUCCESS], with its details. *)
Definition completed (swap : StoredSwap) (now : Z) (nearTxHash : string)
    (destTxHash : option string) : StoredSwap :=
  {| quoteResponse := quoteResponse swap;
     status := SUCCESS;
     createdAt := createdAt swap;
     updatedAt := now;
     swapDetails :=
       Some {| nearTxHashes := [nearTxHash];
               destinationTxHash := destTxHash;
               detailsAmountIn := amount (quoteRequest (quoteResponse swap));
               detailsAmountOut := amountOut (quote (quoteResponse swap));
               executionTime := (now - createdAt swap) / 1000 |};
     error := error swap |}.

(** The record of a swap that failed: [FAILED], with what the [message]
    of the caught value reads. *)
Definition failed (swap : StoredSwap) (now : Z) (reason : option Value) : StoredSwap :=
  {| quoteResponse := quoteResponse swap;
     status := FAILED;
     createdAt := createdAt swap;
     updatedAt := now;
     swapDetails := swapDetails swap;
     error := reason |}.

(** *** The lifecycle of a swap, and what jobs may do *)

(** The changes of status the orchestration makes. *)
Inductive advances : SwapStatus -> SwapStatus -> Prop :=
| advances_start : advances PENDING_DEPOSIT PROCESSING
| advances_success : advances PROCESSING SUCCESS
| advances_failure : advances PROCESSING FAILED.

(** How the records of a later state relate to those of an earlier one:
    a record stays, with its status unchanged or advanced; a new record is
    pending. *)
Definition evolves (m m' : gmap string StoredSwap) : Prop :=
  forall q,
    match m !! q, m' !! q with
    | Some swap, Some swap' =>
        quoteResponse swap' = quoteResponse swap /\
        (status swap' = status swap \/ advances (status swap) (status swap'))
    | None, Some swap' => status swap' = PENDING_DEPOSIT
    | Some _, None => False
    | None, None => True
    end.

(** The timers set for a quote, and the suspended executions of it. *)
Definition timer_count (q : string) (ts : list (string * Z)) : nat :=
  length (filter (fun t => t.1 = q) ts).
Definition exec_count (q : string) (js : list Job) : nat :=
  length (filter (fun j => owner j = OExec q) js).

(** A stretch of a job that leaves the records, the timers, the adapter
    and the identifiers as they are (it may read the clock and the random
    digits). *)
Definition idle (s s' : Sys) : Prop :=
  swaps s' = swaps s /\ timers s' = timers s /\ nearExec s' = nearExec s /\
  uuid (host s') = uuid (host s) /\ uuid_ix (host s') = uuid_ix (host s).

(** A stretch that moves the record of quote [q] to a status in [to],
    for the same quote; nothing else changes. *)
Definition moves (q : string) (to : SwapStatus -> Prop) (s s' : Sys) : Prop :=
  (exists swap swap',
     swaps s !! q = Some swap /\
     swaps s' = <[q := swap']> (swaps s) /\
     quoteResponse swap' = quoteResponse swap /\
     to (status swap')) /\
  timers s' = timers s /\ nearExec s' = nearExec s /\
  uuid (host s') = uuid (host s) /\ uuid_ix (host s') = uuid_ix (host s).

(** The start of the execution of [q], and its end. *)
Definition starts (q : string) : Sys -> Sys -> Prop :=
  moves q (fun st => st = PROCESSING).
Definition closes (q : string) : Sys -> Sys -> Prop :=
  moves q (fun st => st = SUCCESS \/ st = FAILED).

(** A stretch that accepts a request: it stores the record of a quote
    under the next identifier, with a timer unless the request is dry. *)
Definition accepts (s s' : Sys) : Prop :=
  exists request q, s' = stored_at request q (tick s).

(** The behaviour of a job, stretch by stretch: started in a state where
    [Pre] holds, it runs up to its end, where [Fin] relates the states, or
    up to a throw, where [Err] does, or up to an [await], where [Blk] does
    and what it goes on with, however the call settles, behaves in the same
    way. *)
Section Behaviour.
Context {A : Type}.
Variable Pre : Sys -> Prop.
Variables Fin Err Blk : Sys -> Sys -> Prop.

Inductive behaves : Prog A -> Prop :=
| behaves_intro p :
    (forall s a s', Pre s -> run p s = (Done a, s') -> Fin s s') ->
    (forall s e s', Pre s -> run p s = (Raised e, s') -> Err s s') ->
    (forall s c k s', Pre s -> run p s = (Blocked c k, s') -> Blk s s') ->
    (forall s c k s', Pre s -> run p s = (Blocked c k, s') ->
       forall r, behaves (k r)) ->
    behaves p.

End Behaviour.

Definition has_record (q : string) (s : Sys) : Prop := is_Some (swaps s !! q).
Definition unchanged (s s' : Sys) : Prop := s' = s.

(** A job that only reads. *)
Definition quiet {A : Type} (q : string) : Prog A -> Prop :=
  behaves (has_record q) idle idle idle.
(** The body of an execution of [q], inside its [try]. *)
Definition winds (q : string) : Prog unit -> Prop :=
  behaves (has_record q) (closes q) idle idle.
(** An execution of [q]: it ends by closing the swap, or by a throw of
    its [catch] block, which leaves the record as it is. *)
Definition exec_job (q : string) : Prog unit -> Prop :=
  behaves (has_record q) (closes q) idle idle.
(** A call of [requestQuote]. *)
Definition request_job : Prog unit -> Prop :=
  behaves (fun _ => True) accepts unchanged unchanged.

(** What the timers and the jobs of a record must be, by its status. *)
Definition phase_ok (swap : StoredSwap) (timer_n exec_n : nat) : Prop :=
  let is_dry := JS.truthy_bool (dry (quoteRequest (quoteResponse swap))) in
  match status swap with
  | PENDING_DEPOSIT => exec_n = 0%nat /\ timer_n = (if is_dry then 0 else 1)%nat
  | PROCESSING => (exec_n <= 1)%nat /\ timer_n = 0%nat /\ is_dry = false
  | SUCCESS | FAILED => exec_n = 0%nat /\ timer_n = 0%nat /\ is_dry = false
  | INCOMPLETE_DEPOSIT | REFUNDED => False
  end.

(** The invariant of the event loop. *)
Record invariant (s : Sys) (js : list Job) : Prop := {
  inv_fresh : Inj (=) (=) (uuid (host s));
  inv_issued : forall q, is_Some (swaps s !! q) ->
    exists i, (i < uuid_ix (host s))%nat /\ uuid (host s) i = q;
  inv_jobs : forall j, j ∈ js ->
    match owner j with
    | ORequest => forall r, request_job (cont j r)
    | OStatus => False
    | OExec q => forall r, exec_job q (cont j r)
    end;
  inv_phase : forall q,
    match swaps s !! q with
    | Some swap => phase_ok swap (timer_count q (timers s)) (exec_count q js)
    | None => timer_count q (timers s) = 0%nat /\ exec_count q js = 0%nat
    end
}.

(** What [behaves] asks of one stretch, by its outcome. *)
Definition stretch_ok {A : Type} (Fin Err Blk : Sys -> Sys -> Prop)
    (Q : Prog A -> Prop) (s : Sys) (o : Outcome A * Sys) : Prop :=
  match o with
  | (Done _, s') => Fin s s'
  | (Raised _, s') => Err s s'
  | (Blocked c k, s') => Blk s s' /\ forall r, Q (k r)
  end.

(** *** Concrete runs of the event loop *)

Module Run.

(** The loop after an event (unchanged when the event cannot happen). *)
Definition after (l : Loop) (e : Event) : Loop := default l (step l e).

(** A dry request, and a new simulator that has been asked to quote it. *)
Definition dry_request : QuoteRequest :=
  Scenario.with_dry true (Scenario.request0 "near:native" "near:wrap.near" "1000").

Definition loop1 : Loop :=
  after (Scenario.loop0 true) (CallRequestQuote dry_request).

End Run.

(** *** Binary64 numbers *)

(** [Number.isFinite(x)]. *)
Definition is_finite (x : float) : bool :=
  match Prim2SF x with
  | S754_zero _ | S754_finite _ _ _ => true
  | _ => false
  end.

(** A binary64 number that is zero or positive and finite. *)
Definition nonneg_finite (x : spec_float) : Prop :=
  match x with
  | S754_zero _ | S754_finite false _ _ => True
  | _ => False
  end.


(** A binary64 number in the unit interval: zero, or positive and at most
    one ([2^52 * 2^-52]). *)
Definition in_unit (x : spec_float) : Prop :=
  match x with
  | S754_zero _ => True
  | S754_finite false m e => e < -52 \/ (e = -52 /\ Z.pos m <= 2 ^ 52)
  | _ => False
  end.

Definition SFone : spec_float := S754_finite false 4503599627370496 (-52).

(** [rec] is [m] shifted right [k] times: it holds the quotient, and no
    round or sticky bit when the division is exact. *)
Definition shifted (m k : Z) (rec : shr_record) : Prop :=
  shr_m rec = m / 2 ^ k /\
  (m mod 2 ^ k = 0 -> shr_r rec = false /\ shr_s rec = false).


(* ===================================================================== *)
(** ** Further cases and notions *)
(* ===================================================================== *)

Module Cases.

(** A request with its [recipient] left out. *)
Definition without_recipient (request : QuoteRequest) : QuoteRequest :=
  {| dry := dry request; swapType := swapType request;
     slippageTolerance := slippageTolerance request;
     originAsset := originAsset request;
     destinationAsset := destinationAsset request;
     amount := amount request; refundTo := refundTo request;
     recipient := None;
     requestDeadline := requestDeadline request;
     _senderEncryptedPrivateKey := _senderEncryptedPrivateKey request |}.

End Cases.

(** The calls a method awaits, in order, when it runs to its end with the
    adapters [ad]. *)
Fixpoint awaited {A : Type} (ad : Adapters) (p : Prog A) (s : Sys) : list Call :=
  match p with
  | Ret _ | Throw _ => []
  | Act f k => let '(x, s') := f s in awaited ad (k x) s'
  | Await c k => c :: awaited ad (k (ad c)) s
  end.

(** The arguments [simulateExecution] passes to [sendNearTransfer] for a
    record: the sender is [refundTo], the key is
    [_senderEncryptedPrivateKey || ''], the amount is
    [(parseFloat(amountIn) / 1e24).toString()]. *)
Definition transfer_call (swap : StoredSwap) : Call :=
  let quoteReq := quoteRequest (quoteResponse swap) in
  SendNearTransfer
    (refundTo quoteReq)
    (if JS.truthy_str (_senderEncryptedPrivateKey quoteReq)
     then JS.template (_senderEncryptedPrivateKey quoteReq) else "")
    (JS.template (recipient quoteReq))
    (JS.toString
       (JS.parseFloat (JS.template (amountIn (quote (quoteResponse swap)))) / 1e24)).

(** The error of reading [reason.message], if there is one: a
    [TypeError] for [undefined] and for [null]. *)
Definition read_failure (reason : Thrown) : option Error :=
  match reason with
  | IsUndefined => Some (TypeError "message")
  | IsNull => Some (TypeError_null "message")
  | IsValue _ => None
  end.

(** Whether the execution of a record with the destination asset [dest]
    tries a real transfer: the simulator has a [NearExecutionAdapter], the
    asset starts with "near:" and the recipient is not empty. *)
Definition tries_transfer (s : Sys) (swap : StoredSwap) (dest : string) : bool :=
  nearExec s && JS.startsWith "near:" dest
  && JS.truthy_str (recipient (quoteRequest (quoteResponse swap))).

(** The error the transfer step of an execution ends with, if any: the
    one of reading the [message] of the reason, when a transfer is tried
    and the adapter rejects it with [undefined] or [null]. *)
Definition transfer_failure (ad : Adapters) (s : Sys) (swap : StoredSwap)
    (dest : string) : option Error :=
  if tries_transfer s swap dest
  then match ad (transfer_call swap) with
       | inl reason => read_failure reason
       | inr _ => None
       end
  else None.

(** The record of a swap in execution: [PROCESSING] since [now]. *)
Definition processing (swap : StoredSwap) (now : Z) : StoredSwap :=
  set_updatedAt now (set_status PROCESSING swap).

(** The loop after a sequence of events, if each of them can happen. *)
Fixpoint play (l : Loop) (es : list Event) : option Loop :=
  match es with
  | [] => Some l
  | e :: es =>
      match step l e with
      | Some l' => play l' es
      | None => None
      end
  end.

(** What one step may do to the records: nothing; add the record of a
    new quote under the next identifier; or replace the record of a quote
    that has a timer or a suspended execution, for the same quote. *)
Definition writes_one (l : Loop) (m' : gmap string StoredSwap) : Prop :=
  let s := sys l in
  m' = swaps s \/
  (exists request quote s0,
     uuid (host s0) = uuid (host s) /\ uuid_ix (host s0) = uuid_ix (host s) /\
     m' = <[uuid (host s) (uuid_ix (host s)) := record_at request quote s0]> (swaps s)) \/
  (exists q swap swap',
     (0 < timer_count q (timers s) + exec_count q (jobs l))%nat /\
     swaps s !! q = Some swap /\
     m' = <[q := swap']> (swaps s) /\
     quoteResponse swap' = quoteResponse swap).

Module Played.

(** A simulator without a [NearExecutionAdapter] that quoted a request,
    whose timer fired, and whose pause ended: the swap is settled. *)
Definition request : QuoteRequest :=
  Scenario.request0 "near:native" "near:wrap.near" "1000".

Definition events : list Event :=
  [CallRequestQuote request; TimerFires 0; Settles 0 Scenario.succeeding].

Definition settled : Loop :=
  default (Scenario.loop0 false) (play (Scenario.loop0 false) events).

(** The same simulator while the execution pauses. *)
Definition paused : Loop :=
  default (Scenario.loop0 false)
    (play (Scenario.loop0 false) [CallRequestQuote request; TimerFires 0]).

(** The settled simulator after more events: a second request, its
    timer, and a call of [getSwapStatus]. *)
Definition more_events : list Event :=
  [CallRequestQuote request; TimerFires 0; CallGetSwapStatus "quote-0"].

Definition later : Loop := default settled (play settled more_events).

End Played.

(** *** Jobs that keep a property of the state and await only some calls *)

(** Started in a state where [Pre] holds, the job runs up to its end, a
    throw or an [await] where [Pre] holds again; a call it awaits
    satisfies [ok], and what it goes on with, however the call settles, is
    guarded in the same way. *)
Section Guarded.
Context {A : Type}.
Variable Pre : Sys -> Prop.
Variable ok : Call -> Prop.

Inductive guarded : Prog A -> Prop :=
| guarded_intro p :
    (forall s, Pre s -> Pre (snd (run p s))) ->
    (forall s c k s', Pre s -> run p s = (Blocked c k, s') -> ok c) ->
    (forall s c k s', Pre s -> run p s = (Blocked c k, s') ->
       forall r, guarded (k r)) ->
    guarded p.

End Guarded.

(** A loop whose state satisfies [Pre] and whose every suspended job
    awaits a call that satisfies [ok] and goes on guarded. *)
Definition guards (Pre : Sys -> Prop) (ok : Call -> Prop) (l : Loop) : Prop :=
  Pre (sys l) /\
  forall j, j ∈ jobs l -> ok (call j) /\ forall r, guarded Pre ok (cont j r).

(** What [guarded] asks of one stretch. *)
Definition guard_ok {A : Type} (Pre : Sys -> Prop) (ok : Call -> Prop)
    (Q : Prog A -> Prop) (o : Outcome A * Sys) : Prop :=
  match o with
  | (Blocked c k, s') => Pre s' /\ ok c /\ forall r, Q (k r)
  | (_, s') => Pre s'
  end.

Definition is_transfer (c : Call) : bool :=
  match c with
  | SendNearTransfer _ _ _ _ => true
  | _ => false
  end.

(** A job that, in a simulator without a [NearExecutionAdapter], awaits no
    transfer. *)
Definition mocking {A : Type} : Prog A -> Prop :=
  guarded (fun s => nearExec s = false) (fun c => is_transfer c = false).

(* ===================================================================== *)
(** ** Configuration and factory ([config.ts], [factory.ts]) *)
(* ===================================================================== *)

Module Config.

Record OneClickConfig : Set := {
  useSimulators : bool;
  oneClickApiUrl : option string
}.

(** [getConfig()], from the environment [process.env]: the variables
    that are set, with their values. *)
Definition getConfig (env : gmap string string) : OneClickConfig :=
  {| useSimulators :=
       negb (bool_decide (env !! "USE_PRODUCTION_SIMULATORS" = Some "true"));
     oneClickApiUrl := env !! "ONECLICK_API_URL" |}.

End Config.

Module Factory.
Import Config.

(** [new OneClickSimulator(opts)], on a host: no record yet, and an
    adapter for NEAR if [opts.nearExec] is given. *)
Definition new_OneClickSimulator (withNearExec : bool) (h : Host) : Sys :=
  {| swaps := ∅; nearExec := withNearExec; timers := []; host := h |}.

(** [class ProductionOneClickClient]: both methods throw. *)
Module ProductionOneClickClient.

Definition requestQuote : Prog QuoteResponse :=
  Throw {| message := "Production client not yet implemented" |}.

Definition getSwapStatus : Prog SwapStatusResponse :=
  Throw {| message := "Production client not yet implemented" |}.

End ProductionOneClickClient.

(** An [IOneClickClient] as the factory makes it: an instance of one of
    the two classes; a simulator has its state, the production client has
    none. *)
Inductive Client : Type :=
| SimulatorClient (s : Sys)
| ProductionClient.

(** [createOneClickClient(crossChain)]. *)
Definition createOneClickClient (env : gmap string string) (h : Host) : Client :=
  let config := getConfig env in
  if useSimulators config
  then SimulatorClient (new_OneClickSimulator false h)
  else ProductionClient.

End Factory.

(** *** Details and errors *)

(** What a record holds besides its status: details exactly when it is
    [SUCCESS], an error only when it is [FAILED] (what is stored then is
    the [message] of a caught value, which may be [undefined]). *)
Definition consistent (swap : StoredSwap) : Prop :=
  match status swap with
  | SUCCESS => is_Some (swapDetails swap) /\ error swap = None
  | FAILED => swapDetails swap = None
  | _ => swapDetails swap = None /\ error swap = None
  end.

(** [swap'] is [swap] closed: for the same quote, [SUCCESS] with details
    and the error it had, or [FAILED] with the details it had. *)
Definition closed_from (swap swap' : StoredSwap) : Prop :=
  quoteResponse swap' = quoteResponse swap /\
  (status swap' = SUCCESS /\ is_Some (swapDetails swap') /\ error swap' = error swap \/
   status swap' = FAILED /\ swapDetails swap' = swapDetails swap).

(** A stretch that closes the record of [q], and writes no other. *)
Definition settles (q : string) (s s' : Sys) : Prop :=
  exists swap swap',
    swaps s !! q = Some swap /\
    swaps s' = <[q := swap']> (swaps s) /\
    closed_from swap swap'.

(** An execution of [q], by what it does to the records. *)
Definition settle_job (q : string) : Prog unit -> Prop :=
  behaves (has_record q) (settles q) idle idle.

(** What the loop keeps: every record is consistent, and every suspended
    execution closes its record or leaves it. *)
Definition kept (s : Sys) (js : list Job) : Prop :=
  (forall q swap, swaps s !! q = Some swap -> consistent swap) /\
  (forall j q, j ∈ js -> owner j = OExec q -> forall r, settle_job q (cont j r)).

(** *** Records and the requests they were made for *)

(** The record holds a request that passes validation, and the amounts
    and the time estimate that [calculateQuote] computes for it. *)
Definition quoted_for (swap : StoredSwap) : Prop :=
  let request := quoteRequest (quoteResponse swap) in
  let q := quote (quoteResponse swap) in
  validateQuoteRequest request = Ret tt /\
  exists o d,
    originAsset request = Some o /\ destinationAsset request = Some d /\
    amountIn q = amount request /\
    fee q = JS.toFixed (feeNum request) (asset_decimals o) /\
    amountOut q = JS.toFixed (amountOutWithSlippage request) (asset_decimals d) /\
    timeEstimate q = (if bool_decide (asset_chain o = asset_chain d) then 7 else 45).

Definition all_quoted (s : Sys) : Prop :=
  forall q swap, swaps s !! q = Some swap -> quoted_for swap.

(** No restriction on the calls a job awaits. *)
Definition any_call (c : Call) : Prop := True.

(** A request with [NaN] as its [slippageTolerance]. *)
Definition with_nan_slippage (request : QuoteRequest) : QuoteRequest :=
  Scenario.with_slippage JS.nan request.
(* ===================================================================== *)
(** ** Running methods: general facts *)
(* ===================================================================== *)

Section Running.
Context {A B : Type}.

Lemma exec_bind ad (p : Prog A) (g : A -> Prog B) s :
  exec ad (bind p g) s =
  match exec ad p s with
  | (inr a, s') => exec ad (g a) s'
  | (inl e, s') => (inl e, s')
  end.
Proof.
  revert s; induction p as [a|e|X f k IH|c k IH]; intros s; cbn; auto.
  destruct (f s) as [x s1]; apply IH.
Qed.

Lemma exec_try_catch ad (p : Prog A) (h : Thrown -> Prog A) s :
  exec ad (try_catch p h) s =
  match exec ad p s with
  | (inr a, s') => (inr a, s')
  | (inl e, s') => exec ad (h e) s'
  end.
Proof.
  revert s; induction p as [a|e|X f k IH|c k IH]; intros s; cbn; auto.
  destruct (f s) as [x s1]; apply IH.
Qed.

Lemma run_bind (p : Prog A) (g : A -> Prog B) s :
  run (bind p g) s =
  match run p s with
  | (Done a, s') => run (g a) s'
  | (Raised e, s') => (Raised e, s')
  | (Blocked c k, s') => (Blocked c (fun r => bind (k r) g), s')
  end.
Proof.
  revert s; induction p as [a|e|X f k IH|c k IH]; intros s; cbn; auto.
  destruct (f s) as [x s1]; apply IH.
Qed.

Lemma run_try_catch (p : Prog A) (h : Thrown -> Prog A) s :
  run (try_catch p h) s =
  match run p s with
  | (Done a, s') => (Done a, s')
  | (Raised e, s') => run (h e) s'
  | (Blocked c k, s') => (Blocked c (fun r => try_catch (k r) h), s')
  end.
Proof.
  revert s; induction p as [a|e|X f k IH|c k IH]; intros s; cbn; auto.
  destruct (f s) as [x s1]; apply IH.
Qed.

End Running.

(* ===================================================================== *)
(** ** Rounding in binary64 arithmetic *)
(* ===================================================================== *)

Section Rounding.

Local Abbreviation fexp := (SpecFloat.fexp 53 1024).
Local Abbreviation digits := Zdigits2.

Lemma fexp_eq e : fexp e = Z.max (e - 53) (-1074).
Proof. reflexivity. Qed.

Lemma fexp_mono a b : a <= b -> fexp a <= fexp b.
Proof. rewrite !fexp_eq. lia. Qed.

(** A positive number of [d] binary digits lies in [2^(d-1), 2^d). *)
Lemma digits2_pos_bounds p :
  2 ^ (Z.pos (digits2_pos p) - 1) <= Z.pos p < 2 ^ Z.pos (digits2_pos p).
Proof.
  induction p as [p IH|p IH|]; cbn [digits2_pos]; [| |cbn; lia];
    rewrite Pos2Z.inj_succ;
    replace (Z.succ (Z.pos (digits2_pos p)) - 1) with (Z.succ (Z.pos (digits2_pos p) - 1)) by lia;
    rewrite !Z.pow_succ_r by lia; lia.
Qed.

Lemma digits_pos m : 0 < m -> 0 < digits m.
Proof. destruct m; cbn; lia. Qed.

Lemma digits_bounds m : 0 < m -> 2 ^ (digits m - 1) <= m < 2 ^ digits m.
Proof. destruct m as [|p|p]; try lia. intros _. apply digits2_pos_bounds. Qed.

(** Numbers compare as their numbers of digits allow. *)
Lemma digits_le m1 m2 j :
  0 < m1 -> 0 < m2 -> 0 <= j -> m1 <= m2 * 2 ^ j -> digits m1 <= digits m2 + j.
Proof.
  intros H1 H2 Hj Hle.
  pose proof (digits_bounds m1 H1) as [B1 _].
  pose proof (digits_bounds m2 H2) as [_ B2].
  pose proof (digits_pos m1 H1). pose proof (digits_pos m2 H2).
  assert (2 ^ (digits m1 - 1) < 2 ^ (digits m2 + j)) as Hlt.
  { rewrite Z.pow_add_r by lia.
    assert (0 < 2 ^ j) by (apply Z.pow_pos_nonneg; lia). nia. }
  apply Z.pow_lt_mono_r_iff in Hlt; lia.
Qed.

(** *** Shifting right *)

Lemma shr_1_nonneg m r s :
  0 <= m ->
  shr_1 {| shr_m := m; shr_r := r; shr_s := s |}
  = {| shr_m := m / 2; shr_r := Z.odd m; shr_s := r || s |}.
Proof.
  intros H. rewrite <- Z.div2_div.
  destruct m as [|[p|p|]|p]; try reflexivity. lia.
Qed.

Lemma shifted_step m k rec :
  0 <= m -> 0 <= k -> shifted m k rec -> shifted m (k + 1) (shr_1 rec).
Proof.
  intros Hm Hk [Hq Hx]. destruct rec as [q r s]. cbn in Hq, Hx. subst q.
  assert (0 < 2 ^ k) by (apply Z.pow_pos_nonneg; lia).
  rewrite shr_1_nonneg by (apply Z.div_pos; lia).
  unfold shifted. cbn [shr_m shr_r shr_s].
  rewrite Z.pow_add_r by lia. change (2 ^ 1) with 2.
  split.
  - rewrite Z.div_div by lia. reflexivity.
  - intros Hmod.
    assert (Hdiv : m = 2 ^ k * 2 * (m / (2 ^ k * 2))).
    { apply Z.div_exact; lia. }
    assert (Hk0 : m mod 2 ^ k = 0).
    { rewrite Hdiv. rewrite <- Z.mul_assoc, Z.mul_comm. apply Z.mod_mul. lia. }
    destruct (Hx Hk0) as [-> ->]. split; [|reflexivity].
    rewrite Hdiv at 1. rewrite <- Z.mul_assoc, Z.mul_comm, Z.div_mul by lia.
    rewrite Z.odd_mul. reflexivity.
Qed.

Lemma shifted_iter m n : 0 <= m ->
  forall k rec, 0 <= k -> shifted m k rec ->
  shifted m (k + Z.pos n) (SpecFloat.iter_pos shr_1 n rec).
Proof.
  intros Hm. induction n as [n IH|n IH|]; intros k rec Hk H; cbn [SpecFloat.iter_pos].
  - replace (k + Z.pos n~1) with (k + 1 + Z.pos n + Z.pos n) by lia.
    apply IH; [lia|]. apply IH; [lia|]. apply shifted_step; assumption.
  - replace (k + Z.pos n~0) with (k + Z.pos n + Z.pos n) by lia.
    apply IH; [lia|]. apply IH; assumption.
  - apply shifted_step; assumption.
Qed.

Lemma shifted_0 m : shifted m 0 {| shr_m := m; shr_r := false; shr_s := false |}.
Proof. split; cbn; [rewrite Z.div_1_r; reflexivity|auto]. Qed.

(** Shifting an exact number to the exponent [fexp] asks for. *)
Lemma shr_fexp_exact m e :
  0 <= m ->
  exists rec n,
    shr_fexp 53 1024 m e loc_Exact = (rec, e + n) /\
    n = Z.max 0 (fexp (digits m + e) - e) /\
    shifted m n rec.
Proof.
  intros Hm. unfold shr_fexp, shr. cbn [shr_record_of_loc].
  destruct (fexp (digits m + e) - e) as [|n|n] eqn:Hn.
  - eexists _, 0. rewrite Z.add_0_r. split; [reflexivity|]. split; [lia|].
    apply shifted_0.
  - eexists _, (Z.pos n). split; [reflexivity|]. split; [lia|].
    apply (shifted_iter m n ltac:(lia) 0); [lia|apply shifted_0].
  - eexists _, 0. rewrite Z.add_0_r. split; [reflexivity|]. split; [lia|].
    apply shifted_0.
Qed.

(** Rounding what was shifted stays below every multiple of the unit
    that the number is below. *)
Lemma round_shifted_le m n rec K :
  0 <= m -> 0 <= n -> shifted m n rec -> m <= K * 2 ^ n ->
  let m1 := round_nearest_even (shr_m rec) (loc_of_shr_record rec) in
  m / 2 ^ n <= m1 <= K.
Proof.
  intros Hm Hn [Hq Hx] HK.
  assert (Hp : 0 < 2 ^ n) by (apply Z.pow_pos_nonneg; lia).
  pose proof (Z.div_mod m (2 ^ n) ltac:(lia)) as Hdm.
  pose proof (Z.mod_pos_bound m (2 ^ n) Hp) as Hmb.
  destruct rec as [q r s]. cbn in *. subst q.
  destruct (Z.eq_dec (m mod 2 ^ n) 0) as [H0|H0].
  - destruct (Hx H0) as [-> ->]. cbn. split; [lia|]. nia.
  - assert (m / 2 ^ n + 1 <= K) by nia.
    destruct r, s; cbn; try destruct (Z.even _); lia.
Qed.

(** Rounding a positive number [m * 2^e], given at an exponent
    fine enough for it, stays below every binary64 number
    [mb * 2^eb] that it is below: the result is zero, or is made of an
    exponent and a mantissa that come before those of the bound. *)
Lemma round_aux_le m e mb eb :
  0 < m -> e <= fexp (digits m + e) ->
  0 < mb -> fexp (digits mb + eb) = eb -> eb <= 1024 - 53 ->
  e <= eb -> m <= mb * 2 ^ (eb - e) ->
  match binary_round_aux 53 1024 false m e loc_Exact with
  | S754_zero s => s = false
  | S754_finite s mr er => s = false /\ (er < eb \/ (er = eb /\ Z.pos mr <= mb))
  | _ => False
  end.
Proof.
  intros Hm He Hmb Hcanon Hmax Hle Hval. unfold binary_round_aux.
  destruct (shr_fexp_exact m e ltac:(lia)) as (rec1 & n1 & -> & Hn1 & S1).
  assert (Hd : digits m + e <= digits mb + eb).
  { pose proof (digits_le m mb (eb - e) Hm Hmb ltac:(lia) Hval). lia. }
  pose proof (fexp_mono _ _ Hd) as He1. rewrite Hcanon in He1.
  assert (Hn1' : e + n1 = fexp (digits m + e)) by lia.
  set (e1 := e + n1) in *.
  set (K := mb * 2 ^ (eb - e1)).
  assert (HK : m <= K * 2 ^ n1).
  { unfold K. rewrite <- Z.mul_assoc, <- Z.pow_add_r by lia.
    replace (eb - e1 + n1) with (eb - e) by lia. exact Hval. }
  pose proof (round_shifted_le m n1 rec1 K ltac:(lia) ltac:(lia) S1 HK) as Hm1.
  cbn zeta in Hm1.
  set (m1 := round_nearest_even (shr_m rec1) (loc_of_shr_record rec1)) in *.
  assert (Hm1' : 0 <= m1).
  { assert (0 <= m / 2 ^ n1) by (apply Z.div_pos; [lia|apply Z.pow_pos_nonneg; lia]).
    lia. }
  destruct (shr_fexp_exact m1 e1 Hm1') as (rec2 & n2 & -> & Hn2 & [Hq2 _]).
  assert (Hp2 : 0 < 2 ^ n2) by (apply Z.pow_pos_nonneg; lia).
  destruct (shr_m rec2) as [|p|p] eqn:Hrec2.
  - reflexivity.
  - assert (Hm1pos : 0 < m1).
    { destruct (Z.eq_dec m1 0) as [H0|]; [|lia].
      rewrite H0, Z.div_0_l in Hq2 by lia. discriminate. }
    assert (Hd1 : digits m1 + e1 <= digits mb + eb).
    { pose proof (digits_le m1 mb (eb - e1) Hm1pos Hmb ltac:(lia) ltac:(unfold K in Hm1; lia)).
      lia. }
    pose proof (fexp_mono _ _ Hd1) as He2. rewrite Hcanon in He2.
    assert (Hle2 : e1 + n2 <= eb) by lia.
    destruct (Z.leb_spec (e1 + n2) (1024 - 53)) as [_|Hbad]; [|exfalso; lia].
    split; [reflexivity|].
    destruct (Z.eq_dec (e1 + n2) eb) as [Heq|]; [right|left; lia].
    split; [exact Heq|]. rewrite Hq2.
    unfold K in Hm1. replace (eb - e1) with n2 in Hm1 by lia.
    apply Z.div_le_upper_bound; [lia|]. lia.
  - assert (0 <= m1 / 2 ^ n2) by (apply Z.div_pos; lia). lia.
Qed.



End Rounding.

Section Binary64.

Local Abbreviation fexp := (SpecFloat.fexp 53 1024).
Local Abbreviation digits := Zdigits2.

Lemma valid_finite s m e :
  SpecFloat.valid_binary 53 1024 (S754_finite s m e) = true ->
  fexp (digits (Z.pos m) + e) = e /\ e <= 1024 - 53.
Proof.
  cbn [SpecFloat.valid_binary]. unfold bounded, canonical_mantissa.
  intros [H1 H2]%andb_true_iff.
  apply Z.eqb_eq in H1. apply Z.leb_le in H2. split; assumption.
Qed.

Lemma digits_unique m d :
  0 < m -> 2 ^ (d - 1) <= m < 2 ^ d -> digits m = d.
Proof.
  intros Hm [H1 H2]. pose proof (digits_bounds m Hm) as [B1 B2].
  pose proof (digits_pos m Hm) as Hd.
  assert (0 < d).
  { destruct (Z_lt_le_dec 0 d); [assumption|].
    assert (2 ^ d <= 2 ^ 0) by (apply Z.pow_le_mono_r; lia).
    change (2 ^ 0) with 1 in *. lia. }
  assert (2 ^ (d - 1) < 2 ^ digits m) as Ha by lia.
  assert (2 ^ (digits m - 1) < 2 ^ d) as Hb by lia.
  apply Z.pow_lt_mono_r_iff in Ha; [|lia|lia].
  apply Z.pow_lt_mono_r_iff in Hb; [|lia|lia]. lia.
Qed.

Lemma digits_shift m k : 0 < m -> 0 <= k -> digits (m * 2 ^ k) = digits m + k.
Proof.
  intros Hm Hk. pose proof (digits_bounds m Hm) as [B1 B2].
  pose proof (digits_pos m Hm) as Hd.
  assert (0 < 2 ^ k) by (apply Z.pow_pos_nonneg; lia).
  apply digits_unique; [nia|].
  replace (digits m + k - 1) with (digits m - 1 + k) by lia.
  rewrite !Z.pow_add_r by lia. nia.
Qed.

(** A valid mantissa has at most 53 digits. *)
Lemma valid_mantissa_lt s m e :
  SpecFloat.valid_binary 53 1024 (S754_finite s m e) = true -> Z.pos m < 2 ^ 53.
Proof.
  intros [Hc _]%valid_finite. rewrite fexp_eq in Hc.
  pose proof (digits_bounds (Z.pos m) ltac:(lia)) as [_ B].
  assert (digits (Z.pos m) <= 53) by lia.
  assert (2 ^ digits (Z.pos m) <= 2 ^ 53) by (apply Z.pow_le_mono_r; lia). lia.
Qed.

(** A number in the unit interval is at most [2^-e]. *)
Lemma in_unit_mantissa m e :
  SpecFloat.valid_binary 53 1024 (S754_finite false m e) = true ->
  in_unit (S754_finite false m e) ->
  e <= -52 /\ Z.pos m <= 2 ^ (- e).
Proof.
  intros Hv [He|[-> Hm]]; [|split; [lia|exact Hm]].
  split; [lia|]. pose proof (valid_mantissa_lt _ _ _ Hv).
  assert (2 ^ 53 <= 2 ^ (- e)) by (apply Z.pow_le_mono_r; lia). lia.
Qed.

Lemma leb_of_order mr er mb eb :
  er < eb \/ (er = eb /\ Z.pos mr <= Z.pos mb) ->
  SFleb (S754_finite false mr er) (S754_finite false mb eb) = true.
Proof.
  unfold SFleb, SFcompare. intros [H|[-> H]].
  - rewrite (proj2 (Z.compare_lt_iff _ _) H). reflexivity.
  - rewrite Z.compare_refl.
    change (Pos.compare_cont Eq mr mb) with (Pos.compare mr mb).
    destruct (Pos.compare_spec mr mb); try reflexivity. lia.
Qed.

(** The product by a number of the unit interval is no larger. *)
Lemma SFmul_unit_le x y :
  SpecFloat.valid_binary 53 1024 x = true -> SpecFloat.valid_binary 53 1024 y = true ->
  nonneg_finite x -> in_unit y ->
  SFleb (SFmul 53 1024 x y) x = true /\ nonneg_finite (SFmul 53 1024 x y).
Proof.
  intros Hx Hy Nx Uy.
  destruct x as [sx|sx| |[] mx ex]; cbn in Nx; try contradiction;
    destruct y as [sy|sy| |[] my ey]; cbn in Uy; try contradiction;
    try (split; [reflexivity|exact Logic.I]).
  (* two positive numbers *)
  destruct (valid_finite _ _ _ Hx) as [Cx Bx].
  destruct (in_unit_mantissa _ _ Hy Uy) as [Ey My].
  cbn [SFmul xorb].
  assert (Hdx : digits (Z.pos mx) <= digits (Z.pos (mx * my))).
  { pose proof (digits_le (Z.pos mx) (Z.pos (mx * my)) 0 ltac:(lia) ltac:(lia) ltac:(lia)) as H.
    rewrite Z.add_0_r in H. apply H. rewrite Pos2Z.inj_mul. nia. }
  assert (Hfine : ex + ey <= fexp (digits (Z.pos (mx * my)) + (ex + ey))).
  { rewrite fexp_eq in *. lia. }
  assert (Hval : Z.pos (mx * my) <= Z.pos mx * 2 ^ (ex - (ex + ey))).
  { replace (ex - (ex + ey)) with (- ey) by lia. rewrite Pos2Z.inj_mul. nia. }
  pose proof (round_aux_le (Z.pos (mx * my)) (ex + ey) (Z.pos mx) ex
                ltac:(lia) Hfine ltac:(lia) Cx Bx ltac:(lia) Hval) as H.
  destruct (binary_round_aux 53 1024 false (Z.pos (mx * my)) (ex + ey) loc_Exact)
    as [s|s| |s mr er]; [|destruct H|destruct H|].
  - subst s. split; [reflexivity|exact Logic.I].
  - destruct H as [-> Ho]. split; [apply leb_of_order; exact Ho|exact Logic.I].
Qed.

(** *** Subtracting from one *)

Lemma iter_xO m d : Z.pos (Pos.iter xO m d) = Z.pos m * 2 ^ Z.pos d.
Proof.
  induction d as [|d IH] using Pos.peano_ind.
  - cbn. lia.
  - rewrite Pos.iter_succ, Pos2Z.inj_succ, Z.pow_succ_r by lia.
    rewrite Pos2Z.inj_xO, IH. lia.
Qed.

(** Aligning a number to a smaller exponent keeps its value. *)
Lemma shl_align_spec mx ex ex' :
  exists m' e',
    shl_align mx ex ex' = (m', e') /\
    e' = Z.min ex ex' /\ Z.pos m' = Z.pos mx * 2 ^ (ex - e').
Proof.
  unfold shl_align. destruct (ex' - ex) as [|d|d] eqn:Hd.
  - exists mx, ex. split; [reflexivity|]. split; [lia|].
    rewrite Z.sub_diag. lia.
  - exists mx, ex. split; [reflexivity|]. split; [lia|].
    rewrite Z.sub_diag. lia.
  - eexists _, ex'. split; [reflexivity|]. split; [lia|].
    rewrite iter_xO. f_equal. f_equal. lia.
Qed.

Lemma leb_one_in_unit m e :
  SFleb (S754_finite false m e) SFone = true -> in_unit (S754_finite false m e).
Proof.
  unfold SFleb, SFone, SFcompare, in_unit.
  destruct (Z.compare_spec e (-52)) as [->|H|H]; [|intros _; left; exact H|discriminate].
  intros H. right. split; [reflexivity|].
  apply (Pos2Z.pos_le_pos m 4503599627370496).
  unfold Pos.le, Pos.compare. intros Hgt. rewrite Hgt in H. discriminate.
Qed.

(** One minus a number of the unit interval is in the unit interval. *)
Lemma SFsub_one_unit y :
  SpecFloat.valid_binary 53 1024 y = true -> in_unit y ->
  in_unit (SFsub 53 1024 SFone y).
Proof.
  intros Hv Uy.
  destruct y as [sy|sy| |[] my ey]; cbn in Uy; try contradiction.
  { cbn. right. split; [reflexivity|]. lia. }
  destruct (in_unit_mantissa _ _ Hv Uy) as [Ey My].
  unfold SFsub, SFone. cbn [cond_Zopp].
  replace (Z.min (-52) ey) with ey by lia.
  destruct (shl_align_spec 4503599627370496 (-52) ey) as (a & ea & -> & Hea & Ha).
  destruct (shl_align_spec my ey ey) as (b & eb & -> & Heb & Hb).
  cbn [fst].
  replace ea with ey in Ha by lia. replace eb with ey in Hb by lia.
  rewrite Z.sub_diag, Z.mul_1_r in Hb.
  assert (Ha' : Z.pos a = 2 ^ (- ey)).
  { rewrite Ha. change (Z.pos 4503599627370496) with (2 ^ 52).
    rewrite <- Z.pow_add_r by lia. f_equal. lia. }
  destruct (Z.pos a - Z.pos b) as [|p|p] eqn:Hp; [exact Logic.I| |lia].
  cbn [binary_normalize]. unfold binary_round.
  destruct (shl_align_spec p ey (fexp (digits (Z.pos p) + ey)))
    as (mz & ez & Hz & Hez & Hmz).
  change (Z.pos (digits2_pos p)) with (digits (Z.pos p)). rewrite Hz.
  assert (Hpz : 0 < 2 ^ (ey - ez)) by (apply Z.pow_pos_nonneg; lia).
  assert (Hfine : ez <= fexp (digits (Z.pos mz) + ez)).
  { rewrite Hmz, digits_shift by lia.
    replace (digits (Z.pos p) + (ey - ez) + ez) with (digits (Z.pos p) + ey) by lia.
    lia. }
  assert (Hval : Z.pos mz <= 2 ^ 52 * 2 ^ (-52 - ez)).
  { rewrite <- Z.pow_add_r by lia. replace (52 + (-52 - ez)) with (- ey + (ey - ez)) by lia.
    rewrite Z.pow_add_r by lia. rewrite Hmz. nia. }
  pose proof (round_aux_le (Z.pos mz) ez (2 ^ 52) (-52)
                ltac:(lia) Hfine ltac:(lia) eq_refl ltac:(lia) ltac:(lia) Hval) as H.
  destruct (binary_round_aux 53 1024 false (Z.pos mz) ez loc_Exact)
    as [s|s| |s mr er]; [exact Logic.I|destruct H|destruct H|].
  destruct H as [-> Ho]. exact Ho.
Qed.



End Binary64.

(** *** Numbers of JavaScript *)

Lemma between_0_1_in_unit (x : float) :
  PrimFloat.leb 0 x = true -> PrimFloat.leb x 1 = true -> in_unit (Prim2SF x).
Proof.
  rewrite !leb_spec. change (Prim2SF 0) with (S754_zero false).
  change (Prim2SF 1) with SFone.
  destruct (Prim2SF x) as [s|[]| |[] m e]; try discriminate.
  - intros _ _. exact Logic.I.
  - intros _. apply leb_one_in_unit.
Qed.

Lemma finite_positive (a : float) :
  is_finite a = true -> PrimFloat.leb a 0 = false ->
  nonneg_finite (Prim2SF a).
Proof.
  unfold is_finite. rewrite leb_spec. change (Prim2SF 0) with (S754_zero false).
  destruct (Prim2SF a) as [s|s| |[] m e]; try discriminate; intros _ _; exact Logic.I.
Qed.






(* ===================================================================== *)
(** ** Quotes *)
(* ===================================================================== *)

Lemma validateQuoteRequest_cases request :
  validateQuoteRequest request = Ret tt \/
  exists e, validateQuoteRequest request = Throw e.
Proof.
  unfold validateQuoteRequest.
  repeat match goal with |- context [if ?b then _ else _] => destruct b end; eauto.
Qed.

(** [requestQuote] validates, computes a quote, and stores it. *)
Lemma requestQuote_exec ad request s :
  exec ad (requestQuote request) s =
  match validateQuoteRequest request with
  | Throw e => (inl e, s)
  | _ =>
      match exec ad (calculateQuote request) s with
      | (inl e, s1) => (inl e, s1)
      | (inr q, s1) => (inr (response_at request q s1), stored_at request q s1)
      end
  end.
Proof.
  unfold requestQuote.
  destruct (validateQuoteRequest_cases request) as [-> | [e ->]]; [|reflexivity].
  cbn. rewrite exec_bind.
  destruct (exec ad (calculateQuote request) s) as [[e|q] s1]; [reflexivity|].
  cbn. unfold response_at, stored_at, record_at.
  destruct (negb (JS.truthy_bool (dry request))); reflexivity.
Qed.

(** A request that fails validation is rejected before the method awaits
    anything, and leaves the state as it was. *)
Lemma requestQuote_invalid request e s :
  validateQuoteRequest request = Throw e ->
  run (requestQuote request) s = (Raised e, s) /\
  forall ad, exec ad (requestQuote request) s = (inl e, s).
Proof.
  intros Hv. split; [|intros ad; rewrite requestQuote_exec, Hv; reflexivity].
  unfold requestQuote. rewrite Hv. reflexivity.
Qed.

(** The fields of a computed quote. *)
Lemma calculateQuote_ok ad request s q s' :
  exec ad (calculateQuote request) s = (inr q, s') ->
  exists o d,
    originAsset request = Some o /\ destinationAsset request = Some d /\
    s' = tick s /\
    amountIn q = amount request /\
    fee q = JS.toFixed (feeNum request) (asset_decimals o) /\
    amountOut q = JS.toFixed (amountOutWithSlippage request) (asset_decimals d) /\
    timeEstimate q = (if bool_decide (asset_chain o = asset_chain d) then 7 else 45) /\
    steps (route q) =
      (let originSymbol := getSymbol (asset_chain o) (asset_token o) in
       let destSymbol := getSymbol (asset_chain d) (asset_token d) in
       if bool_decide (asset_chain o = asset_chain d)
       then [ {| from := originSymbol; to := destSymbol; protocol := "ref-finance" |} ]
       else [ {| from := originSymbol;
                 to := Some (JS.template originSymbol ++ " (bridged)");
                 protocol := "rainbow-bridge" |};
              {| from := Some (JS.template originSymbol ++ " (bridged)");
                 to := destSymbol;
                 protocol := "uniswap-v3" |} ]).
Proof.
  unfold calculateQuote, split_asset, asset_decimals, asset_chain, asset_token.
  destruct (originAsset request) as [o|]; [|discriminate].
  destruct (destinationAsset request) as [d|]; [|discriminate].
  intros H. exists o, d.
  revert H. cbn. case_bool_decide; cbn;
    [|destruct (ad _) as [e|dv]; cbn; [discriminate|]];
    intros [= <- <-]; cbn;
    (repeat split; try reflexivity; case_bool_decide; (reflexivity || contradiction)).
Qed.

Lemma requestQuote_ok ad request s resp s' :
  exec ad (requestQuote request) s = (inr resp, s') ->
  validateQuoteRequest request = Ret tt /\
  exists q,
    exec ad (calculateQuote request) s = (inr q, tick s) /\
    resp = response_at request q (tick s) /\
    s' = stored_at request q (tick s).
Proof.
  rewrite requestQuote_exec.
  destruct (validateQuoteRequest_cases request) as [-> | [e ->]]; [|discriminate].
  destruct (exec ad (calculateQuote request) s) as [[e|q] s1] eqn:Hq; [discriminate|].
  intros [= <- <-]. split; [reflexivity|].
  destruct (calculateQuote_ok _ _ _ _ _ Hq) as (o & d & _ & _ & -> & _).
  eauto.
Qed.

(** A quote is computed whenever the assets are present and the deposit
    address can be had: the origin chain is [near], or the adapter derives
    an address. *)
Lemma calculateQuote_total (ad : Adapters) request s o d :
  originAsset request = Some o -> destinationAsset request = Some d ->
  asset_chain o = Some "near" \/
    (exists dv, ad (DeriveAddress (refundTo request) (asset_chain o)) = inr dv) ->
  exists q, exec ad (calculateQuote request) s = (inr q, tick s).
Proof.
  unfold calculateQuote, split_asset, asset_chain. intros -> -> H. cbn.
  case_bool_decide; cbn; [eauto|].
  destruct H as [H|[dv H]]; [contradiction|]. rewrite H. cbn. eauto.
Qed.

(** C6. Whenever [requestQuote] returns a quote: if the origin and the
    destination chain are the same, the route has exactly one step, of
    protocol "ref-finance", and the time estimate is 7; if they differ, the
    route has exactly two steps, of protocols "rainbow-bridge" then
    "uniswap-v3", and the time estimate is 45. *)
Theorem route_and_time_follow_chains ad request s resp s' :
  exec ad (requestQuote request) s = (inr resp, s') ->
  exists o d,
    originAsset request = Some o /\ destinationAsset request = Some d /\
    (asset_chain o = asset_chain d ->
       (exists st, steps (route (quote resp)) = [st] /\ protocol st = "ref-finance") /\
       timeEstimate (quote resp) = 7) /\
    (asset_chain o <> asset_chain d ->
       (exists st1 st2, steps (route (quote resp)) = [st1; st2] /\
          protocol st1 = "rainbow-bridge" /\ protocol st2 = "uniswap-v3") /\
       timeEstimate (quote resp) = 45).
Proof.
  intros H. apply requestQuote_ok in H as (_ & q & Hq & -> & _).
  apply calculateQuote_ok in Hq as (o & d & Ho & Hd & _ & _ & _ & _ & Ht & Hs).
  exists o, d. cbn. rewrite Ht, Hs. split; [done|]. split; [done|].
  split; intros Hc; case_bool_decide; try contradiction; eauto 10.
Qed.

Lemma route_and_time_follow_chains_witness :
  let resp := Scenario.response_of
                (Scenario.quoted Scenario.succeeding
                   (Scenario.request0 "near:native" "ethereum:usdc.eth" "1000000")) in
  exists o d,
    Some "near:native" = Some o /\ Some "ethereum:usdc.eth" = Some d /\
    (asset_chain o = asset_chain d ->
       (exists st, steps (route (quote resp)) = [st] /\ protocol st = "ref-finance") /\
       timeEstimate (quote resp) = 7) /\
    (asset_chain o <> asset_chain d ->
       (exists st1 st2, steps (route (quote resp)) = [st1; st2] /\
          protocol st1 = "rainbow-bridge" /\ protocol st2 = "uniswap-v3") /\
       timeEstimate (quote resp) = 45).
Proof.
  exact (route_and_time_follow_chains Scenario.succeeding
           (Scenario.request0 "near:native" "ethereum:usdc.eth" "1000000")
           (Scenario.sys0 true) _ _ eq_refl).
Defined.



Lemma effective_slippage_zero request x :
  slippageTolerance request = Some x -> PrimFloat.eqb x 0 = true ->
  effective_slippage request = 0.01%float.
Proof.
  unfold effective_slippage, JS.truthy_num. intros -> ->. reflexivity.
Qed.

Lemma calculateQuote_without_slippage request :
  effective_slippage request = 0.01%float ->
  calculateQuote (without_slippage request) = calculateQuote request.
Proof.
  intros H. unfold calculateQuote, amountOutWithSlippage.
  rewrite H. reflexivity.
Qed.

(** C10. A request that passes validation and supplies a
    [slippageTolerance] of zero is quoted with the default slippage of 0.01:
    its [amountOut] is [amountIn * (1 - 0.003) * (1 - 0.01)], and the quote
    is the one of the same request with [slippageTolerance] left out. *)
Theorem zero_slippage_is_default ad request s resp s' x :
  slippageTolerance request = Some x ->
  PrimFloat.eqb x 0 = true ->
  exec ad (requestQuote request) s = (inr resp, s') ->
  exists d,
    destinationAsset request = Some d /\
    amountOut (quote resp) =
      JS.toFixed (amountInNum request * (1 - 0.003) * (1 - 0.01)) (asset_decimals d) /\
    exists resp0 s0,
      exec ad (requestQuote (without_slippage request)) s = (inr resp0, s0) /\
      quote resp0 = quote resp.
Proof.
  intros Hx H0 H.
  pose proof (effective_slippage_zero _ _ Hx H0) as Hs.
  apply requestQuote_ok in H as (Hv & q & Hq & -> & _).
  pose proof Hq as Hq'.
  apply calculateQuote_ok in Hq' as (o & d & _ & Hd & _ & _ & _ & Ha & _).
  exists d. split; [exact Hd|]. split.
  - cbn. rewrite Ha. unfold amountOutWithSlippage, amountOutNum, feePercent.
    rewrite Hs. reflexivity.
  - rewrite requestQuote_exec, calculateQuote_without_slippage by exact Hs.
    change (validateQuoteRequest (without_slippage request))
      with (validateQuoteRequest request).
    rewrite Hv, Hq. eauto.
Qed.

Lemma zero_slippage_is_default_witness :
  let request := Scenario.with_slippage 0
                   (Scenario.request0 "near:native" "near:usdc.near" "1000") in
  let resp := Scenario.response_of (Scenario.quoted Scenario.succeeding request) in
  exists d,
    destinationAsset request = Some d /\
    amountOut (quote resp) =
      JS.toFixed (amountInNum request * (1 - 0.003) * (1 - 0.01)) (asset_decimals d) /\
    exists resp0 s0,
      exec Scenario.succeeding (requestQuote (without_slippage request)) (Scenario.sys0 true)
        = (inr resp0, s0) /\
      quote resp0 = quote resp.
Proof.
  exact (zero_slippage_is_default Scenario.succeeding
           (Scenario.with_slippage 0
              (Scenario.request0 "near:native" "near:usdc.near" "1000"))
           (Scenario.sys0 true) _ _ 0%float eq_refl eq_refl eq_refl).
Defined.

(** C3, as the code has it. A request whose [originAsset] or
    [destinationAsset] is missing or empty is rejected by [requestQuote]
    with the validation error, before anything is awaited and with the
    state left as it was. *)
Theorem missing_asset_is_rejected request s :
  JS.truthy_str (originAsset request) = false \/
  JS.truthy_str (destinationAsset request) = false ->
  run (requestQuote request) s
    = (Raised {| message := "Origin and destination assets required" |}, s) /\
  forall ad, exec ad (requestQuote request) s
    = (inl (of_Error {| message := "Origin and destination assets required" |}), s).
Proof.
  intros H. apply requestQuote_invalid. unfold validateQuoteRequest.
  destruct H as [-> | ->]; [reflexivity|].
  destruct (JS.truthy_str (originAsset request)); reflexivity.
Qed.

Lemma missing_asset_is_rejected_witness :
  let request := Scenario.request0 "" "near:native" "1000" in
  run (requestQuote request) (Scenario.sys0 true)
    = (Raised {| message := "Origin and destination assets required" |}, Scenario.sys0 true) /\
  forall ad, exec ad (requestQuote request) (Scenario.sys0 true)
    = (inl (of_Error {| message := "Origin and destination assets required" |}), Scenario.sys0 true).
Proof.
  exact (missing_asset_is_rejected (Scenario.request0 "" "near:native" "1000")
           (Scenario.sys0 true) (or_introl eq_refl)).
Defined.

(** C3 as stated fails: the origin asset "near" has one part only, and
    the destination asset "x:y:z" has three, yet the request passes
    validation and is quoted (the missing token reads as [undefined]). *)
Lemma malformed_assets_are_quoted :
  let request := Scenario.request0 "near" "x:y:z" "1000" in
  let outcome := Scenario.quoted Scenario.succeeding request in
  JS.split_colon "near" = ["near"] /\
  JS.split_colon "x:y:z" = ["x"; "y"; "z"] /\
  validateQuoteRequest request = Ret tt /\
  fst outcome = inr (Scenario.response_of outcome) /\
  status <$> swaps (snd outcome) !! quoteId (Scenario.response_of outcome)
    = Some PENDING_DEPOSIT /\
  from <$> steps (route (quote (Scenario.response_of outcome)))
    = [None; Some "undefined (bridged)"].
Proof. vm_compute. repeat split. Qed.

(** C2: the part the code gets right. A request whose [amount] is
    missing, empty, or parses to zero or less is rejected by [requestQuote]
    with the validation error, before anything is awaited and with the state
    (hence the records) left as it was. *)
Lemma nonpositive_amount_is_rejected request s :
  JS.truthy_str (originAsset request) = true ->
  JS.truthy_str (destinationAsset request) = true ->
  JS.truthy_str (amount request) = false \/
  PrimFloat.leb (JS.parseFloat (JS.template (amount request))) 0 = true ->
  run (requestQuote request) s = (Raised {| message := "Valid amount required" |}, s) /\
  forall ad, exec ad (requestQuote request) s
    = (inl (of_Error {| message := "Valid amount required" |}), s).
Proof.
  intros Ho Hd H. apply requestQuote_invalid. unfold validateQuoteRequest.
  rewrite Ho, Hd. cbn.
  destruct H as [-> | ->]; [reflexivity|].
  destruct (JS.truthy_str (amount request)); reflexivity.
Qed.

Lemma listed_amounts_rejected :
  Forall (fun a =>
            fst (Scenario.quoted Scenario.succeeding
                   (Scenario.request0 "near:native" "near:wrap.near" a))
            = inl (of_Error {| message := "Valid amount required" |}))
    ["0"; "-5"; ""].
Proof. repeat constructor. Qed.

(** C2, where the code departs from it. The amount "abc" is not a
    number: [parseFloat] gives [NaN], which is not [<= 0], so the request
    passes validation; it is quoted (with a fee of "NaN") and a record is
    stored for it. *)
Theorem nonnumeric_amount_is_accepted :
  let request := Scenario.request0 "near:native" "near:wrap.near" "abc" in
  let outcome := Scenario.quoted Scenario.succeeding request in
  PrimFloat.eqb (JS.parseFloat "abc") (JS.parseFloat "abc") = false /\
  validateQuoteRequest request = Ret tt /\
  fst outcome = inr (Scenario.response_of outcome) /\
  fee (quote (Scenario.response_of outcome)) = "NaN" /\
  amountOut (quote (Scenario.response_of outcome)) = "NaN" /\
  status <$> swaps (snd outcome) !! quoteId (Scenario.response_of outcome)
    = Some PENDING_DEPOSIT.
Proof. vm_compute. repeat split. Qed.




(** Validation does not look at [slippageTolerance]: a request with a
    tolerance of -0.5 is quoted, at [1000 * (1 - 0.003) * 1.5 = 1495.5],
    which is above [amountIn * 0.997 = 997].  The bound on the amount
    needs a slippage that is not negative. *)
Lemma negative_slippage_raises_amount_out :
  let request := Scenario.with_slippage (-0.5)
                   (Scenario.request0 "near:native" "near:usdc.near" "1000") in
  let outcome := Scenario.quoted Scenario.succeeding request in
  validateQuoteRequest request = Ret tt /\
  fst outcome = inr (Scenario.response_of outcome) /\
  amountOut (quote (Scenario.response_of outcome)) = "1495.500000" /\
  JS.toFixed (amountInNum request * 0.997) 6 = "997.000000" /\
  PrimFloat.leb (amountOutWithSlippage request) (amountInNum request * 0.997) = false /\
  PrimFloat.ltb (amountInNum request * 0.997) (amountOutWithSlippage request) = true.
Proof. vm_compute. repeat split. Qed.

(* ===================================================================== *)
(** ** Swap execution *)
(* ===================================================================== *)

Lemma exec_run {A} ad (p : Prog A) s :
  exec ad p s =
  match run p s with
  | (Done a, s') => (inr a, s')
  | (Raised e, s') => (inl e, s')
  | (Blocked c k, s') => exec ad (k (ad c)) s'
  end.
Proof.
  revert s; induction p as [a|e|X f k IH|c k IH]; intros s; cbn; auto.
  destruct (f s) as [x s1]; apply IH.
Qed.

Lemma run_random_hex n s :
  run (random_hex n) s
  = (Done (hex_from n (host s)), with_host (skip_hex n (host s)) s).
Proof.
  revert s; induction n as [|n IH]; intros s; [destruct s; reflexivity|].
  cbn [random_hex]. unfold random16 at 1. cbn [bind run].
  rewrite run_bind, IH. reflexivity.
Qed.

Lemma run_generateMockTxHash s :
  run (generateMockTxHash "NEAR") s
  = (Done (mock_hash (host s)), with_host (skip_hex 64 (host s)) s).
Proof.
  unfold generateMockTxHash. rewrite run_bind, run_random_hex. reflexivity.
Qed.

Lemma exec_generateMockTxHash ad s :
  exec ad (generateMockTxHash "NEAR") s
  = (inr (mock_hash (host s)), with_host (skip_hex 64 (host s)) s).
Proof. rewrite exec_run, run_generateMockTxHash. reflexivity. Qed.

Lemma hex_digit_char n :
  (n < 16)%N -> exists c, hex_digit n = String c "" /\ is_hex_char c = true.
Proof.
  intros H. unfold hex_digit.
  assert (Hn : (N.to_nat n < 16)%nat) by lia.
  revert Hn. generalize (N.to_nat n) as k. intros k Hk.
  do 16 (destruct k as [|k]; [eexists; split; reflexivity|]). lia.
Qed.

Lemma hex_from_is_hex n h :
  String.length (hex_from n h) = n /\ all_hex (hex_from n h) = true.
Proof.
  revert h; induction n as [|n IH]; intros h; [split; reflexivity|].
  cbn [hex_from].
  destruct (hex_digit_char (hex h (hex_ix h) mod 16)%N) as (c & -> & Hc).
  { apply N.mod_lt. discriminate. }
  destruct (IH (next_hex h)) as [Hl Ha].
  change (String c "" ++ hex_from n (next_hex h))
    with (String c (hex_from n (next_hex h))).
  cbn. rewrite Hl, Hc, Ha. split; reflexivity.
Qed.

(** What [generateMockTxHash] returns is a mock transaction reference. *)
Lemma mock_hash_is_mock h : is_mock_hash (mock_hash h).
Proof. apply hex_from_is_hex. Qed.

(** Reading random digits leaves the clock and the identifiers alone. *)
Lemma skip_hex_frame n h :
  clock (skip_hex n h) = clock h /\ clock_ix (skip_hex n h) = clock_ix h /\
  uuid (skip_hex n h) = uuid h /\ uuid_ix (skip_hex n h) = uuid_ix h.
Proof.
  revert h; induction n as [|n IH]; intros h; [repeat split|].
  cbn [skip_hex]. destruct (IH (next_hex h)) as (-> & -> & -> & ->). repeat split.
Qed.

(** An asset that starts with "near:" is on the chain [near]. *)
Lemma startsWith_near_chain dest :
  JS.startsWith "near:" dest = true -> asset_chain dest = Some "near".
Proof.
  unfold JS.startsWith, asset_chain, JS.split_colon. intros H.
  do 5 (destruct dest as [|? dest]; [discriminate|];
        cbn [String.prefix] in H; destruct (ascii_dec _ _) as [<-|]; [|discriminate]).
  cbn. destruct (JS.split_on ":" dest); reflexivity.
Qed.

#[local] Arguments generateMockTxHash : simpl never.
#[local] Arguments mock_hash : simpl never.
#[local] Arguments skip_hex : simpl never.
#[local] Arguments next_clock : simpl never.

(** Reading the [message] of a caught value. *)
Lemma exec_read_message ad (error : Thrown) s :
  exec ad (read_message error) s =
  match read_failure error with
  | Some e => (inl (of_Error e), s)
  | None => (inr match error with IsValue m => m | _ => None end, s)
  end.
Proof. destruct error; reflexivity. Qed.

(** The transfer step when every transfer is rejected with a reason that
    is neither [undefined] nor [null], or none is tried: a mock hash. *)
Lemma transfer_step_fallback (ad : Adapters) (p : Prog string) s :
  (forall a b c d, exists m, ad (SendNearTransfer a b c d) = inl (IsValue m)) ->
  p = generateMockTxHash "NEAR" \/
  (exists a b c d,
     p = try_catch
           (let! result := sendNearTransfer a b c d in Ret (txHash result))
           (fun error => read_message error ;; generateMockTxHash "NEAR")) ->
  exec ad p s = (inr (mock_hash (host s)), with_host (skip_hex 64 (host s)) s).
Proof.
  intros Had [-> | (a & b & c & d & ->)]; [apply exec_generateMockTxHash|].
  cbn. destruct (Had a b c d) as [m ->]. cbn. apply exec_generateMockTxHash.
Qed.

Lemma simulateExecution_transfer_fallback (ad : Adapters) s quoteId swap dest :
  swaps s !! quoteId = Some swap ->
  destinationAsset (quoteRequest (quoteResponse swap)) = Some dest ->
  asset_chain dest = Some "near" ->
  (forall a b c d, exists m, ad (SendNearTransfer a b c d) = inl (IsValue m)) ->
  exists s',
    exec ad (simulateExecution quoteId) s = (inr tt, s') /\
    swaps s' !! quoteId =
      Some (completed swap (clock (host s) (S (clock_ix (host s))))
              (mock_hash (next_clock (host s))) None).
Proof.
  intros Hs Hd Hc Had.
  unfold simulateExecution. cbn. rewrite Hs. cbn. rewrite Hd. cbn.
  rewrite exec_try_catch, exec_bind.
  rewrite (transfer_step_fallback ad _ _ Had); cycle 1.
  { destruct (nearExec s && JS.truthy_str _); [right|left]; eauto 10. }
  cbn. unfold asset_chain in Hc. rewrite Hc. cbn.
  eexists; split; [reflexivity|]. cbn.
  rewrite !lookup_alter_eq, Hs. cbn.
  destruct (skip_hex_frame 64 (next_clock (host s))) as (-> & -> & _).
  reflexivity.
Qed.

(** A transfer rejected with [undefined] or [null]: the fallback throws,
    and the swap fails with the message of that [TypeError]. *)
Lemma simulateExecution_transfer_nullish (ad : Adapters) s quoteId swap dest reason e :
  swaps s !! quoteId = Some swap ->
  destinationAsset (quoteRequest (quoteResponse swap)) = Some dest ->
  tries_transfer s swap dest = true ->
  ad (transfer_call swap) = inl reason ->
  read_failure reason = Some e ->
  exists s',
    exec ad (simulateExecution quoteId) s = (inr tt, s') /\
    swaps s' !! quoteId =
      Some (failed swap (clock (host s) (S (clock_ix (host s))))
              (Some (Str (message e)))).
Proof.
  intros Hs Hd Ht Had He. unfold tries_transfer in Ht.
  apply andb_prop in Ht as [Ht Hr]. apply andb_prop in Ht as [Hn Hp].
  unfold simulateExecution. cbn. rewrite Hs. cbn. rewrite Hd. cbn.
  rewrite Hp, Hn, Hr. cbn. unfold transfer_call in Had. rewrite Had. cbn.
  destruct reason; cbn in He; inversion He; subst e; cbn;
    (eexists; split; [reflexivity|]; cbn;
     rewrite !lookup_alter_eq, Hs; reflexivity).
Qed.

Lemma simulateExecution_destination_failure (ad : Adapters) s quoteId swap dest :
  swaps s !! quoteId = Some swap ->
  destinationAsset (quoteRequest (quoteResponse swap)) = Some dest ->
  asset_chain dest <> Some "near" ->
  (forall ch h, exists m, ad (SimulateDestinationTx ch h) = inl (IsValue m)) ->
  exists s' m,
    exec ad (simulateExecution quoteId) s = (inr tt, s') /\
    ad (SimulateDestinationTx (asset_chain dest) (mock_hash (next_clock (host s))))
      = inl (IsValue m) /\
    swaps s' !! quoteId =
      Some (failed swap (clock (host s) (S (clock_ix (host s)))) m).
Proof.
  intros Hs Hd Hc Had.
  assert (Hn : JS.startsWith "near:" dest = false).
  { destruct (JS.startsWith "near:" dest) eqn:H; [|reflexivity].
    apply startsWith_near_chain in H. contradiction. }
  destruct (Had (asset_chain dest) (mock_hash (next_clock (host s)))) as [m He].
  unfold simulateExecution. cbn. rewrite Hs. cbn. rewrite Hd. cbn.
  rewrite Hn. cbn. rewrite andb_false_r.
  rewrite exec_try_catch, exec_bind, exec_generateMockTxHash.
  cbn. fold (asset_chain dest). rewrite bool_decide_eq_false_2 by exact Hc.
  cbn. rewrite He. cbn.
  eexists _, m; split; [reflexivity|]. split; [reflexivity|]. cbn.
  rewrite !lookup_alter_eq, Hs. cbn.
  destruct (skip_hex_frame 64 (next_clock (host s))) as (-> & -> & _).
  reflexivity.
Qed.

(** A destination transaction rejected with [undefined] or [null]: the
    [catch] block throws before it marks the swap, which stays
    [PROCESSING], and the execution is rejected. *)
Lemma simulateExecution_destination_nullish (ad : Adapters) s quoteId swap dest reason e :
  swaps s !! quoteId = Some swap ->
  destinationAsset (quoteRequest (quoteResponse swap)) = Some dest ->
  asset_chain dest <> Some "near" ->
  ad (SimulateDestinationTx (asset_chain dest) (mock_hash (next_clock (host s))))
    = inl reason ->
  read_failure reason = Some e ->
  exists s',
    exec ad (simulateExecution quoteId) s = (inl (of_Error e), s') /\
    swaps s' !! quoteId =
      Some (processing swap (clock (host s) (clock_ix (host s)))).
Proof.
  intros Hs Hd Hc Had He.
  assert (Hn : JS.startsWith "near:" dest = false).
  { destruct (JS.startsWith "near:" dest) eqn:H; [|reflexivity].
    apply startsWith_near_chain in H. contradiction. }
  unfold simulateExecution. cbn. rewrite Hs. cbn. rewrite Hd. cbn.
  rewrite Hn. cbn. rewrite andb_false_r.
  rewrite exec_try_catch, exec_bind, exec_generateMockTxHash.
  cbn. fold (asset_chain dest). rewrite bool_decide_eq_false_2 by exact Hc.
  cbn. rewrite Had. cbn.
  destruct reason; cbn in He; inversion He; subst e; cbn;
    (eexists; split; [reflexivity|]; cbn;
     rewrite !lookup_alter_eq, Hs; reflexivity).
Qed.

(** What an accepted request leaves behind: its record, pending, under
    the identifier of the response, and a timer when it is not dry. *)
Lemma requestQuote_stored ad request s resp s' :
  exec ad (requestQuote request) s = (inr resp, s') ->
  exists swap,
    swaps s' !! quoteId resp = Some swap /\
    quoteResponse swap = resp /\ quoteRequest resp = request /\
    status swap = PENDING_DEPOSIT /\
    swapDetails swap = None /\ error swap = None /\
    timers s' = (if negb (JS.truthy_bool (dry request))
                 then (timers s ++ [(quoteId resp, 1000)])%list else timers s) /\
    nearExec s' = nearExec s.
Proof.
  intros H. apply requestQuote_ok in H as (_ & q & _ & -> & ->).
  eexists. split; [apply lookup_insert_eq|]. cbn. repeat split.
Qed.

(** C4, at a transfer rejected without a reason.  The request of NEAR to
    wrapped NEAR is accepted by a simulator with a
    [NearExecutionAdapter], and its execution is scheduled.  When the
    adapter rejects [sendNearTransfer] with [undefined], the fallback
    reads [error.message] for its log before it makes the mock hash, and
    throws: the execution ends with the record [FAILED], its error the
    message of that [TypeError], and no [swapDetails].  The same happens
    for [null]. *)
Theorem transfer_rejected_without_reason_fails :
  let request := Scenario.request0 "near:native" "near:wrap.near" "1000" in
  let outcome := Scenario.quoted Scenario.succeeding request in
  let resp := Scenario.response_of outcome in
  fst outcome = inr resp /\
  In (quoteId resp, 1000) (timers (snd outcome)) /\
  nearExec (snd outcome) = true /\
  (exists s2 swap,
     exec (Scenario.rejecting IsUndefined) (simulateExecution (quoteId resp)) (snd outcome)
       = (inr tt, s2) /\
     swaps s2 !! quoteId resp = Some swap /\
     status swap = FAILED /\
     error swap
       = Some (Str "Cannot read properties of undefined (reading 'message')") /\
     swapDetails swap = None) /\
  (exists s2 swap,
     exec (Scenario.rejecting IsNull) (simulateExecution (quoteId resp)) (snd outcome)
       = (inr tt, s2) /\
     swaps s2 !! quoteId resp = Some swap /\
     status swap = FAILED /\
     error swap
       = Some (Str "Cannot read properties of null (reading 'message')") /\
     swapDetails swap = None).
Proof.
  intros request outcome resp.
  split; [reflexivity|].
  split; [left; reflexivity|]. split; [reflexivity|].
  let x := eval vm_compute in (swaps (snd outcome) !! quoteId resp) in
  match x with Some ?w => pose (swap := w) end.
  assert (Hs : swaps (snd outcome) !! quoteId resp = Some swap)
    by (vm_compute; reflexivity).
  split.
  - destruct (simulateExecution_transfer_nullish (Scenario.rejecting IsUndefined)
                (snd outcome) (quoteId resp) swap "near:wrap.near" IsUndefined
                (TypeError "message") Hs eq_refl eq_refl eq_refl eq_refl)
      as (s2 & Hx & Hs2).
    eexists s2, _. split; [exact Hx|]. split; [exact Hs2|]. repeat split.
  - destruct (simulateExecution_transfer_nullish (Scenario.rejecting IsNull)
                (snd outcome) (quoteId resp) swap "near:wrap.near" IsNull
                (TypeError_null "message") Hs eq_refl eq_refl eq_refl eq_refl)
      as (s2 & Hx & Hs2).
    eexists s2, _. split; [exact Hx|]. split; [exact Hs2|]. repeat split.
Qed.

(** C5, at a destination transaction rejected without a reason, or with
    one that has no message.  The request of NEAR to USDC on Ethereum is
    accepted and its execution is scheduled.  When the facilitator rejects
    [simulateDestinationTx] with [undefined], the [catch] block reads
    [error.message] for its log before it sets the status, and throws:
    the execution is rejected with that [TypeError], and the record stays
    [PROCESSING], with no error.  When the reason is a value without a
    [message] (a string, say), the record is [FAILED] and its error is
    [undefined]. *)
Theorem destination_rejected_without_reason_stays_processing :
  let request := Scenario.request0 "near:native" "ethereum:usdc.eth" "1000" in
  let outcome := Scenario.quoted Scenario.succeeding request in
  let resp := Scenario.response_of outcome in
  fst outcome = inr resp /\
  In (quoteId resp, 1000) (timers (snd outcome)) /\
  (exists s2 swap,
     exec (Scenario.rejecting IsUndefined) (simulateExecution (quoteId resp)) (snd outcome)
       = (inl (of_Error (TypeError "message")), s2) /\
     swaps s2 !! quoteId resp = Some swap /\
     status swap = PROCESSING /\
     error swap = None /\
     swapDetails swap = None) /\
  (exists s2 swap,
     exec (Scenario.rejecting (IsValue None)) (simulateExecution (quoteId resp)) (snd outcome)
       = (inr tt, s2) /\
     swaps s2 !! quoteId resp = Some swap /\
     status swap = FAILED /\
     error swap = None /\
     swapDetails swap = None).
Proof.
  intros request outcome resp.
  split; [reflexivity|].
  split; [left; reflexivity|].
  let x := eval vm_compute in (swaps (snd outcome) !! quoteId resp) in
  match x with Some ?w => pose (swap := w) end.
  assert (Hs : swaps (snd outcome) !! quoteId resp = Some swap)
    by (vm_compute; reflexivity).
  assert (Hc : asset_chain "ethereum:usdc.eth" <> Some "near")
    by (vm_compute; discriminate).
  split.
  - destruct (simulateExecution_destination_nullish (Scenario.rejecting IsUndefined)
                (snd outcome) (quoteId resp) swap "ethereum:usdc.eth" IsUndefined
                (TypeError "message") Hs eq_refl Hc eq_refl eq_refl)
      as (s2 & Hx & Hs2).
    eexists s2, _. split; [exact Hx|]. split; [exact Hs2|]. repeat split.
  - destruct (simulateExecution_destination_failure (Scenario.rejecting (IsValue None))
                (snd outcome) (quoteId resp) swap "ethereum:usdc.eth" Hs eq_refl Hc)
      as (s2 & m & Hx & Hm & Hs2).
    { intros ch h. exists None. reflexivity. }
    inversion Hm; subst m.
    eexists s2, _. split; [exact Hx|]. split; [exact Hs2|]. repeat split.
Qed.

(** X25. For every accepted request that is not dry and whose destination
    chain is [near], orchestration is scheduled, and when the simulator
    has a [NearExecutionAdapter] whose every [sendNearTransfer] is rejected
    with a reason that is neither [undefined] nor [null],
    [simulateExecution] still ends with the record [SUCCESS], no error, and
    [swapDetails] holding one origin transaction reference, a mock one,
    and no destination reference. *)
Theorem transfer_rejection_falls_back (ad1 ad2 : Adapters) request s resp s1 dest :
  exec ad1 (requestQuote request) s = (inr resp, s1) ->
  JS.truthy_bool (dry request) = false ->
  destinationAsset request = Some dest ->
  asset_chain dest = Some "near" ->
  nearExec s = true ->
  (forall a b c d, exists m, ad2 (SendNearTransfer a b c d) = inl (IsValue m)) ->
  In (quoteId resp, 1000) (timers s1) /\
  nearExec s1 = true /\
  exists s2 swap details hash,
    exec ad2 (simulateExecution (quoteId resp)) s1 = (inr tt, s2) /\
    swaps s2 !! quoteId resp = Some swap /\
    status swap = SUCCESS /\
    error swap = None /\
    swapDetails swap = Some details /\
    nearTxHashes details = [hash] /\ is_mock_hash hash /\
    destinationTxHash details = None.
Proof.
  intros H Hdry Hd Hc Hn Had.
  apply requestQuote_stored in H as (swap & Hs & Hr & Hq & _ & _ & He & Ht & Hn').
  rewrite Hdry in Ht. cbn in Ht. split; [rewrite Ht; apply in_or_app; right; left; reflexivity|].
  split; [congruence|].
  destruct (simulateExecution_transfer_fallback ad2 s1 (quoteId resp) swap dest)
    as (s2 & Hx & Hs2); auto.
  { rewrite Hr, Hq. exact Hd. }
  eexists s2, _, _, _. split; [exact Hx|]. split; [exact Hs2|]. cbn.
  repeat split; auto; apply mock_hash_is_mock.
Qed.

(** X26. For every accepted request that is not dry and whose destination
    chain is not [near], orchestration is scheduled, and when every
    [simulateDestinationTx] of the facilitator is rejected with a reason
    that is neither [undefined] nor [null], [simulateExecution] ends with
    the record [FAILED], [swapDetails] unset, and as its [error] what the
    [message] of the reason holds: the message of an [Error] object, and
    [undefined] for a reason that has none. *)
Theorem destination_rejection_fails_swap (ad1 ad2 : Adapters) request s resp s1 dest :
  exec ad1 (requestQuote request) s = (inr resp, s1) ->
  JS.truthy_bool (dry request) = false ->
  destinationAsset request = Some dest ->
  asset_chain dest <> Some "near" ->
  (forall ch h, exists m, ad2 (SimulateDestinationTx ch h) = inl (IsValue m)) ->
  In (quoteId resp, 1000) (timers s1) /\
  exists s2 swap m h,
    exec ad2 (simulateExecution (quoteId resp)) s1 = (inr tt, s2) /\
    ad2 (SimulateDestinationTx (asset_chain dest) h) = inl (IsValue m) /\
    swaps s2 !! quoteId resp = Some swap /\
    status swap = FAILED /\
    error swap = m /\
    swapDetails swap = None.
Proof.
  intros H Hdry Hd Hc Had.
  apply requestQuote_stored in H as (swap & Hs & Hr & Hq & _ & Hsd & _ & Ht & _).
  rewrite Hdry in Ht. cbn in Ht. split; [rewrite Ht; apply in_or_app; right; left; reflexivity|].
  destruct (simulateExecution_destination_failure ad2 s1 (quoteId resp) swap dest)
    as (s2 & m & Hx & He & Hs2); auto.
  { rewrite Hr, Hq. exact Hd. }
  eexists s2, _, m, _. split; [exact Hx|]. split; [exact He|]. split; [exact Hs2|].
  cbn. auto.
Qed.

Lemma transfer_rejection_falls_back_witness :
  let request := Scenario.request0 "near:native" "near:wrap.near" "1000" in
  let outcome := Scenario.quoted Scenario.succeeding request in
  let resp := Scenario.response_of outcome in
  In (quoteId resp, 1000) (timers (snd outcome)) /\
  nearExec (snd outcome) = true /\
  exists s2 swap details hash,
    exec Scenario.failing (simulateExecution (quoteId resp)) (snd outcome) = (inr tt, s2) /\
    swaps s2 !! quoteId resp = Some swap /\
    status swap = SUCCESS /\
    error swap = None /\
    swapDetails swap = Some details /\
    nearTxHashes details = [hash] /\ is_mock_hash hash /\
    destinationTxHash details = None.
Proof.
  apply (transfer_rejection_falls_back Scenario.succeeding Scenario.failing
           (Scenario.request0 "near:native" "near:wrap.near" "1000")
           (Scenario.sys0 true) _ _ "near:wrap.near");
    try reflexivity.
  intros a b c d. eexists. reflexivity.
Defined.

Lemma destination_rejection_fails_swap_witness :
  let request := Scenario.request0 "near:native" "ethereum:usdc.eth" "1000" in
  let outcome := Scenario.quoted Scenario.succeeding request in
  let resp := Scenario.response_of outcome in
  In (quoteId resp, 1000) (timers (snd outcome)) /\
  exists s2 swap m h,
    exec Scenario.failing (simulateExecution (quoteId resp)) (snd outcome) = (inr tt, s2) /\
    Scenario.failing (SimulateDestinationTx (asset_chain "ethereum:usdc.eth") h)
      = inl (IsValue m) /\
    swaps s2 !! quoteId resp = Some swap /\
    status swap = FAILED /\
    error swap = m /\
    swapDetails swap = None.
Proof.
  apply (destination_rejection_fails_swap Scenario.succeeding Scenario.failing
           (Scenario.request0 "near:native" "ethereum:usdc.eth" "1000")
           (Scenario.sys0 true) _ _ "ethereum:usdc.eth");
    try reflexivity.
  - discriminate.
  - intros ch h. eexists. reflexivity.
Defined.

(* ===================================================================== *)
(** ** Behaviours of jobs *)
(* ===================================================================== *)

Section BehaviourFacts.
Context {A : Type}.
Variable Pre : Sys -> Prop.
Variables Fin Err Blk : Sys -> Sys -> Prop.

Lemma behaves_stretch (p : Prog A) :
  behaves Pre Fin Err Blk p ->
  forall s, Pre s -> stretch_ok Fin Err Blk (behaves Pre Fin Err Blk) s (run p s).
Proof.
  intros [p' Hd He Hb Hk] s Hs. unfold stretch_ok.
  destruct (run p' s) as [[a|e|c k] s'] eqn:Hr; eauto.
Qed.

Lemma stretch_behaves (p : Prog A) :
  (forall s, Pre s -> stretch_ok Fin Err Blk (behaves Pre Fin Err Blk) s (run p s)) ->
  behaves Pre Fin Err Blk p.
Proof.
  intros H. constructor; intros s; intros;
    match goal with
    | Hs : Pre s, Hr : run p s = _ |- _ =>
        specialize (H s Hs); rewrite Hr in H; cbn in H
    end; first [exact H | destruct H; auto].
Qed.

(** Induction on a behaviour, stretch by stretch. *)
Lemma behaves_induction (P : Prog A -> Prop) :
  (forall p,
     (forall s, Pre s ->
        stretch_ok Fin Err Blk (fun p' => behaves Pre Fin Err Blk p' /\ P p') s (run p s)) ->
     P p) ->
  forall p, behaves Pre Fin Err Blk p -> P p.
Proof.
  intros Hstep p Hp. induction Hp as [p Hd He Hb Hk IH].
  apply Hstep. intros s Hs. unfold stretch_ok.
  destruct (run p s) as [[a|e|c k] s'] eqn:Hr;
    [eauto | eauto | split; [eauto | intros r; split; eauto]].
Qed.

End BehaviourFacts.

(** A behaviour with weaker relations. *)
Lemma behaves_weaken {A : Type} (Pre : Sys -> Prop)
    (Fin Err Blk Fin' Err' Blk' : Sys -> Sys -> Prop) (p : Prog A) :
  (forall s s', Fin s s' -> Fin' s s') ->
  (forall s s', Err s s' -> Err' s s') ->
  (forall s s', Blk s s' -> Blk' s s') ->
  behaves Pre Fin Err Blk p -> behaves Pre Fin' Err' Blk' p.
Proof.
  intros Hf He Hb. revert p. apply behaves_induction. intros p Hstep.
  apply stretch_behaves. intros s Hs. specialize (Hstep s Hs).
  unfold stretch_ok in *. destruct (run p s) as [[a|e|c k] s']; auto.
  destruct Hstep as [H1 H2]. split; [auto|]. intros r. apply H2.
Qed.

Lemma idle_refl s : idle s s.
Proof. repeat split. Qed.

Lemma idle_trans s1 s2 s3 : idle s1 s2 -> idle s2 s3 -> idle s1 s3.
Proof. unfold idle. intros (-> & -> & -> & -> & ->) (-> & -> & -> & -> & ->). repeat split. Qed.

Lemma idle_moves q to s1 s2 s3 : idle s1 s2 -> moves q to s2 s3 -> moves q to s1 s3.
Proof.
  unfold idle, moves.
  intros (-> & -> & -> & -> & ->) ((swap & swap' & H1 & H2 & H3) & -> & -> & -> & ->).
  repeat split. eauto.
Qed.

Lemma idle_has_record q s s' : has_record q s -> idle s s' -> has_record q s'.
Proof. unfold has_record. intros H (-> & _). exact H. Qed.

(** A job that first only reads ([p]) and then goes on ([g]) behaves as
    what it goes on with does. *)
Lemma quiet_bind {X A : Type} q (Fin : Sys -> Sys -> Prop)
    (p : Prog X) (g : X -> Prog A) :
  (forall s1 s2 s3, idle s1 s2 -> Fin s2 s3 -> Fin s1 s3) ->
  quiet q p ->
  (forall x, behaves (has_record q) Fin idle idle (g x)) ->
  behaves (has_record q) Fin idle idle (bind p g).
Proof.
  intros Hfin Hp Hg. revert p Hp. apply behaves_induction. intros p Hstep.
  apply stretch_behaves. intros s Hs. specialize (Hstep s Hs).
  rewrite run_bind. unfold stretch_ok in Hstep.
  destruct (run p s) as [[x|e|c k] s1].
  - pose proof (behaves_stretch _ _ _ _ _ (Hg x) s1 (idle_has_record _ _ _ Hs Hstep)) as H.
    unfold stretch_ok in *. destruct (run (g x) s1) as [[a|e|c k] s2].
    + eauto.
    + eapply idle_trans; eauto.
    + destruct H as [H1 H2]. split; [eapply idle_trans; eauto|exact H2].
  - exact Hstep.
  - destruct Hstep as [H1 H2]. split; [exact H1|]. intros r. apply H2.
Qed.

(** An execution: a body that winds up, inside a [try] whose handler
    closes the swap, or throws and leaves it. *)
Lemma winds_try_catch q (p : Prog unit) (h : Thrown -> Prog unit) :
  winds q p ->
  (forall e s, has_record q s ->
     (exists s', run (h e) s = (Done tt, s') /\ closes q s s') \/
     (exists e' s', run (h e) s = (Raised e', s') /\ idle s s')) ->
  exec_job q (try_catch p h).
Proof.
  intros Hp Hh. revert p Hp. apply behaves_induction. intros p Hstep.
  apply stretch_behaves. intros s Hs. specialize (Hstep s Hs).
  rewrite run_try_catch. unfold stretch_ok in Hstep.
  destruct (run p s) as [[x|e|c k] s1].
  - exact Hstep.
  - destruct (Hh e s1 (idle_has_record _ _ _ Hs Hstep))
      as [(s2 & -> & Hc) | (e' & s2 & -> & Hi)]; cbn.
    + eapply idle_moves; eauto.
    + eapply idle_trans; eauto.
  - destruct Hstep as [H1 H2]. split; [exact H1|]. intros r. apply H2.
Qed.

(** *** The pieces of [simulateExecution] *)

Section Pieces.
Variable q : string.

Lemma quiet_Ret {A} (a : A) : quiet q (Ret a).
Proof. apply stretch_behaves. intros s _. apply idle_refl. Qed.

Lemma quiet_Throw {A} e : quiet q (Throw e : Prog A).
Proof. apply stretch_behaves. intros s _. apply idle_refl. Qed.

Lemma quiet_settle {A} (r : Thrown + A) : quiet q (settle r).
Proof. destruct r; [apply quiet_Throw|apply quiet_Ret]. Qed.

Lemma quiet_read_message error : quiet q (read_message error).
Proof. destruct error; [apply quiet_Throw..|apply quiet_Ret]. Qed.

Lemma quiet_Await {A} c (k : Settled c -> Prog A) :
  (forall r, quiet q (k r)) -> quiet q (Await c k).
Proof. intros H. apply stretch_behaves. intros s _. split; [apply idle_refl|exact H]. Qed.

Lemma quiet_new_Date : quiet q new_Date.
Proof. apply stretch_behaves. intros s _. repeat split. Qed.

Lemma quiet_this_nearExec : quiet q this_nearExec.
Proof. apply stretch_behaves. intros s _. apply idle_refl. Qed.

Lemma quiet_generateMockTxHash : quiet q (generateMockTxHash "NEAR").
Proof.
  apply stretch_behaves. intros s _. rewrite run_generateMockTxHash.
  destruct (skip_hex_frame 64 (host s)) as (_ & _ & H1 & H2).
  repeat split; assumption.
Qed.

Lemma quiet_try_catch {A} (p : Prog A) (h : Thrown -> Prog A) :
  quiet q p -> (forall e, quiet q (h e)) -> quiet q (try_catch p h).
Proof.
  intros Hp Hh. revert p Hp. apply behaves_induction. intros p Hstep.
  apply stretch_behaves. intros s Hs. specialize (Hstep s Hs).
  rewrite run_try_catch. unfold stretch_ok in Hstep.
  destruct (run p s) as [[x|e|c k] s1].
  - exact Hstep.
  - pose proof (behaves_stretch _ _ _ _ _ (Hh e) s1 (idle_has_record _ _ _ Hs Hstep)) as H.
    unfold stretch_ok in *. destruct (run (h e) s1) as [[a|e'|c k] s2].
    + eapply idle_trans; eauto.
    + eapply idle_trans; eauto.
    + destruct H as [H1 H2]. split; [eapply idle_trans; eauto|exact H2].
  - destruct Hstep as [H1 H2]. split; [exact H1|]. intros r. apply H2.
Qed.

(** Three assignments to the record of [q] move it. *)
Lemma assign_moves (to : SwapStatus -> Prop) (f : StoredSwap -> StoredSwap)
    (h : Host -> Host) s :
  has_record q s ->
  (forall swap, quoteResponse (f swap) = quoteResponse swap /\ to (status (f swap))) ->
  (forall h0, uuid (h h0) = uuid h0 /\ uuid_ix (h h0) = uuid_ix h0) ->
  moves q to s (with_swaps (alter f q (swaps s)) (with_host (h (host s)) s)).
Proof.
  intros [swap Hs] Hf Hh. split.
  - exists swap, (f swap). split; [exact Hs|]. split; [|apply Hf].
    cbn. apply alter_alt_Some. exact Hs.
  - cbn. destruct (Hh (host s)) as [-> ->]. repeat split.
Qed.

End Pieces.
#[local] Arguments generateMockTxHash : simpl never.
#[local] Arguments mock_hash : simpl never.
#[local] Arguments skip_hex : simpl never.
#[local] Arguments next_clock : simpl never.

Section Pieces2.
Variable q : string.

(** A synchronous action that only reads, then the rest. *)
Lemma quiet_Act {X A : Type} (Fin : Sys -> Sys -> Prop)
    (f : Sys -> X * Sys) (k : X -> Prog A) :
  (forall s1 s2 s3, idle s1 s2 -> Fin s2 s3 -> Fin s1 s3) ->
  (forall s, idle s (snd (f s))) ->
  (forall x, behaves (has_record q) Fin idle idle (k x)) ->
  behaves (has_record q) Fin idle idle (Act f k).
Proof.
  intros Hfin Hf Hk. change (Act f k) with (bind (Act f Ret) k).
  apply quiet_bind; [exact Hfin| |exact Hk].
  apply stretch_behaves. intros s _. cbn. specialize (Hf s).
  destruct (f s) as [x s1]. exact Hf.
Qed.

Lemma moved (to : SwapStatus -> Prop) (f : StoredSwap -> StoredSwap) (h : Host) s :
  has_record q s ->
  (forall swap, quoteResponse (f swap) = quoteResponse swap /\ to (status (f swap))) ->
  uuid h = uuid (host s) -> uuid_ix h = uuid_ix (host s) ->
  moves q to s {| swaps := alter f q (swaps s); nearExec := nearExec s;
                  timers := timers s; host := h |}.
Proof.
  intros [swap Hs] Hf H1 H2. split; [|cbn; auto].
  exists swap, (f swap). split; [exact Hs|]. split; [|apply Hf].
  cbn. apply alter_alt_Some. exact Hs.
Qed.

(** The [catch] block closes the swap, or throws and leaves it. *)
Lemma swap_failed_closes e s :
  has_record q s ->
  (exists s', run (swap_failed q e) s = (Done tt, s') /\ closes q s s') \/
  (exists e' s', run (swap_failed q e) s = (Raised e', s') /\ idle s s').
Proof.
  intros Hs.
  destruct e as [| |m];
    [right; eexists _, _; split; [reflexivity|apply idle_refl]..|].
  left. eexists. split; [reflexivity|].
  unfold with_swaps, with_host; cbn [swaps nearExec timers host].
  rewrite !alter_alter_eq.
  apply (moved _ _ (next_clock (host s))); auto.
Qed.

Lemma throws {A : Type} (Fin : Sys -> Sys -> Prop) e :
  behaves (has_record q) Fin idle idle (Throw e : Prog A).
Proof. apply stretch_behaves. intros s _. apply idle_refl. Qed.

Ltac idle_prefix :=
  solve [ exact idle_trans | intros ? ? ? ? ?; eapply idle_moves; eassumption ].

(* Walks through a body made of pieces that only read. *)
Ltac walk :=
  lazymatch goal with
  | |- quiet _ _ => unfold quiet; walk
  | |- behaves _ _ _ _ (match ?x with _ => _ end) => destruct x; walk
  | |- behaves _ idle _ _ (Ret _) => apply quiet_Ret
  | |- behaves _ _ _ _ (Throw _) => apply throws
  | |- behaves _ idle _ _ (settle _) => apply quiet_settle
  | |- behaves _ idle _ _ (read_message _) => apply quiet_read_message
  | |- behaves _ idle _ _ (generateMockTxHash _) => apply quiet_generateMockTxHash
  | |- behaves _ idle _ _ (Await _ _) => apply quiet_Await; intros ?; walk
  | |- behaves _ idle _ _ (try_catch _ _) =>
      apply quiet_try_catch; [|intros ?]; walk
  | |- behaves _ _ _ _ (bind _ _) =>
      apply quiet_bind; [idle_prefix| |intros ?]; walk
  | |- behaves _ _ _ _ (Act _ _) =>
      try (apply quiet_Act;
           [idle_prefix|solve [intros ?; apply idle_refl]|intros ?]; walk)
  | |- _ => idtac
  end.

Lemma simulateExecution_run s swap :
  swaps s !! q = Some swap ->
  exists k s',
    run (simulateExecution q) s
      = (Blocked (Sleep (timeEstimate (quote (quoteResponse swap)) * 100)) k, s') /\
    starts q s s' /\
    forall r, exec_job q (k r).
Proof.
  intros Hs. unfold simulateExecution. cbn. rewrite Hs. cbn.
  eexists _, _. split; [reflexivity|]. split.
  - unfold with_swaps, with_host; cbn [swaps nearExec timers host].
    rewrite !alter_alter_eq.
    apply (moved _ _ (next_clock (host s))); [eexists; eauto|auto..].
  - intros r. apply winds_try_catch; [|apply swap_failed_closes].
    unfold winds. walk.
    apply stretch_behaves. intros s0 Hs0. cbn.
    unfold with_swaps, with_host; cbn [swaps nearExec timers host].
    rewrite !alter_alter_eq.
    apply (moved _ _ (next_clock (host s0))); auto.
Qed.
End Pieces2.

(** *** Calls of the public methods as jobs *)

Lemma requestQuote_request_job request :
  request_job (requestQuote request ;; Ret tt).
Proof.
  apply stretch_behaves. intros s _. unfold requestQuote, stretch_ok.
  destruct (validateQuoteRequest_cases request) as [-> | [e ->]]; [|reflexivity].
  cbn. unfold calculateQuote, split_asset.
  destruct (originAsset request) as [o|]; [|reflexivity].
  destruct (destinationAsset request) as [d|]; [|reflexivity].
  cbn. case_bool_decide; cbn.
  - destruct (negb (JS.truthy_bool (dry request))) eqn:Hdry; cbn;
      eexists request, _; unfold stored_at; rewrite Hdry; reflexivity.
  - split; [reflexivity|]. intros r. apply stretch_behaves. intros s1 _.
    unfold stretch_ok. destruct r as [e|dv]; cbn; [reflexivity|].
    destruct (negb (JS.truthy_bool (dry request))) eqn:Hdry; cbn;
      eexists request, _; unfold stored_at; rewrite Hdry; reflexivity.
Qed.

(** [getSwapStatus] only reads, and awaits nothing. *)
Lemma getSwapStatus_run quoteId s :
  run (getSwapStatus quoteId) s =
  (match swaps s !! quoteId with
   | None => Raised {| message := "Quote not found: " ++ quoteId |}
   | Some swap =>
       Done {| responseQuote := quoteResponse swap;
               responseStatus := status swap;
               responseUpdatedAt := updatedAt swap;
               responseSwapDetails := swapDetails swap;
               responseError := error swap |}
   end, s).
Proof. unfold getSwapStatus. cbn. destruct (swaps s !! quoteId); reflexivity. Qed.

Lemma launch_getSwapStatus quoteId s js :
  launch OStatus (getSwapStatus quoteId ;; Ret tt) s js = {| sys := s; jobs := js |}.
Proof.
  unfold launch. rewrite run_bind, getSwapStatus_run.
  destruct (swaps s !! quoteId); reflexivity.
Qed.

(** *** Counting timers and jobs *)

Section Counting.
Context {A : Type} (P : A -> Prop) `{!forall x, Decision (P x)}.

Lemma count_snoc (l : list A) (x : A) :
  length (filter P (l ++ [x])%list) =
  (length (filter P l) + (if decide (P x) then 1 else 0))%nat.
Proof.
  rewrite filter_app, length_app. f_equal.
  rewrite filter_cons. destruct (decide (P x)); reflexivity.
Qed.

Lemma count_delete (l : list A) (i : nat) (x : A) :
  l !! i = Some x ->
  length (filter P l) =
  (length (filter P (delete i l)) + (if decide (P x) then 1 else 0))%nat.
Proof.
  intros Hl. rewrite <- (take_drop_middle l i x Hl) at 1.
  rewrite delete_take_drop, !filter_app, !length_app, filter_cons.
  destruct (decide (P x)); cbn; lia.
Qed.

End Counting.

Lemma timer_count_snoc q ts q' ms :
  timer_count q (ts ++ [(q', ms)])%list =
  (timer_count q ts + (if decide (q' = q) then 1 else 0))%nat.
Proof. unfold timer_count. rewrite count_snoc. reflexivity. Qed.

Lemma timer_count_delete q ts i q' ms :
  ts !! i = Some (q', ms) ->
  timer_count q ts =
  (timer_count q (delete i ts) + (if decide (q' = q) then 1 else 0))%nat.
Proof. intros H. unfold timer_count. rewrite (count_delete _ _ _ _ H). reflexivity. Qed.

Lemma exec_count_snoc q js j :
  exec_count q (js ++ [j])%list =
  (exec_count q js + (if decide (owner j = OExec q) then 1 else 0))%nat.
Proof. unfold exec_count. rewrite count_snoc. reflexivity. Qed.

Lemma exec_count_delete q js i j :
  js !! i = Some j ->
  exec_count q js =
  (exec_count q (delete i js) + (if decide (owner j = OExec q) then 1 else 0))%nat.
Proof. intros H. unfold exec_count. rewrite (count_delete _ _ _ _ H). reflexivity. Qed.

#[local] Arguments timer_count : simpl never.
#[local] Arguments exec_count : simpl never.

(** *** The invariant of the event loop *)

(** The next identifier is not in use. *)
Lemma next_uuid_fresh s js :
  invariant s js -> swaps s !! uuid (host s) (uuid_ix (host s)) = None.
Proof.
  intros I. destruct (swaps s !! _) eqn:H; [|reflexivity].
  destruct (inv_issued _ _ I _ (mk_is_Some _ _ H)) as (i & Hi & Hu).
  apply (inv_fresh _ _ I) in Hu. exfalso. lia.
Qed.

Lemma evolves_refl m : evolves m m.
Proof. intros q. destruct (m !! q); auto. Qed.

(** A stretch that only reads keeps the invariant. *)
Lemma invariant_idle s js s' :
  invariant s js -> idle s s' -> invariant s' js.
Proof.
  intros [I1 I2 I3 I4] (Hs & Ht & _ & Hu & Hi).
  constructor; rewrite ?Hs, ?Ht, ?Hu, ?Hi; assumption.
Qed.

(** Accepting a request keeps the invariant. *)
Lemma invariant_accepts s js s' :
  invariant s js -> accepts s s' ->
  invariant s' js /\ evolves (swaps s) (swaps s').
Proof.
  intros I (request & quote & ->).
  pose proof (next_uuid_fresh _ _ I) as Hfresh.
  destruct I as [I1 I2 I3 I4].
  unfold stored_at, tick, next_clock, next_uuid. cbn.
  set (id := uuid (host s) (uuid_ix (host s))) in *.
  split; [constructor|]; cbn.
  - exact I1.
  - intros q. cbn. fold id. destruct (decide (id = q)) as [<-|Hne].
    + intros _. exists (uuid_ix (host s)). split; [lia|reflexivity].
    + rewrite lookup_insert_ne by exact Hne. intros H.
      destruct (I2 q H) as (i & Hi & Hu). exists i. split; [lia|exact Hu].
  - exact I3.
  - intros q. specialize (I4 q). cbn. fold id.
    destruct (decide (id = q)) as [<-|Hne].
    + rewrite lookup_insert_eq. rewrite Hfresh in I4. destruct I4 as [Ht He].
      unfold phase_ok. cbn. split; [exact He|].
      destruct (JS.truthy_bool (dry request)); cbn; [exact Ht|].
      rewrite timer_count_snoc, Ht. rewrite decide_True by reflexivity. reflexivity.
    + rewrite lookup_insert_ne by exact Hne.
      replace (timer_count q _) with (timer_count q (timers s)); [exact I4|].
      destruct (negb (JS.truthy_bool (dry request))); [|reflexivity].
      rewrite timer_count_snoc, decide_False by exact Hne. lia.
  - intros q. cbn. fold id. destruct (decide (id = q)) as [<-|Hne].
    + rewrite Hfresh, lookup_insert_eq. reflexivity.
    + rewrite lookup_insert_ne by exact Hne. destruct (swaps s !! q); auto.
Qed.

(** Starting or resuming a call of [requestQuote] keeps the invariant. *)
Lemma invariant_launch_request s js p :
  invariant s js -> request_job p ->
  invariant (sys (launch ORequest p s js)) (jobs (launch ORequest p s js)) /\
  evolves (swaps s) (swaps (sys (launch ORequest p s js))).
Proof.
  intros I Hp. pose proof (behaves_stretch _ _ _ _ _ Hp s Logic.I) as H.
  unfold launch, stretch_ok in *. destruct (run p s) as [[a|e|c k] s']; cbn.
  - apply invariant_accepts; assumption.
  - rewrite H. split; [exact I|apply evolves_refl].
  - destruct H as [-> Hk]. split; [|apply evolves_refl].
    destruct I as [I1 I2 I3 I4]. constructor; auto.
    + intros j [Hj|Hj]%elem_of_app; [apply I3; exact Hj|].
      apply list_elem_of_singleton in Hj as ->. exact Hk.
    + intros q. rewrite exec_count_snoc. cbn.
      rewrite decide_False by discriminate. rewrite Nat.add_0_r. apply I4.
Qed.

(** A job of [requestQuote] that leaves the queue takes nothing the
    invariant counts. *)
Lemma invariant_drop_request s js i j :
  invariant s js -> js !! i = Some j -> owner j = ORequest ->
  invariant s (delete i js).
Proof.
  intros [I1 I2 I3 I4] Hj Ho. constructor; auto.
  - intros j' Hj'. apply I3. eapply list_elem_of_delete_inv; eauto.
  - intros q. specialize (I4 q).
    rewrite (exec_count_delete q _ _ _ Hj), Ho in I4.
    rewrite decide_False, Nat.add_0_r in I4 by discriminate. exact I4.
Qed.

(** The record of [q] is replaced, for the same quote, and the timers and
    jobs of [q] are what its new status asks for. *)
Lemma invariant_update s js s' js' q swap swap' :
  invariant s js ->
  swaps s !! q = Some swap ->
  swaps s' = <[q := swap']> (swaps s) ->
  uuid (host s') = uuid (host s) -> uuid_ix (host s') = uuid_ix (host s) ->
  (forall q', q' <> q ->
     timer_count q' (timers s') = timer_count q' (timers s) /\
     exec_count q' js' = exec_count q' js) ->
  phase_ok swap' (timer_count q (timers s')) (exec_count q js') ->
  (forall j, j ∈ js' ->
     j ∈ js \/ (owner j = OExec q /\ forall r, exec_job q (cont j r))) ->
  invariant s' js'.
Proof.
  intros [I1 I2 I3 I4] Hs Hs' Hu Hi Hothers Hq Hjobs.
  constructor; rewrite ?Hs', ?Hu, ?Hi; auto.
  - intros q0 H. apply I2. destruct (decide (q = q0)) as [<-|Hne].
    + eauto.
    + rewrite lookup_insert_ne in H by exact Hne. exact H.
  - intros j Hj. destruct (Hjobs j Hj) as [H|[Ho H]]; [apply I3; exact H|].
    rewrite Ho. exact H.
  - intros q0. destruct (decide (q = q0)) as [<-|Hne].
    + rewrite lookup_insert_eq. exact Hq.
    + rewrite lookup_insert_ne by exact Hne.
      destruct (Hothers q0 (not_eq_sym Hne)) as [-> ->]. apply I4.
Qed.

Lemma evolves_update m q swap swap' :
  m !! q = Some swap ->
  quoteResponse swap' = quoteResponse swap ->
  status swap' = status swap \/ advances (status swap) (status swap') ->
  evolves m (<[q := swap']> m).
Proof.
  intros Hs Hr Ha q0. destruct (decide (q = q0)) as [<-|Hne].
  - rewrite Hs, lookup_insert_eq. auto.
  - rewrite lookup_insert_ne by exact Hne. destruct (m !! q0); auto.
Qed.

(** A timer fires: the execution of its quote starts. *)
Lemma invariant_timer_fires s js i q ms :
  invariant s js -> timers s !! i = Some (q, ms) ->
  let l' := launch (OExec q) (simulateExecution q)
              (with_timers (delete i (timers s)) s) js in
  invariant (sys l') (jobs l') /\ evolves (swaps s) (swaps (sys l')).
Proof.
  intros I Ht. pose proof (inv_phase _ _ I q) as Hq.
  rewrite (timer_count_delete q _ _ _ _ Ht), decide_True in Hq by reflexivity.
  destruct (swaps s !! q) as [swap|] eqn:Hs; [|lia].
  unfold phase_ok in Hq.
  destruct (status swap) eqn:Hst; try (exfalso; lia).
  destruct Hq as [He Hq].
  destruct (JS.truthy_bool (dry (quoteRequest (quoteResponse swap)))) eqn:Hdry;
    [exfalso; lia|].
  destruct (simulateExecution_run q (with_timers (delete i (timers s)) s) swap Hs)
    as (k & s' & Hrun & Hstart & Hk).
  cbn zeta. unfold launch. rewrite Hrun. cbn [sys jobs].
  destruct Hstart as ((swap0 & swap' & Hs0 & Hs' & Hr & Hp) & Ht' & _ & Hu & Hi).
  cbn in Hs0, Hs', Ht', Hu, Hi. rewrite Hs in Hs0. injection Hs0 as <-.
  split.
  - eapply (invariant_update s js s' _ q swap swap'); eauto.
    + intros q' Hne. rewrite Ht', exec_count_snoc. cbn.
      rewrite (timer_count_delete q' _ _ _ _ Ht).
      rewrite !decide_False by congruence. lia.
    + unfold phase_ok. rewrite Hp, Hr, Hdry, Ht', exec_count_snoc. cbn.
      rewrite decide_True by reflexivity. lia.
    + intros j [Hj|Hj]%elem_of_app; [auto|].
      apply list_elem_of_singleton in Hj as ->. right. cbn. auto.
  - rewrite Hs'. eapply evolves_update; eauto.
    right. rewrite Hst, Hp. constructor.
Qed.

(** The call an execution waits for settles: it goes on to its next
    [await], closes its swap, or ends with a throw that leaves it. *)
Lemma invariant_exec_settles s js i j q r :
  invariant s js -> js !! i = Some j -> owner j = OExec q ->
  let l' := launch (OExec q) (cont j r) s (delete i js) in
  invariant (sys l') (jobs l') /\ evolves (swaps s) (swaps (sys l')).
Proof.
  intros I Hj Ho. pose proof (inv_phase _ _ I q) as Hq.
  rewrite (exec_count_delete q _ _ _ Hj), Ho, decide_True in Hq by reflexivity.
  destruct (swaps s !! q) as [swap|] eqn:Hs; [|lia].
  unfold phase_ok in Hq.
  destruct (status swap) eqn:Hst; try (exfalso; lia).
  destruct Hq as (He & Ht & Hdry).
  assert (Hjob : exec_job q (cont j r)).
  { pose proof (inv_jobs _ _ I j (list_elem_of_lookup_2 _ _ _ Hj)) as H.
    rewrite Ho in H. apply H. }
  assert (Hothers : forall q', q' <> q ->
            exec_count q' (delete i js) = exec_count q' js).
  { intros q' Hne. rewrite (exec_count_delete q' js _ _ Hj), Ho.
    rewrite decide_False by congruence. lia. }
  assert (Hold : forall j', j' ∈ delete i js -> j' ∈ js).
  { intros j'. apply list_elem_of_delete_inv. }
  pose proof (behaves_stretch _ _ _ _ _ Hjob s (mk_is_Some _ _ Hs)) as H.
  cbn zeta. unfold launch, stretch_ok in *.
  destruct (run (cont j r) s) as [[a|e|c k] s']; cbn [sys jobs].
  - destruct H as ((swap0 & swap' & Hs0 & Hs' & Hr & Hp) & Ht' & _ & Hu & Hi).
    rewrite Hs in Hs0. injection Hs0 as <-. split.
    + eapply (invariant_update s js s' _ q swap swap'); eauto.
      * intros q' Hne. rewrite Ht'. auto.
      * unfold phase_ok. rewrite Hr, Hdry, Ht'.
        destruct Hp as [-> | ->]; lia.
    + rewrite Hs'. eapply evolves_update; eauto.
      right. rewrite Hst. destruct Hp as [-> | ->]; constructor.
  - destruct H as (Hs' & Ht' & _ & Hu & Hi). split.
    + eapply (invariant_update s js s' _ q swap swap); eauto.
      * rewrite Hs'. symmetry. apply insert_id. exact Hs.
      * intros q' Hne. rewrite Ht'. auto.
      * unfold phase_ok. rewrite Hst, Hdry, Ht'. lia.
    + rewrite Hs'. apply evolves_refl.
  - destruct H as [(Hs' & Ht' & _ & Hu & Hi) Hk]. split.
    + eapply (invariant_update s js s' _ q swap swap); eauto.
      * rewrite Hs'. symmetry. apply insert_id. exact Hs.
      * intros q' Hne. rewrite Ht', exec_count_snoc. cbn.
        rewrite decide_False by congruence. rewrite Hothers by exact Hne. lia.
      * unfold phase_ok. rewrite Hst, Hdry, Ht', exec_count_snoc. cbn.
        rewrite decide_True by reflexivity. lia.
      * intros j' [Hj'|Hj']%elem_of_app; [auto|].
        apply list_elem_of_singleton in Hj' as ->. right. cbn. auto.
    + rewrite Hs'. apply evolves_refl.
Qed.

(** Every step keeps the invariant, and lets the records evolve. *)
Lemma step_invariant l e l' :
  invariant (sys l) (jobs l) -> step l e = Some l' ->
  invariant (sys l') (jobs l') /\ evolves (swaps (sys l)) (swaps (sys l')).
Proof.
  intros I. destruct e as [request|quoteId|i|i ad]; cbn [step].
  - intros Hstep; apply (inj Some) in Hstep; subst l'.
    apply invariant_launch_request; [exact I|apply requestQuote_request_job].
  - intros Hstep; apply (inj Some) in Hstep; subst l'.
    rewrite launch_getSwapStatus. split; [exact I|apply evolves_refl].
  - destruct (timers (sys l) !! i) as [[q ms]|] eqn:Ht; [|discriminate].
    intros Hstep; apply (inj Some) in Hstep; subst l'.
    eapply invariant_timer_fires; eauto.
  - destruct (jobs l !! i) as [j|] eqn:Hj; [|discriminate].
    intros Hstep; apply (inj Some) in Hstep; subst l'.
    pose proof (inv_jobs _ _ I j (list_elem_of_lookup_2 _ _ _ Hj)) as Hjob.
    destruct (owner j) as [| |q] eqn:Ho.
    + apply invariant_launch_request; [|apply Hjob].
      eapply invariant_drop_request; eauto.
    + destruct Hjob.
    + eapply invariant_exec_settles; eauto.
Qed.

Lemma initial_invariant l : initial l -> invariant (sys l) (jobs l).
Proof.
  intros (Hs & Ht & Hj & Hu). constructor; rewrite ?Hs, ?Ht, ?Hj; auto.
  - intros q [x H]. rewrite lookup_empty in H. discriminate.
  - intros j H. apply elem_of_nil in H. destruct H.
  - intros q. rewrite lookup_empty. split; reflexivity.
Qed.

Lemma reachable_invariant l : reachable l -> invariant (sys l) (jobs l).
Proof.
  induction 1 as [l H|l e l' _ IH Hstep]; [apply initial_invariant; exact H|].
  eapply step_invariant; eauto.
Qed.

Lemma timer_count_0 q ts : timer_count q ts = 0%nat -> forall ms, (q, ms) ∉ ts.
Proof.
  unfold timer_count. intros H ms Hin.
  apply length_zero_iff_nil in H.
  assert (Hf : (q, ms) ∈ filter (fun t : string * Z => t.1 = q) ts).
  { apply list_elem_of_filter. split; [reflexivity|exact Hin]. }
  rewrite H in Hf. apply elem_of_nil in Hf. exact Hf.
Qed.

Lemma exec_count_0 q js :
  exec_count q js = 0%nat -> forall j, j ∈ js -> owner j <> OExec q.
Proof.
  unfold exec_count. intros H j Hin Ho.
  apply length_zero_iff_nil in H.
  assert (Hf : j ∈ filter (fun j => owner j = OExec q) js).
  { apply list_elem_of_filter. split; [exact Ho|exact Hin]. }
  rewrite H in Hf. apply elem_of_nil in Hf. exact Hf.
Qed.

(* ===================================================================== *)
(** ** The lifecycle of swaps *)
(* ===================================================================== *)

(** C7. At every point a simulator can reach, the record stored for a
    request with [dry: true] has status [PENDING_DEPOSIT], no timer is set
    to execute it and no execution of it is under way; and whatever happens
    next, the record is still there, for the same request, with status
    [PENDING_DEPOSIT]. *)
Theorem dry_request_stays_pending l q swap :
  reachable l ->
  swaps (sys l) !! q = Some swap ->
  JS.truthy_bool (dry (quoteRequest (quoteResponse swap))) = true ->
  status swap = PENDING_DEPOSIT /\
  (forall ms, (q, ms) ∉ timers (sys l)) /\
  (forall j, j ∈ jobs l -> owner j <> OExec q) /\
  forall e l', step l e = Some l' ->
    exists swap',
      swaps (sys l') !! q = Some swap' /\
      quoteResponse swap' = quoteResponse swap /\
      status swap' = PENDING_DEPOSIT.
Proof.
  intros Hl Hs Hdry.
  assert (Hpending : forall l0 swap0, reachable l0 ->
            swaps (sys l0) !! q = Some swap0 ->
            JS.truthy_bool (dry (quoteRequest (quoteResponse swap0))) = true ->
            status swap0 = PENDING_DEPOSIT /\
            timer_count q (timers (sys l0)) = 0%nat /\
            exec_count q (jobs l0) = 0%nat).
  { intros l0 swap0 Hl0 Hs0 Hd0.
    pose proof (inv_phase _ _ (reachable_invariant _ Hl0) q) as H.
    rewrite Hs0 in H. unfold phase_ok in H. rewrite Hd0 in H.
    destruct (status swap0); try (destruct H as (_ & _ & [=])); tauto. }
  destruct (Hpending l swap Hl Hs Hdry) as (Hst & Ht & He).
  split; [exact Hst|]. split; [apply timer_count_0; exact Ht|].
  split; [apply exec_count_0; exact He|].
  intros e l' Hstep.
  destruct (step_invariant _ _ _ (reachable_invariant _ Hl) Hstep) as [_ Hev].
  specialize (Hev q). rewrite Hs in Hev.
  destruct (swaps (sys l') !! q) as [swap'|] eqn:Hs'; [|destruct Hev].
  destruct Hev as [Hr _]. exists swap'. split; [reflexivity|]. split; [exact Hr|].
  apply (Hpending l' swap' (reachable_step _ _ _ Hl Hstep) Hs'). rewrite Hr. exact Hdry.
Qed.

(** C8. At every point a simulator can reach, the status of every record
    is one of [PENDING_DEPOSIT], [PROCESSING], [SUCCESS] and [FAILED]; and
    whatever happens next, every record stays, with its status unchanged or
    changed along [PENDING_DEPOSIT -> PROCESSING -> SUCCESS | FAILED], and a
    new record is pending. *)
Theorem status_follows_lifecycle l :
  reachable l ->
  (forall q swap, swaps (sys l) !! q = Some swap ->
     status swap = PENDING_DEPOSIT \/ status swap = PROCESSING \/
     status swap = SUCCESS \/ status swap = FAILED) /\
  forall e l', step l e = Some l' ->
    (forall q swap, swaps (sys l) !! q = Some swap ->
       exists swap',
         swaps (sys l') !! q = Some swap' /\
         (status swap' = status swap \/ advances (status swap) (status swap'))) /\
    (forall q swap', swaps (sys l) !! q = None ->
       swaps (sys l') !! q = Some swap' -> status swap' = PENDING_DEPOSIT).
Proof.
  intros Hl. pose proof (reachable_invariant _ Hl) as I. split.
  - intros q swap Hs. pose proof (inv_phase _ _ I q) as H.
    rewrite Hs in H. unfold phase_ok in H.
    destruct (status swap); tauto.
  - intros e l' Hstep. destruct (step_invariant _ _ _ I Hstep) as [_ Hev].
    split.
    + intros q swap Hs. specialize (Hev q). rewrite Hs in Hev.
      destruct (swaps (sys l') !! q) as [swap'|]; [|destruct Hev].
      exists swap'. split; [reflexivity|apply Hev].
    + intros q swap' Hs Hs'. specialize (Hev q). rewrite Hs, Hs' in Hev. exact Hev.
Qed.

(** C9. At every point a simulator can reach, [getSwapStatus] of an
    identifier that no quote was issued under (none of the identifiers
    handed out so far) is rejected with the not-found error, at once, and
    leaves the simulator, hence the registry, as it was. *)
Theorem unknown_quote_is_not_found l q :
  reachable l ->
  (forall i, (i < uuid_ix (host (sys l)))%nat -> uuid (host (sys l)) i <> q) ->
  run (getSwapStatus q) (sys l)
    = (Raised {| message := "Quote not found: " ++ q |}, sys l) /\
  (forall ad, exec ad (getSwapStatus q) (sys l)
    = (inl (of_Error {| message := "Quote not found: " ++ q |}), sys l)) /\
  step l (CallGetSwapStatus q) = Some l.
Proof.
  intros Hl Hq. pose proof (reachable_invariant _ Hl) as I.
  assert (Hs : swaps (sys l) !! q = None).
  { destruct (swaps (sys l) !! q) as [swap|] eqn:Hs; [|reflexivity].
    destruct (inv_issued _ _ I q (mk_is_Some _ _ Hs)) as (i & Hi & Hu).
    destruct (Hq i Hi Hu). }
  assert (Hrun : run (getSwapStatus q) (sys l)
            = (Raised {| message := "Quote not found: " ++ q |}, sys l)).
  { rewrite getSwapStatus_run, Hs. reflexivity. }
  split; [exact Hrun|]. split.
  - intros ad. rewrite exec_run, Hrun. reflexivity.
  - cbn [step]. rewrite launch_getSwapStatus. destruct l; reflexivity.
Qed.

(** *** Concrete runs *)

Lemma host0_uuid_inj : Inj (=) (=) (uuid Scenario.host0).
Proof.
  intros a b H. cbn in H. apply (inj pretty). 
  assert (forall x y : string, "quote-" ++ x = "quote-" ++ y -> x = y) as Hp.
  { intros x y Hxy. cbv [String.append] in Hxy. injection Hxy. auto. }
  apply Hp. exact H.
Qed.

Lemma loop0_initial b : initial (Scenario.loop0 b).
Proof. repeat split. exact host0_uuid_inj. Qed.

Lemma reachable_after l e :
  reachable l -> reachable (Run.after l e).
Proof.
  intros H. unfold Run.after. destruct (step l e) eqn:Hs; [|exact H].
  eapply reachable_step; eauto.
Qed.

Lemma loop1_reachable : reachable Run.loop1.
Proof. apply reachable_after, reachable_initial, loop0_initial. Qed.

Lemma dry_request_stays_pending_witness :
  exists swap,
    swaps (sys Run.loop1) !! "quote-0" = Some swap /\
    JS.truthy_bool (dry (quoteRequest (quoteResponse swap))) = true /\
    status swap = PENDING_DEPOSIT /\
    (forall ms, ("quote-0", ms) ∉ timers (sys Run.loop1)) /\
    (forall j, j ∈ jobs Run.loop1 -> owner j <> OExec "quote-0") /\
    forall e l', step Run.loop1 e = Some l' ->
      exists swap',
        swaps (sys l') !! "quote-0" = Some swap' /\
        quoteResponse swap' = quoteResponse swap /\
        status swap' = PENDING_DEPOSIT.
Proof.
  eexists. split; [vm_compute; reflexivity|]. split; [reflexivity|].
  apply (dry_request_stays_pending Run.loop1 "quote-0" _ loop1_reachable);
    reflexivity.
Defined.

Lemma status_follows_lifecycle_witness :
  (forall q swap, swaps (sys Run.loop1) !! q = Some swap ->
     status swap = PENDING_DEPOSIT \/ status swap = PROCESSING \/
     status swap = SUCCESS \/ status swap = FAILED) /\
  forall e l', step Run.loop1 e = Some l' ->
    (forall q swap, swaps (sys Run.loop1) !! q = Some swap ->
       exists swap',
         swaps (sys l') !! q = Some swap' /\
         (status swap' = status swap \/ advances (status swap) (status swap'))) /\
    (forall q swap', swaps (sys Run.loop1) !! q = None ->
       swaps (sys l') !! q = Some swap' -> status swap' = PENDING_DEPOSIT).
Proof. exact (status_follows_lifecycle Run.loop1 loop1_reachable). Defined.

Lemma unknown_quote_is_not_found_witness :
  run (getSwapStatus "quote-7") (sys Run.loop1)
    = (Raised {| message := "Quote not found: quote-7" |}, sys Run.loop1) /\
  (forall ad, exec ad (getSwapStatus "quote-7") (sys Run.loop1)
    = (inl (of_Error {| message := "Quote not found: quote-7" |}), sys Run.loop1)) /\
  step Run.loop1 (CallGetSwapStatus "quote-7") = Some Run.loop1.
Proof.
  apply (unknown_quote_is_not_found Run.loop1 "quote-7" loop1_reachable).
  intros i Hi. vm_compute in Hi.
  destruct i as [|i]; [vm_compute; discriminate|].
  apply Nat.succ_le_mono in Hi. inversion Hi.
Defined.

(* ===================================================================== *)
(** ** More on quotes: validation, the deposit address, the times *)
(* ===================================================================== *)

Lemma truthy_str_Some (x : option string) :
  JS.truthy_str x = true -> exists v, x = Some v.
Proof. destruct x; [eauto|discriminate]. Qed.

(** What validation lets through. *)
Lemma validateQuoteRequest_passed request :
  validateQuoteRequest request = Ret tt ->
  JS.truthy_str (originAsset request) = true /\
  JS.truthy_str (destinationAsset request) = true /\
  JS.truthy_str (amount request) = true /\
  PrimFloat.leb (amountInNum request) 0 = false /\
  JS.truthy_str (refundTo request) = true /\
  JS.truthy_str (recipient request) = true.
Proof.
  unfold validateQuoteRequest, amountInNum.
  destruct (JS.truthy_str (originAsset request)); [|discriminate].
  destruct (JS.truthy_str (destinationAsset request)); [|discriminate].
  destruct (JS.truthy_str (amount request)); [|discriminate].
  destruct (PrimFloat.leb _ 0); [discriminate|].
  destruct (JS.truthy_str (refundTo request)); [|discriminate].
  destruct (JS.truthy_str (recipient request)); [|discriminate].
  auto 10.
Qed.

(** How [calculateQuote] ends, by the origin chain and the adapter. *)
Lemma calculateQuote_exec (ad : Adapters) request s o d :
  originAsset request = Some o -> destinationAsset request = Some d ->
  if bool_decide (asset_chain o = Some "near")
  then exists q, exec ad (calculateQuote request) s = (inr q, tick s) /\
         depositAddress q = refundTo request /\
         deadline q = clock (host s) (clock_ix (host s)) + 300000
  else match ad (DeriveAddress (refundTo request) (asset_chain o)) with
       | inl e => exec ad (calculateQuote request) s = (inl e, s)
       | inr derived =>
           exists q, exec ad (calculateQuote request) s = (inr q, tick s) /\
             depositAddress q = Some (address derived) /\
             deadline q = clock (host s) (clock_ix (host s)) + 300000
       end.
Proof.
  unfold calculateQuote, split_asset, asset_chain. intros -> ->. cbn.
  case_bool_decide; cbn; [eauto|].
  destruct (ad _) as [e|dv]; cbn; eauto.
Qed.

(** X1. A request whose assets and amount pass validation but whose
    [refundTo] or [recipient] is missing or empty is rejected by
    [requestQuote] with "Refund and recipient addresses required", before
    anything is awaited and with the state left as it was. *)
Theorem missing_address_is_rejected request s :
  JS.truthy_str (originAsset request) = true ->
  JS.truthy_str (destinationAsset request) = true ->
  JS.truthy_str (amount request) = true ->
  PrimFloat.leb (amountInNum request) 0 = false ->
  JS.truthy_str (refundTo request) = false \/
  JS.truthy_str (recipient request) = false ->
  run (requestQuote request) s
    = (Raised {| message := "Refund and recipient addresses required" |}, s) /\
  forall ad, exec ad (requestQuote request) s
    = (inl (of_Error {| message := "Refund and recipient addresses required" |}), s).
Proof.
  intros Ho Hd Ha Hp Hr. apply requestQuote_invalid.
  unfold validateQuoteRequest. unfold amountInNum in Hp.
  rewrite Ho, Hd, Ha, Hp. cbn.
  destruct Hr as [-> | ->]; [reflexivity|]. rewrite orb_true_r. reflexivity.
Qed.

Lemma missing_address_is_rejected_witness :
  let request := Cases.without_recipient
                   (Scenario.request0 "near:native" "near:wrap.near" "1000") in
  run (requestQuote request) (Scenario.sys0 true)
    = (Raised {| message := "Refund and recipient addresses required" |},
       Scenario.sys0 true) /\
  forall ad, exec ad (requestQuote request) (Scenario.sys0 true)
    = (inl (of_Error {| message := "Refund and recipient addresses required" |}),
       Scenario.sys0 true).
Proof.
  exact (missing_address_is_rejected
           (Cases.without_recipient
              (Scenario.request0 "near:native" "near:wrap.near" "1000"))
           (Scenario.sys0 true) eq_refl eq_refl eq_refl eq_refl
           (or_intror eq_refl)).
Defined.

(** X2. A call of [requestQuote] that is rejected leaves the simulator as
    it was (no record, no timer, no reading of the clock or of an
    identifier), and its error is the one of validation or, for a valid
    request whose origin chain is not [near], the one with which the
    adapter rejected [deriveAddress]. *)
Theorem rejected_quote_changes_nothing (ad : Adapters) request s e s' :
  exec ad (requestQuote request) s = (inl e, s') ->
  s' = s /\
  (validateQuoteRequest request = Throw e \/
   validateQuoteRequest request = Ret tt /\
   exists o, originAsset request = Some o /\ asset_chain o <> Some "near" /\
     ad (DeriveAddress (refundTo request) (asset_chain o)) = inl e).
Proof.
  rewrite requestQuote_exec.
  destruct (validateQuoteRequest_cases request) as [Hv | [e0 Hv]]; rewrite Hv.
  - destruct (validateQuoteRequest_passed _ Hv) as (Ho & Hd & _).
    apply truthy_str_Some in Ho as [o Ho]. apply truthy_str_Some in Hd as [d Hd].
    pose proof (calculateQuote_exec ad request s o d Ho Hd) as H.
    case_bool_decide as Hc.
    + destruct H as (q & -> & _). discriminate.
    + destruct (ad _) as [e1|dv] eqn:Had.
      * rewrite H. intros [= <- <-]. split; [reflexivity|]. right. eauto.
      * destruct H as (q & -> & _). discriminate.
  - intros [= <- <-]. auto.
Qed.

Lemma rejected_quote_changes_nothing_witness :
  let request := Scenario.request0 "ethereum:usdc.eth" "near:usdc.near" "1000" in
  let e := of_Error {| message := "derivation failed" |} in
  Scenario.sys0 true = Scenario.sys0 true /\
  (validateQuoteRequest request = Throw e \/
   validateQuoteRequest request = Ret tt /\
   exists o, originAsset request = Some o /\ asset_chain o <> Some "near" /\
     Scenario.failing (DeriveAddress (refundTo request) (asset_chain o)) = inl e).
Proof.
  exact (rejected_quote_changes_nothing Scenario.failing
           (Scenario.request0 "ethereum:usdc.eth" "near:usdc.near" "1000")
           (Scenario.sys0 true) _ _ eq_refl).
Defined.

(** X3. The deposit address of a quote is the [refundTo] of the request
    when the origin chain is [near], and otherwise the address the adapter
    derives for [refundTo] on the origin chain. *)
Theorem deposit_address_follows_origin (ad : Adapters) request s resp s' :
  exec ad (requestQuote request) s = (inr resp, s') ->
  exists o, originAsset request = Some o /\
    if bool_decide (asset_chain o = Some "near")
    then depositAddress (quote resp) = refundTo request
    else exists derived,
           ad (DeriveAddress (refundTo request) (asset_chain o)) = inr derived /\
           depositAddress (quote resp) = Some (address derived).
Proof.
  intros H. apply requestQuote_ok in H as (Hv & q & Hq & -> & _).
  destruct (validateQuoteRequest_passed _ Hv) as (Ho & Hd & _).
  apply truthy_str_Some in Ho as [o Ho]. apply truthy_str_Some in Hd as [d Hd].
  exists o. split; [exact Ho|].
  pose proof (calculateQuote_exec ad request s o d Ho Hd) as H.
  case_bool_decide as Hc.
  - destruct H as (q' & Hq' & Hdep & _). rewrite Hq in Hq'.
    injection Hq' as <-. exact Hdep.
  - destruct (ad _) as [e|dv]; [rewrite Hq in H; discriminate|].
    destruct H as (q' & Hq' & Hdep & _). rewrite Hq in Hq'.
    injection Hq' as <-. eauto.
Qed.

Lemma deposit_address_follows_origin_witness :
  let request := Scenario.request0 "ethereum:usdc.eth" "near:usdc.near" "1000" in
  let resp := Scenario.response_of (Scenario.quoted Scenario.succeeding request) in
  exists o, originAsset request = Some o /\
    if bool_decide (asset_chain o = Some "near")
    then depositAddress (quote resp) = refundTo request
    else exists derived,
           Scenario.succeeding (DeriveAddress (refundTo request) (asset_chain o))
             = inr derived /\
           depositAddress (quote resp) = Some (address derived).
Proof.
  exact (deposit_address_follows_origin Scenario.succeeding
           (Scenario.request0 "ethereum:usdc.eth" "near:usdc.near" "1000")
           (Scenario.sys0 true) _ _ eq_refl).
Defined.

(** X4. A valid request whose origin chain is [near] is answered without
    consulting an adapter: the response and the state do not depend on
    them.  For any other origin chain the first thing [requestQuote]
    awaits is [deriveAddress(refundTo, chain)], with the simulator as it
    was. *)
Theorem only_foreign_origins_await request s o :
  validateQuoteRequest request = Ret tt ->
  originAsset request = Some o ->
  if bool_decide (asset_chain o = Some "near")
  then exists resp s', run (requestQuote request) s = (Done resp, s') /\
         forall ad, exec ad (requestQuote request) s = (inr resp, s')
  else exists k,
         run (requestQuote request) s
           = (Blocked (DeriveAddress (refundTo request) (asset_chain o)) k, s).
Proof.
  intros Hv Ho.
  destruct (validateQuoteRequest_passed _ Hv) as (_ & Hd & _).
  apply truthy_str_Some in Hd as [d Hd].
  case_bool_decide as Hc.
  - assert (Hrun : exists resp s', run (requestQuote request) s = (Done resp, s')).
    { unfold requestQuote, calculateQuote, split_asset. rewrite Hv, Ho, Hd. cbn.
      unfold asset_chain in Hc. rewrite bool_decide_eq_true_2 by exact Hc. cbn.
      destruct (negb (JS.truthy_bool (dry request))); cbn; eauto. }
    destruct Hrun as (resp & s' & Hrun). exists resp, s'.
    split; [exact Hrun|]. intros ad. rewrite exec_run, Hrun. reflexivity.
  - unfold requestQuote, calculateQuote, split_asset. rewrite Hv, Ho, Hd. cbn.
    unfold asset_chain in Hc. rewrite bool_decide_eq_false_2 by exact Hc. cbn.
    eauto.
Qed.

Lemma only_foreign_origins_await_witness :
  let request := Scenario.request0 "bitcoin:native" "near:native" "5" in
  if bool_decide (asset_chain "bitcoin:native" = Some "near")
  then exists resp s', run (requestQuote request) (Scenario.sys0 false) = (Done resp, s') /\
         forall ad, exec ad (requestQuote request) (Scenario.sys0 false) = (inr resp, s')
  else exists k,
         run (requestQuote request) (Scenario.sys0 false)
           = (Blocked (DeriveAddress (refundTo request) (asset_chain "bitcoin:native")) k,
              Scenario.sys0 false).
Proof.
  exact (only_foreign_origins_await
           (Scenario.request0 "bitcoin:native" "near:native" "5")
           (Scenario.sys0 false) "bitcoin:native" eq_refl eq_refl).
Defined.

(** X5. After [requestQuote] returned a response, [getSwapStatus] of its
    [quoteId] returns that very response, which holds the request as it
    was given and, as [amountIn], its amount string verbatim, with the
    status [PENDING_DEPOSIT], no details and no error, and changes
    nothing. *)
Theorem status_after_quote (ad ad' : Adapters) request s resp s' :
  exec ad (requestQuote request) s = (inr resp, s') ->
  exists st,
    exec ad' (getSwapStatus (quoteId resp)) s' = (inr st, s') /\
    responseQuote st = resp /\
    quoteRequest (responseQuote st) = request /\
    amountIn (quote (responseQuote st)) = amount request /\
    responseStatus st = PENDING_DEPOSIT /\
    responseSwapDetails st = None /\
    responseError st = None.
Proof.
  intros H. pose proof H as H'. apply requestQuote_ok in H' as (_ & q & Hq & Hr & _).
  apply calculateQuote_ok in Hq as (_ & _ & _ & _ & _ & Ha & _).
  apply requestQuote_stored in H as (swap & Hs & <- & Hreq & Hst & Hd & He & _).
  rewrite exec_run, getSwapStatus_run, Hs.
  eexists; split; [reflexivity|]. cbn.
  repeat split; try assumption. rewrite Hr. exact Ha.
Qed.

Lemma status_after_quote_witness :
  let request := Scenario.request0 "near:native" "near:wrap.near" "1000" in
  let outcome := Scenario.quoted Scenario.succeeding request in
  exists st,
    exec Scenario.failing (getSwapStatus (quoteId (Scenario.response_of outcome)))
      (snd outcome) = (inr st, snd outcome) /\
    responseQuote st = Scenario.response_of outcome /\
    quoteRequest (responseQuote st) = request /\
    amountIn (quote (responseQuote st)) = amount request /\
    responseStatus st = PENDING_DEPOSIT /\
    responseSwapDetails st = None /\
    responseError st = None.
Proof.
  exact (status_after_quote Scenario.succeeding Scenario.failing
           (Scenario.request0 "near:native" "near:wrap.near" "1000")
           (Scenario.sys0 true) _ _ eq_refl).
Defined.

(** X6. When the host's clock does not run backwards, the deadline of a
    quote is five minutes after the reading taken for it, which is not
    later than the [timestamp] of the response; and the record is stored
    with [timestamp <= createdAt <= updatedAt]. *)
Theorem quote_times_are_ordered (ad : Adapters) request s resp s' :
  (forall i j, (i <= j)%nat -> clock (host s) i <= clock (host s) j) ->
  exec ad (requestQuote request) s = (inr resp, s') ->
  deadline (quote resp) = clock (host s) (clock_ix (host s)) + 5 * 60 * 1000 /\
  deadline (quote resp) <= timestamp resp + 5 * 60 * 1000 /\
  exists swap,
    swaps s' !! quoteId resp = Some swap /\
    timestamp resp <= createdAt swap /\ createdAt swap <= updatedAt swap.
Proof.
  intros Hmono H. apply requestQuote_ok in H as (Hv & q & Hq & -> & ->).
  destruct (validateQuoteRequest_passed _ Hv) as (Ho & Hd & _).
  apply truthy_str_Some in Ho as [o Ho]. apply truthy_str_Some in Hd as [d Hd].
  assert (Hdl : deadline q = clock (host s) (clock_ix (host s)) + 300000).
  { pose proof (calculateQuote_exec ad request s o d Ho Hd) as H.
    case_bool_decide.
    - destruct H as (q' & Hq' & _ & Hdl). rewrite Hq in Hq'. injection Hq' as <-.
      exact Hdl.
    - destruct (ad _); [rewrite Hq in H; discriminate|].
      destruct H as (q' & Hq' & _ & Hdl). rewrite Hq in Hq'. injection Hq' as <-.
      exact Hdl. }
  unfold response_at, stored_at, record_at, tick, next_clock, next_uuid. cbn.
  rewrite Hdl.
  pose proof (Hmono (clock_ix (host s)) (S (clock_ix (host s))) ltac:(lia)).
  pose proof (Hmono (S (clock_ix (host s))) (S (S (clock_ix (host s)))) ltac:(lia)).
  pose proof (Hmono (S (S (clock_ix (host s)))) (S (S (S (clock_ix (host s))))) ltac:(lia)).
  split; [reflexivity|]. split; [lia|].
  eexists. split; [apply lookup_insert_eq|]. cbn. lia.
Qed.

Lemma quote_times_are_ordered_witness :
  let request := Scenario.request0 "near:native" "near:wrap.near" "1000" in
  let outcome := Scenario.quoted Scenario.succeeding request in
  let resp := Scenario.response_of outcome in
  deadline (quote resp) = 1700000000000 + 5 * 60 * 1000 /\
  deadline (quote resp) <= timestamp resp + 5 * 60 * 1000 /\
  exists swap,
    swaps (snd outcome) !! quoteId resp = Some swap /\
    timestamp resp <= createdAt swap /\ createdAt swap <= updatedAt swap.
Proof.
  refine (quote_times_are_ordered Scenario.succeeding
            (Scenario.request0 "near:native" "near:wrap.near" "1000")
            (Scenario.sys0 true) _ _ _ eq_refl).
  intros i j Hij. cbn. lia.
Defined.

(** X20. The steps of a quoted route link up: the route starts from the
    symbol of the origin asset, ends with the symbol of the destination
    asset, and each step starts from what the step before it leads to. *)
Theorem route_links_up (ad : Adapters) request s resp s' :
  exec ad (requestQuote request) s = (inr resp, s') ->
  exists o d,
    originAsset request = Some o /\ destinationAsset request = Some d /\
    from <$> head (steps (route (quote resp)))
      = Some (getSymbol (asset_chain o) (asset_token o)) /\
    to <$> last (steps (route (quote resp)))
      = Some (getSymbol (asset_chain d) (asset_token d)) /\
    forall i a b,
      steps (route (quote resp)) !! i = Some a ->
      steps (route (quote resp)) !! S i = Some b ->
      to a = from b.
Proof.
  intros H. apply requestQuote_ok in H as (_ & q & Hq & -> & _).
  apply calculateQuote_ok in Hq as (o & d & Ho & Hd & _ & _ & _ & _ & _ & Hsteps).
  exists o, d. split; [exact Ho|]. split; [exact Hd|].
  cbn [quote response_at]. rewrite Hsteps. cbn zeta.
  case_bool_decide; cbn; (split; [reflexivity|]); (split; [reflexivity|]);
    intros [|[|i]] a b; cbn; try discriminate.
  intros [= <-] [= <-]. reflexivity.
Qed.

Lemma route_links_up_witness :
  let request := Scenario.request0 "near:native" "ethereum:usdc.eth" "1000" in
  let resp := Scenario.response_of (Scenario.quoted Scenario.succeeding request) in
  exists o d,
    originAsset request = Some o /\ destinationAsset request = Some d /\
    from <$> head (steps (route (quote resp)))
      = Some (getSymbol (asset_chain o) (asset_token o)) /\
    to <$> last (steps (route (quote resp)))
      = Some (getSymbol (asset_chain d) (asset_token d)) /\
    forall i a b,
      steps (route (quote resp)) !! i = Some a ->
      steps (route (quote resp)) !! S i = Some b ->
      to a = from b.
Proof.
  exact (route_links_up Scenario.succeeding
           (Scenario.request0 "near:native" "ethereum:usdc.eth" "1000")
           (Scenario.sys0 true) _ _ eq_refl).
Defined.

(** X23. A [slippageTolerance] that is [NaN] is replaced by the default
    of 0.01, as a missing or zero one is: the quote is the one of the same
    request with [slippageTolerance] left out. *)
Theorem nan_slippage_is_default (ad : Adapters) request s resp s' x :
  slippageTolerance request = Some x ->
  PrimFloat.eqb x x = false ->
  exec ad (requestQuote request) s = (inr resp, s') ->
  exists d,
    destinationAsset request = Some d /\
    amountOut (quote resp) =
      JS.toFixed (amountInNum request * (1 - 0.003) * (1 - 0.01)) (asset_decimals d) /\
    exists resp0 s0,
      exec ad (requestQuote (without_slippage request)) s = (inr resp0, s0) /\
      quote resp0 = quote resp.
Proof.
  intros Hx Hnan H.
  assert (Hs : effective_slippage request = 0.01%float).
  { unfold effective_slippage, JS.truthy_num. rewrite Hx, Hnan, andb_false_r.
    reflexivity. }
  apply requestQuote_ok in H as (Hv & q & Hq & -> & _).
  pose proof Hq as Hq'.
  apply calculateQuote_ok in Hq' as (o & d & _ & Hd & _ & _ & _ & Ha & _).
  exists d. split; [exact Hd|]. split.
  - cbn. rewrite Ha. unfold amountOutWithSlippage, amountOutNum, feePercent.
    rewrite Hs. reflexivity.
  - rewrite requestQuote_exec, calculateQuote_without_slippage by exact Hs.
    change (validateQuoteRequest (without_slippage request))
      with (validateQuoteRequest request).
    rewrite Hv, Hq. eauto.
Qed.

Lemma nan_slippage_is_default_witness :
  let request := with_nan_slippage
                   (Scenario.request0 "near:native" "near:usdc.near" "1000") in
  let resp := Scenario.response_of (Scenario.quoted Scenario.succeeding request) in
  amountOut (quote resp) = "987.030000" /\
  exists d,
    destinationAsset request = Some d /\
    amountOut (quote resp) =
      JS.toFixed (amountInNum request * (1 - 0.003) * (1 - 0.01)) (asset_decimals d) /\
    exists resp0 s0,
      exec Scenario.succeeding (requestQuote (without_slippage request)) (Scenario.sys0 true)
        = (inr resp0, s0) /\
      quote resp0 = quote resp.
Proof.
  split; [vm_compute; reflexivity|].
  exact (nan_slippage_is_default Scenario.succeeding
           (with_nan_slippage (Scenario.request0 "near:native" "near:usdc.near" "1000"))
           (Scenario.sys0 true) _ _ JS.nan eq_refl eq_refl eq_refl).
Defined.

(** *** Bounds on the fee and on the amount *)

Lemma nonneg_leb_0 (x : float) :
  nonneg_finite (Prim2SF x) -> PrimFloat.leb 0 x = true.
Proof.
  rewrite leb_spec. change (Prim2SF 0) with (S754_zero false).
  destruct (Prim2SF x) as [s|s| |[] m e]; cbn; try contradiction; reflexivity.
Qed.

(** The product of a number that is not negative by one of the unit
    interval lies between zero and that number. *)
Lemma mul_unit_bounds (x y : float) :
  nonneg_finite (Prim2SF x) -> in_unit (Prim2SF y) ->
  PrimFloat.leb 0 (x * y) = true /\ PrimFloat.leb (x * y) x = true /\
  nonneg_finite (Prim2SF (x * y)).
Proof.
  intros Nx Uy.
  destruct (SFmul_unit_le (Prim2SF x) (Prim2SF y)
              (Prim2SF_valid x) (Prim2SF_valid y) Nx Uy) as [Hle Nxy].
  change (SFmul 53 1024 (Prim2SF x) (Prim2SF y))
    with (SF64mul (Prim2SF x) (Prim2SF y)) in Hle, Nxy.
  rewrite <- mul_spec in Hle, Nxy.
  split; [apply nonneg_leb_0; exact Nxy|]. split; [|exact Nxy].
  rewrite leb_spec. exact Hle.
Qed.

(** X24. For a quoted request whose amount is finite and whose slippage
    is between 0 and 1, the Numbers that [calculateQuote] computes, before
    it renders them, are ordered: the fee lies between zero and the
    amount, and the amount after the fee and the slippage lies between
    zero and the amount after the fee, which is at most the amount.  (The
    strings of the quote are these Numbers rounded by [toFixed], and can
    lie above them.) *)
Theorem fee_and_amount_out_are_bounded (ad : Adapters) request s resp s' :
  exec ad (requestQuote request) s = (inr resp, s') ->
  is_finite (amountInNum request) = true ->
  PrimFloat.leb 0 (effective_slippage request) = true ->
  PrimFloat.leb (effective_slippage request) 1 = true ->
  PrimFloat.leb 0 (amountInNum request * 0.003) = true /\
  PrimFloat.leb (amountInNum request * 0.003) (amountInNum request) = true /\
  PrimFloat.leb 0 (amountInNum request * (1 - 0.003)
                   * (1 - effective_slippage request)) = true /\
  PrimFloat.leb (amountInNum request * (1 - 0.003) * (1 - effective_slippage request))
                (amountInNum request * (1 - 0.003)) = true /\
  PrimFloat.leb (amountInNum request * (1 - 0.003)) (amountInNum request) = true.
Proof.
  intros H Hfin H0 H1. apply requestQuote_ok in H as (Hv & _).
  destruct (validateQuoteRequest_passed _ Hv) as (_ & _ & _ & Hpos & _).
  pose proof (finite_positive _ Hfin Hpos) as Na.
  change (1 - 0.003)%float with 0.997%float.
  assert (U003 : in_unit (Prim2SF 0.003)) by (left; vm_compute; reflexivity).
  assert (U997 : in_unit (Prim2SF 0.997)) by (left; vm_compute; reflexivity).
  destruct (mul_unit_bounds _ _ Na U003) as (F0 & F1 & _).
  destruct (mul_unit_bounds _ _ Na U997) as (_ & A1 & Nx).
  pose proof (SFsub_one_unit (Prim2SF (effective_slippage request))
                (Prim2SF_valid _) (between_0_1_in_unit _ H0 H1)) as Uy.
  change (SFsub 53 1024 SFone (Prim2SF (effective_slippage request)))
    with (SF64sub (Prim2SF 1) (Prim2SF (effective_slippage request))) in Uy.
  rewrite <- sub_spec in Uy.
  destruct (mul_unit_bounds _ _ Nx Uy) as (O0 & O1 & _).
  auto.
Qed.

Lemma fee_and_amount_out_are_bounded_witness :
  let request := Scenario.with_slippage 0.02
                   (Scenario.request0 "ethereum:usdc.eth" "near:usdc.near" "1000000") in
  PrimFloat.leb 0 (amountInNum request * 0.003) = true /\
  PrimFloat.leb (amountInNum request * 0.003) (amountInNum request) = true /\
  PrimFloat.leb 0 (amountInNum request * (1 - 0.003)
                   * (1 - effective_slippage request)) = true /\
  PrimFloat.leb (amountInNum request * (1 - 0.003) * (1 - effective_slippage request))
                (amountInNum request * (1 - 0.003)) = true /\
  PrimFloat.leb (amountInNum request * (1 - 0.003)) (amountInNum request) = true.
Proof.
  exact (fee_and_amount_out_are_bounded Scenario.succeeding
           (Scenario.with_slippage 0.02
              (Scenario.request0 "ethereum:usdc.eth" "near:usdc.near" "1000000"))
           (Scenario.sys0 true) _ _ eq_refl eq_refl eq_refl eq_refl).
Defined.

(* ===================================================================== *)
(** ** More on executions *)
(* ===================================================================== *)

Lemma alter_is_insert (f : StoredSwap -> StoredSwap) q (m : gmap string StoredSwap) x :
  m !! q = Some x -> alter f q m = <[q := f x]> m.
Proof.
  intros H. apply map_eq. intros q'. destruct (decide (q = q')) as [<-|Hne].
  - rewrite lookup_alter_eq, lookup_insert_eq, H. reflexivity.
  - rewrite lookup_alter_ne, lookup_insert_ne by exact Hne. reflexivity.
Qed.

(** Closes a goal on the state an execution ends in. *)
Ltac settled Hs :=
  eexists _, _, _; split; [reflexivity|];
  unfold with_swaps, with_host; cbn [swaps timers nearExec host];
  rewrite ?alter_alter_eq;
  split; [apply alter_is_insert; exact Hs|];
  cbn; do 4 (split; [reflexivity|]);
  first [ left; repeat split; eauto; done
        | right; left; repeat split; eauto; done
        | right; right; repeat split; eauto; done ].

(** X7. The three ways in which [simulateExecution] ends, whatever the
    adapters do.  For an unknown identifier it resolves and changes
    nothing.  Otherwise it replaces the record of the quote, and nothing
    else, by one with the same [quoteResponse] and [createdAt]: it
    resolves with the record [SUCCESS], with [swapDetails] and the error
    it had; or it resolves with the record [FAILED] and the [swapDetails]
    it had; or it is rejected with the [TypeError] of reading the
    [message] of [undefined] or [null], with the record [PROCESSING] and
    the [swapDetails] and error it had. *)
Theorem execution_outcomes (ad : Adapters) s q :
  exists r s',
    exec ad (simulateExecution q) s = (r, s') /\
    match swaps s !! q with
    | None => r = inr tt /\ s' = s
    | Some swap =>
        exists swap',
          swaps s' = <[q := swap']> (swaps s) /\
          timers s' = timers s /\ nearExec s' = nearExec s /\
          quoteResponse swap' = quoteResponse swap /\
          createdAt swap' = createdAt swap /\
          (r = inr tt /\ status swap' = SUCCESS /\
             is_Some (swapDetails swap') /\ error swap' = error swap \/
           r = inr tt /\ status swap' = FAILED /\
             swapDetails swap' = swapDetails swap \/
           (r = inl (of_Error (TypeError "message")) \/
            r = inl (of_Error (TypeError_null "message"))) /\
             status swap' = PROCESSING /\
             swapDetails swap' = swapDetails swap /\ error swap' = error swap)
    end.
Proof.
  destruct (swaps s !! q) as [swap|] eqn:Hs;
    [|exists (inr tt), s; split; [|split; reflexivity];
      unfold simulateExecution; cbn; rewrite Hs; reflexivity].
  cut (exists r s' swap',
         exec ad (simulateExecution q) s = (r, s') /\
         swaps s' = <[q := swap']> (swaps s) /\
         timers s' = timers s /\ nearExec s' = nearExec s /\
         quoteResponse swap' = quoteResponse swap /\
         createdAt swap' = createdAt swap /\
         (r = inr tt /\ status swap' = SUCCESS /\
            is_Some (swapDetails swap') /\ error swap' = error swap \/
          r = inr tt /\ status swap' = FAILED /\
            swapDetails swap' = swapDetails swap \/
          (r = inl (of_Error (TypeError "message")) \/
           r = inl (of_Error (TypeError_null "message"))) /\
            status swap' = PROCESSING /\
            swapDetails swap' = swapDetails swap /\ error swap' = error swap)).
  { intros (r & s' & swap' & H & H'). exists r, s'. split; [exact H|].
    exists swap'. exact H'. }
  unfold simulateExecution. cbn. rewrite Hs. cbn.
  destruct (destinationAsset (quoteRequest (quoteResponse swap))) as [dest|] eqn:Hd; cbn;
    [|settled Hs].
  rewrite exec_try_catch, exec_bind.
  destruct (nearExec s && JS.truthy_str _); cbn;
    [destruct (ad (SendNearTransfer _ _ _ _)) as [[| |m]|res]; cbn|];
    rewrite ?exec_generateMockTxHash; cbn;
    try (destruct (negb (bool_decide _)); cbn;
         [destruct (ad (SimulateDestinationTx _ _)) as [[| |m']|tx]; cbn|]);
    settled Hs.
Qed.

(** *** The calls an execution awaits *)

Section Awaited.
Context {A B : Type}.

Lemma awaited_bind ad (p : Prog A) (g : A -> Prog B) s :
  awaited ad (bind p g) s =
  (awaited ad p s ++
   match exec ad p s with
   | (inr a, s') => awaited ad (g a) s'
   | (inl _, _) => []
   end)%list.
Proof.
  revert s. induction p as [a|e|X f k IH|c k IH]; intros s; cbn.
  - reflexivity.
  - reflexivity.
  - destruct (f s) as [x s']. apply IH.
  - rewrite IH. reflexivity.
Qed.

Lemma awaited_try_catch ad (p : Prog A) (h : Thrown -> Prog A) s :
  awaited ad (try_catch p h) s =
  (awaited ad p s ++
   match exec ad p s with
   | (inl e, s') => awaited ad (h e) s'
   | (inr _, _) => []
   end)%list.
Proof.
  revert s. induction p as [a|e|X f k IH|c k IH]; intros s; cbn.
  - reflexivity.
  - reflexivity.
  - destruct (f s) as [x s']. apply IH.
  - rewrite IH. reflexivity.
Qed.

End Awaited.

Lemma awaited_random_hex ad n s : awaited ad (random_hex n) s = [].
Proof.
  revert s. induction n as [|n IH]; intros s; [reflexivity|].
  cbn. rewrite awaited_bind, IH. cbn.
  destruct (exec ad (random_hex n) _) as [[e|a] s']; reflexivity.
Qed.

Lemma awaited_generateMockTxHash ad chain s :
  awaited ad (generateMockTxHash chain) s = [].
Proof.
  unfold generateMockTxHash. rewrite awaited_bind, awaited_random_hex.
  destruct (exec ad (random_hex 64) s) as [[e|a] s']; reflexivity.
Qed.

Lemma not_near_not_prefixed dest :
  asset_chain dest <> Some "near" -> JS.startsWith "near:" dest = false.
Proof.
  intros Hc. destruct (JS.startsWith "near:" dest) eqn:H; [|reflexivity].
  apply startsWith_near_chain in H. contradiction.
Qed.

(** X8. The calls an execution awaits.  It first pauses for
    [timeEstimate * 100] milliseconds.  Then, when the destination chain
    is [near], it awaits [sendNearTransfer] (with [refundTo], the key or
    the empty string, the recipient and the amount in NEAR) if the
    simulator was given a [NearExecutionAdapter], the destination asset
    starts with "near:" and the recipient is not empty, and nothing
    otherwise; when the destination chain is not [near], it awaits
    [simulateDestinationTx] for that chain, correlated to a mock hash, and
    never [sendNearTransfer]. *)
Theorem execution_awaits (ad : Adapters) s q swap dest :
  swaps s !! q = Some swap ->
  destinationAsset (quoteRequest (quoteResponse swap)) = Some dest ->
  awaited ad (simulateExecution q) s =
  Sleep (timeEstimate (quote (quoteResponse swap)) * 100) ::
  (if bool_decide (asset_chain dest = Some "near")
   then if nearExec s && JS.startsWith "near:" dest
           && JS.truthy_str (recipient (quoteRequest (quoteResponse swap)))
        then [transfer_call swap]
        else []
   else [SimulateDestinationTx (asset_chain dest) (mock_hash (next_clock (host s)))]).
Proof.
  intros Hs Hd. unfold simulateExecution. cbn. rewrite Hs. cbn. rewrite Hd. cbn.
  f_equal. rewrite awaited_try_catch, awaited_bind, exec_bind.
  unfold transfer_call, asset_chain. case_bool_decide as Hc.
  - destruct (JS.startsWith "near:" dest), (nearExec s),
      (JS.truthy_str (recipient (quoteRequest (quoteResponse swap)))); cbn;
      try (destruct (ad (SendNearTransfer _ _ _ _)) as [[| |m]|res]; cbn);
      rewrite ?awaited_generateMockTxHash, ?exec_generateMockTxHash; cbn;
      reflexivity.
  - rewrite (not_near_not_prefixed dest Hc). cbn. rewrite andb_false_r.
    rewrite awaited_generateMockTxHash, exec_generateMockTxHash. cbn.
    destruct (ad (SimulateDestinationTx _ _)) as [[| |m]|tx]; reflexivity.
Qed.

Lemma execution_awaits_witness :
  let s1 := snd (Scenario.quoted Scenario.succeeding
                   (Scenario.request0 "near:native" "near:wrap.near" "1000")) in
  awaited Scenario.failing (simulateExecution "quote-0") s1
  = [Sleep 700;
     SendNearTransfer (Some "alice.near") "" "bob.near" "1.0000000000000001e-21"].
Proof.
  intros s1.
  let x := eval vm_compute in (swaps s1 !! "quote-0") in
  match x with Some ?w => pose (swap := w) end.
  assert (Hs : swaps s1 !! "quote-0" = Some swap) by (vm_compute; reflexivity).
  pose proof (execution_awaits Scenario.failing s1 "quote-0" swap "near:wrap.near"
                Hs eq_refl) as H.
  vm_compute in H. vm_compute. exact H.
Defined.

(** *** Executions that succeed *)

(** X9. With a [NearExecutionAdapter], a destination asset that starts
    with "near:" and a recipient, when the adapter resolves the transfer
    the swap ends [SUCCESS] and its details hold the adapter's [txHash] as
    the only NEAR transaction, no destination transaction, the amounts of
    the quote, and the whole seconds from [createdAt] to the end; no mock
    hash is drawn. *)
Theorem real_transfer_hash_is_recorded (ad : Adapters) s q swap dest result :
  swaps s !! q = Some swap ->
  nearExec s = true ->
  destinationAsset (quoteRequest (quoteResponse swap)) = Some dest ->
  JS.startsWith "near:" dest = true ->
  JS.truthy_str (recipient (quoteRequest (quoteResponse swap))) = true ->
  ad (transfer_call swap) = inr result ->
  exists s',
    exec ad (simulateExecution q) s = (inr tt, s') /\
    swaps s' !! q =
      Some (completed swap (clock (host s) (S (clock_ix (host s))))
              (txHash result) None) /\
    hex_ix (host s') = hex_ix (host s).
Proof.
  intros Hs Hn Hd Hp Hr Had.
  pose proof (startsWith_near_chain dest Hp) as Hc.
  unfold simulateExecution. cbn. rewrite Hs. cbn. rewrite Hd. cbn.
  rewrite Hp, Hn, Hr. cbn. unfold transfer_call in Had. rewrite Had. cbn.
  unfold asset_chain in Hc. rewrite Hc. cbn.
  eexists; split; [reflexivity|]. cbn.
  rewrite !lookup_alter_eq, Hs. cbn. split; reflexivity.
Qed.

(** X10. When the destination chain is not [near], no transfer is tried
    even with a [NearExecutionAdapter]: the NEAR transaction is a mock
    hash, and when the adapter resolves [simulateDestinationTx] for the
    destination chain and that hash, the swap ends [SUCCESS] with the
    mock hash and the adapter's destination transaction in its details. *)
Theorem cross_chain_success_is_recorded (ad : Adapters) s q swap dest tx :
  swaps s !! q = Some swap ->
  destinationAsset (quoteRequest (quoteResponse swap)) = Some dest ->
  asset_chain dest <> Some "near" ->
  ad (SimulateDestinationTx (asset_chain dest) (mock_hash (next_clock (host s))))
    = inr tx ->
  is_mock_hash (mock_hash (next_clock (host s))) /\
  exists s',
    exec ad (simulateExecution q) s = (inr tt, s') /\
    swaps s' !! q =
      Some (completed swap (clock (host s) (S (clock_ix (host s))))
              (mock_hash (next_clock (host s))) (Some tx)).
Proof.
  intros Hs Hd Hc Had. split; [apply mock_hash_is_mock|].
  unfold simulateExecution. cbn. rewrite Hs. cbn. rewrite Hd. cbn.
  rewrite (not_near_not_prefixed dest Hc). cbn. rewrite andb_false_r.
  rewrite exec_try_catch, exec_bind, exec_generateMockTxHash.
  cbn. fold (asset_chain dest). rewrite bool_decide_eq_false_2 by exact Hc.
  cbn. rewrite Had. cbn.
  eexists; split; [reflexivity|]. cbn.
  rewrite !lookup_alter_eq, Hs. cbn.
  destruct (skip_hex_frame 64 (next_clock (host s))) as (-> & -> & _).
  reflexivity.
Qed.

Lemma real_transfer_hash_is_recorded_witness :
  let s1 := snd (Scenario.quoted Scenario.succeeding
                   (Scenario.request0 "near:native" "near:wrap.near" "1000")) in
  exists swap,
    swaps s1 !! "quote-0" = Some swap /\
    exists s',
      exec Scenario.succeeding (simulateExecution "quote-0") s1 = (inr tt, s') /\
      swaps s' !! "quote-0" =
        Some (completed swap (clock (host s1) (S (clock_ix (host s1))))
                "RealTxHash" None) /\
      hex_ix (host s') = hex_ix (host s1).
Proof.
  intros s1.
  let x := eval vm_compute in (swaps s1 !! "quote-0") in
  match x with Some ?w => pose (swap := w) end.
  assert (Hs : swaps s1 !! "quote-0" = Some swap) by (vm_compute; reflexivity).
  exists swap. split; [exact Hs|].
  exact (real_transfer_hash_is_recorded Scenario.succeeding s1 "quote-0" swap
           "near:wrap.near" {| txHash := "RealTxHash"; blockHeight := 42 |}
           Hs eq_refl eq_refl eq_refl eq_refl eq_refl).
Defined.

Lemma cross_chain_success_is_recorded_witness :
  let s1 := snd (Scenario.quoted Scenario.succeeding
                   (Scenario.request0 "near:native" "ethereum:usdc.eth" "1000")) in
  exists swap,
    swaps s1 !! "quote-0" = Some swap /\
    is_mock_hash (mock_hash (next_clock (host s1))) /\
    exists s',
      exec Scenario.succeeding (simulateExecution "quote-0") s1 = (inr tt, s') /\
      swaps s' !! "quote-0" =
        Some (completed swap (clock (host s1) (S (clock_ix (host s1))))
                (mock_hash (next_clock (host s1))) (Some "0xdestination")).
Proof.
  intros s1.
  let x := eval vm_compute in (swaps s1 !! "quote-0") in
  match x with Some ?w => pose (swap := w) end.
  assert (Hs : swaps s1 !! "quote-0" = Some swap) by (vm_compute; reflexivity).
  exists swap. split; [exact Hs|].
  refine (cross_chain_success_is_recorded Scenario.succeeding s1 "quote-0" swap
            "ethereum:usdc.eth" "0xdestination" Hs eq_refl _ eq_refl).
  vm_compute. discriminate.
Defined.

(** *** The start of an execution *)

(** X11. The execution of a known quote sets its record to [PROCESSING],
    with a new [updatedAt], and pauses for [timeEstimate * 100]
    milliseconds; [getSwapStatus] during that pause reports [PROCESSING]
    for the same quote. *)
Theorem execution_starts_processing (ad : Adapters) s q swap :
  swaps s !! q = Some swap ->
  exists k s' st,
    run (simulateExecution q) s
      = (Blocked (Sleep (timeEstimate (quote (quoteResponse swap)) * 100)) k, s') /\
    swaps s' = <[q := set_updatedAt (clock (host s) (clock_ix (host s)))
                         (set_status PROCESSING swap)]> (swaps s) /\
    timers s' = timers s /\
    exec ad (getSwapStatus q) s' = (inr st, s') /\
    responseStatus st = PROCESSING /\
    responseQuote st = quoteResponse swap /\
    responseUpdatedAt st = clock (host s) (clock_ix (host s)) /\
    responseSwapDetails st = swapDetails swap /\
    responseError st = error swap.
Proof.
  intros Hs. unfold simulateExecution. cbn -[getSwapStatus]. rewrite Hs.
  cbn -[getSwapStatus].
  eexists _, _, _. split; [reflexivity|].
  unfold with_swaps, with_host; cbn [swaps timers nearExec host].
  rewrite alter_alter_eq.
  split; [exact (alter_is_insert _ _ _ _ Hs)|]. split; [reflexivity|].
  rewrite exec_run, getSwapStatus_run. cbn [swaps].
  rewrite lookup_alter_eq, Hs. cbn. repeat split.
Qed.

Lemma execution_starts_processing_witness :
  let s1 := snd (Scenario.quoted Scenario.succeeding
                   (Scenario.request0 "near:native" "ethereum:usdc.eth" "1000")) in
  exists swap,
    swaps s1 !! "quote-0" = Some swap /\
    timeEstimate (quote (quoteResponse swap)) * 100 = 4500 /\
    exists k s' st,
      run (simulateExecution "quote-0") s1
        = (Blocked (Sleep (timeEstimate (quote (quoteResponse swap)) * 100)) k, s') /\
      swaps s' = <["quote-0" := set_updatedAt (clock (host s1) (clock_ix (host s1)))
                                  (set_status PROCESSING swap)]> (swaps s1) /\
      timers s' = timers s1 /\
      exec Scenario.failing (getSwapStatus "quote-0") s' = (inr st, s') /\
      responseStatus st = PROCESSING /\
      responseQuote st = quoteResponse swap /\
      responseUpdatedAt st = clock (host s1) (clock_ix (host s1)) /\
      responseSwapDetails st = swapDetails swap /\
      responseError st = error swap.
Proof.
  intros s1.
  let x := eval vm_compute in (swaps s1 !! "quote-0") in
  match x with Some ?w => pose (swap := w) end.
  assert (Hs : swaps s1 !! "quote-0" = Some swap) by (vm_compute; reflexivity).
  exists swap. split; [exact Hs|]. split; [reflexivity|].
  exact (execution_starts_processing Scenario.failing s1 "quote-0" swap Hs).
Defined.

(** *** Mock hashes *)

Lemma skip_hex_ix n h : hex_ix (skip_hex n h) = (n + hex_ix h)%nat.
Proof.
  revert h. induction n as [|n IH]; intros h; [reflexivity|].
  change (skip_hex (S n) h) with (skip_hex n (next_hex h)).
  rewrite IH. cbn. lia.
Qed.

(** X12. For each of the chains it knows ("NEAR", "ETHEREUM", "BITCOIN"),
    [generateMockTxHash] returns 64 lowercase hexadecimal digits, after
    "0x" for "ETHEREUM" and bare otherwise.  It awaits nothing and reads
    exactly 64 random numbers; the records, the timers and the clock are
    left as they were. *)
Theorem mock_hash_shape (ad : Adapters) chain s :
  chain ∈ ["NEAR"; "ETHEREUM"; "BITCOIN"] ->
  exists digits s',
    exec ad (generateMockTxHash chain) s
      = (inr (if bool_decide (chain = "ETHEREUM") then "0x" ++ digits else digits), s') /\
    is_mock_hash digits /\
    awaited ad (generateMockTxHash chain) s = [] /\
    swaps s' = swaps s /\ timers s' = timers s /\
    clock_ix (host s') = clock_ix (host s) /\
    hex_ix (host s') = (64 + hex_ix (host s))%nat.
Proof.
  intros Hin. exists (hex_from 64 (host s)), (with_host (skip_hex 64 (host s)) s).
  split.
  - unfold generateMockTxHash. rewrite exec_bind, exec_run, run_random_hex.
    repeat (apply elem_of_cons in Hin as [->|Hin]); [reflexivity..|].
    apply elem_of_nil in Hin. destruct Hin.
  - split; [apply (mock_hash_is_mock (host s))|].
    split; [apply awaited_generateMockTxHash|].
    destruct (skip_hex_frame 64 (host s)) as (_ & Hc & _).
    cbn. rewrite Hc, skip_hex_ix. repeat split.
Qed.

Lemma mock_hash_shape_witness :
  exists digits s',
    exec Scenario.failing (generateMockTxHash "ETHEREUM") (Scenario.sys0 false)
      = (inr (if bool_decide ("ETHEREUM" = "ETHEREUM") then "0x" ++ digits else digits), s') /\
    is_mock_hash digits /\
    awaited Scenario.failing (generateMockTxHash "ETHEREUM") (Scenario.sys0 false) = [] /\
    swaps s' = swaps (Scenario.sys0 false) /\ timers s' = timers (Scenario.sys0 false) /\
    clock_ix (host s') = clock_ix (host (Scenario.sys0 false)) /\
    hex_ix (host s') = (64 + hex_ix (host (Scenario.sys0 false)))%nat.
Proof.
  refine (mock_hash_shape Scenario.failing "ETHEREUM" (Scenario.sys0 false) _).
  apply elem_of_cons. right. apply elem_of_cons. left. reflexivity.
Defined.

(** *** Why a swap fails *)

(** X21. How the swap of a record whose request names a destination asset
    ends.  When the destination chain is [near], the execution resolves,
    and the swap is [SUCCESS] (whether a transfer was not tried, worked,
    or was rejected with a reason) unless a transfer was tried and
    rejected with [undefined] or [null]: then it is [FAILED], with the
    message of the [TypeError] of reading the [message] of that reason.
    When the destination chain is not [near], all depends on
    [simulateDestinationTx]: resolved, the swap is [SUCCESS]; rejected
    with a reason other than [undefined] and [null], the swap is
    [FAILED] and its error is what the [message] of the reason holds;
    rejected with [undefined] or [null], the execution itself is rejected
    with a [TypeError] and the swap stays [PROCESSING]. *)
Theorem swaps_fail_on_rejections (ad : Adapters) s q swap dest :
  swaps s !! q = Some swap ->
  destinationAsset (quoteRequest (quoteResponse swap)) = Some dest ->
  exists r s' swap',
    exec ad (simulateExecution q) s = (r, s') /\
    swaps s' !! q = Some swap' /\
    if bool_decide (asset_chain dest = Some "near")
    then r = inr tt /\
         match transfer_failure ad s swap dest with
         | Some e => status swap' = FAILED /\ error swap' = Some (Str (message e))
         | None => status swap' = SUCCESS /\ error swap' = error swap
         end
    else match ad (SimulateDestinationTx (asset_chain dest)
                     (mock_hash (next_clock (host s)))) with
         | inl reason =>
             match reason, read_failure reason with
             | IsValue m, _ =>
                 r = inr tt /\ status swap' = FAILED /\ error swap' = m
             | _, Some e =>
                 r = inl (of_Error e) /\ status swap' = PROCESSING /\
                 error swap' = error swap
             | _, None => False
             end
         | inr tx => r = inr tt /\ status swap' = SUCCESS /\ error swap' = error swap
         end.
Proof.
  intros Hs Hd. unfold simulateExecution. cbn. rewrite Hs. cbn. rewrite Hd. cbn.
  rewrite exec_try_catch, exec_bind.
  unfold asset_chain, transfer_failure, tries_transfer, transfer_call.
  case_bool_decide as Hc.
  - destruct (JS.startsWith "near:" dest), (nearExec s),
      (JS.truthy_str (recipient (quoteRequest (quoteResponse swap)))); cbn;
      try (destruct (ad (SendNearTransfer _ _ _ _)) as [[| |m]|res]; cbn);
      rewrite ?exec_generateMockTxHash; cbn; rewrite ?Hc; cbn;
      (eexists _, _, _; split; [reflexivity|]; cbn;
       rewrite !lookup_alter_eq, Hs; cbn; split; [reflexivity|]; cbn; auto).
  - rewrite (not_near_not_prefixed dest Hc). cbn. rewrite andb_false_r.
    rewrite exec_generateMockTxHash. cbn.
    destruct (ad (SimulateDestinationTx _ _)) as [[| |m]|tx]; cbn;
      (eexists _, _, _; split; [reflexivity|]; cbn;
       rewrite ?lookup_alter_eq, Hs; cbn; split; [reflexivity|]; cbn; auto).
Qed.

Lemma swaps_fail_on_rejections_witness :
  let s1 := snd (Scenario.quoted Scenario.succeeding
                   (Scenario.request0 "near:native" "ethereum:usdc.eth" "1000")) in
  exists swap,
    swaps s1 !! "quote-0" = Some swap /\
    exists s' swap',
      exec (Scenario.rejecting IsNull) (simulateExecution "quote-0") s1
        = (inl (of_Error (TypeError_null "message")), s') /\
      swaps s' !! "quote-0" = Some swap' /\
      status swap' = PROCESSING /\ error swap' = error swap.
Proof.
  intros s1.
  let x := eval vm_compute in (swaps s1 !! "quote-0") in
  match x with Some ?w => pose (swap := w) end.
  assert (Hs : swaps s1 !! "quote-0" = Some swap) by (vm_compute; reflexivity).
  exists swap. split; [exact Hs|].
  destruct (swaps_fail_on_rejections (Scenario.rejecting IsNull) s1 "quote-0" swap
              "ethereum:usdc.eth" Hs eq_refl) as (r & s' & swap' & Hx & Hs' & H).
  rewrite bool_decide_eq_false_2 in H by (vm_compute; discriminate).
  cbn in H. destruct H as (-> & H1 & H2).
  exists s', swap'. auto.
Defined.

(* ===================================================================== *)
(** ** More on the event loop *)
(* ===================================================================== *)

(** What starting or resuming a call of [requestQuote] does. *)
Lemma launch_request_effect l s js p :
  swaps s = swaps (sys l) -> nearExec s = nearExec (sys l) ->
  uuid (host s) = uuid (host (sys l)) -> uuid_ix (host s) = uuid_ix (host (sys l)) ->
  request_job p ->
  nearExec (sys (launch ORequest p s js)) = nearExec (sys l) /\
  writes_one l (swaps (sys (launch ORequest p s js))).
Proof.
  intros Hs Hn Hu Hi Hp.
  pose proof (behaves_stretch _ _ _ _ _ Hp s Logic.I) as H.
  unfold launch, stretch_ok in *. destruct (run p s) as [[a|e|c k] s']; cbn [sys].
  - destruct H as (request & quote & ->). split; [exact Hn|].
    right. left. exists request, quote, (tick s).
    unfold stored_at, tick, next_clock. cbn. rewrite Hu, Hi, Hs. auto.
  - rewrite H. split; [exact Hn|]. left. exact Hs.
  - destruct H as [-> _]. split; [exact Hn|]. left. exact Hs.
Qed.

Lemma timer_count_pos q ts i ms :
  ts !! i = Some (q, ms) -> (0 < timer_count q ts)%nat.
Proof.
  intros H. rewrite (timer_count_delete q _ _ _ _ H), decide_True by reflexivity. lia.
Qed.

Lemma exec_count_pos q js i j :
  js !! i = Some j -> owner j = OExec q -> (0 < exec_count q js)%nat.
Proof.
  intros H Ho. rewrite (exec_count_delete q _ _ _ H), Ho, decide_True by reflexivity. lia.
Qed.

(** A timer or a suspended execution belongs to a quote that has a
    record. *)
Lemma counted_has_record s js q :
  invariant s js -> (0 < timer_count q (timers s) + exec_count q js)%nat ->
  has_record q s.
Proof.
  intros I H. pose proof (inv_phase _ _ I q) as Hq. unfold has_record.
  destruct (swaps s !! q); [eauto|]. lia.
Qed.

(** What one step of the loop does to the simulator. *)
Lemma step_effect l e l' :
  invariant (sys l) (jobs l) -> step l e = Some l' ->
  nearExec (sys l') = nearExec (sys l) /\ writes_one l (swaps (sys l')).
Proof.
  intros I. destruct e as [request|quoteId|i|i ad]; cbn [step].
  - intros Hstep; apply (inj Some) in Hstep; subst l'.
    apply launch_request_effect; auto. apply requestQuote_request_job.
  - intros Hstep; apply (inj Some) in Hstep; subst l'.
    rewrite launch_getSwapStatus. split; [reflexivity|]. left. reflexivity.
  - destruct (timers (sys l) !! i) as [[q ms]|] eqn:Ht; [|discriminate].
    intros Hstep; apply (inj Some) in Hstep; subst l'.
    pose proof (timer_count_pos _ _ _ _ Ht) as Hpos.
    destruct (counted_has_record _ _ q I ltac:(lia)) as [swap Hs].
    destruct (simulateExecution_run q (with_timers (delete i (timers (sys l))) (sys l))
                swap Hs) as (k & s' & Hrun & Hstart & _).
    unfold launch. rewrite Hrun. cbn [sys].
    destruct Hstart as ((swap0 & swap' & Hs0 & Hs' & Hr & _) & _ & Hn & _).
    cbn in Hs0, Hs', Hn. split; [exact Hn|].
    right. right. exists q, swap0, swap'. split; [lia|]. auto.
  - destruct (jobs l !! i) as [j|] eqn:Hj; [|discriminate].
    intros Hstep; apply (inj Some) in Hstep; subst l'.
    pose proof (inv_jobs _ _ I j (list_elem_of_lookup_2 _ _ _ Hj)) as Hjob.
    destruct (owner j) as [| |q] eqn:Ho.
    + apply launch_request_effect; auto.
    + destruct Hjob.
    + pose proof (exec_count_pos _ _ _ _ Hj Ho) as Hpos.
      pose proof (counted_has_record _ _ q I ltac:(lia)) as Hrec.
      pose proof (behaves_stretch _ _ _ _ _ (Hjob (ad (call j))) (sys l) Hrec) as H.
      unfold launch, stretch_ok in *.
      destruct (run (cont j (ad (call j))) (sys l)) as [[a|e|c k] s']; cbn [sys].
      * destruct H as ((swap0 & swap' & Hs0 & Hs' & Hr & _) & _ & Hn & _).
        split; [exact Hn|]. right. right. exists q, swap0, swap'.
        split; [lia|]. auto.
      * destruct H as (Hs' & _ & Hn & _). split; [exact Hn|]. left. exact Hs'.
      * destruct H as [(Hs' & _ & Hn & _) _]. split; [exact Hn|]. left. exact Hs'.
Qed.

Lemma reachable_play l es l' :
  reachable l -> play l es = Some l' -> reachable l'.
Proof.
  revert l. induction es as [|e es IH]; intros l Hl; cbn.
  - intros [= <-]. exact Hl.
  - destruct (step l e) as [l1|] eqn:Hstep; [|discriminate].
    apply IH. eapply reachable_step; eauto.
Qed.

(** A record without timer and without suspended execution is left as it
    is by every step. *)
Lemma untouched_record l q swap e l' :
  invariant (sys l) (jobs l) ->
  swaps (sys l) !! q = Some swap ->
  timer_count q (timers (sys l)) = 0%nat -> exec_count q (jobs l) = 0%nat ->
  step l e = Some l' ->
  swaps (sys l') !! q = Some swap.
Proof.
  intros I Hs Ht He Hstep.
  destruct (step_effect _ _ _ I Hstep) as [_ [-> | [H | H]]]; [exact Hs| |].
  - destruct H as (request & quote & s0 & _ & _ & ->).
    rewrite lookup_insert_ne; [exact Hs|].
    intros Heq. pose proof (next_uuid_fresh _ _ I) as Hf.
    rewrite Heq, Hs in Hf. discriminate.
  - destruct H as (q' & swap0 & swap' & Hpos & _ & -> & _).
    rewrite lookup_insert_ne; [exact Hs|]. intros ->. lia.
Qed.

(** X13. Once a swap is [SUCCESS] or [FAILED], nothing the simulator does
    later changes its record: whatever events follow (calls of the two
    methods, timers, settlements, in any order), the record stays exactly
    as it is. *)
Theorem settled_swaps_never_change l q swap es l' :
  reachable l ->
  swaps (sys l) !! q = Some swap ->
  status swap = SUCCESS \/ status swap = FAILED ->
  play l es = Some l' ->
  swaps (sys l') !! q = Some swap.
Proof.
  intros Hl Hs Hst. revert l Hl Hs. induction es as [|e es IH]; intros l Hl Hs; cbn.
  - intros [= <-]. exact Hs.
  - destruct (step l e) as [l1|] eqn:Hstep; [|discriminate].
    apply IH; [eapply reachable_step; eauto|].
    pose proof (reachable_invariant _ Hl) as I.
    pose proof (inv_phase _ _ I q) as Hq. rewrite Hs in Hq. unfold phase_ok in Hq.
    eapply untouched_record; eauto;
      destruct Hst as [Hst|Hst]; rewrite Hst in Hq; tauto.
Qed.

Lemma play_default l es :
  match play l es with Some _ => true | None => false end = true ->
  play l es = Some (default l (play l es)).
Proof. destruct (play l es); [reflexivity|discriminate]. Qed.

Lemma settled_reachable : reachable Played.settled.
Proof.
  apply (reachable_play (Scenario.loop0 false) Played.events).
  - apply reachable_initial, loop0_initial.
  - apply play_default. vm_compute. reflexivity.
Qed.

Lemma settled_swaps_never_change_witness :
  exists swap,
    swaps (sys Played.settled) !! "quote-0" = Some swap /\
    status swap = SUCCESS /\
    swaps (sys Played.later) !! "quote-0" = Some swap.
Proof.
  let x := eval vm_compute in (swaps (sys Played.settled) !! "quote-0") in
  match x with Some ?w => pose (swap := w) end.
  assert (Hs : swaps (sys Played.settled) !! "quote-0" = Some swap)
    by (vm_compute; reflexivity).
  exists swap. split; [exact Hs|]. split; [reflexivity|].
  refine (settled_swaps_never_change Played.settled "quote-0" swap
            Played.more_events Played.later
            settled_reachable Hs (or_introl eq_refl) _).
  apply play_default. vm_compute. reflexivity.
Defined.

(** Every record is stored under the identifier of its own response. *)
Lemma reachable_keyed l :
  reachable l ->
  forall q swap, swaps (sys l) !! q = Some swap -> quoteId (quoteResponse swap) = q.
Proof.
  induction 1 as [l (Hs & _)|l e l' Hl IH Hstep]; intros q swap.
  - rewrite Hs, lookup_empty. discriminate.
  - pose proof (reachable_invariant _ Hl) as I.
    destruct (step_effect _ _ _ I Hstep) as [_ [-> | [H | H]]]; [apply IH| |].
    + destruct H as (request & quote & s0 & Hu & Hi & ->).
      destruct (decide (uuid (host (sys l)) (uuid_ix (host (sys l))) = q)) as [<-|Hne].
      * rewrite lookup_insert_eq. intros [= <-]. cbn. rewrite Hu, Hi. reflexivity.
      * rewrite lookup_insert_ne by exact Hne. apply IH.
    + destruct H as (q' & swap0 & swap' & _ & Hs0 & -> & Hr).
      destruct (decide (q' = q)) as [<-|Hne].
      * rewrite lookup_insert_eq. intros [= <-]. rewrite Hr. eapply IH; eauto.
      * rewrite lookup_insert_ne by exact Hne. apply IH.
Qed.

(** X14. At every point a simulator can reach, a call of [getSwapStatus]
    that returns a status returns the one of the quote asked for (the
    [quoteId] of the response in it is the argument), awaits nothing and
    changes nothing. *)
Theorem status_is_of_the_quote_asked_for l (ad : Adapters) q st s' :
  reachable l ->
  exec ad (getSwapStatus q) (sys l) = (inr st, s') ->
  quoteId (responseQuote st) = q /\
  s' = sys l /\
  awaited ad (getSwapStatus q) (sys l) = [].
Proof.
  intros Hl. rewrite exec_run, getSwapStatus_run.
  destruct (swaps (sys l) !! q) as [swap|] eqn:Hs; [|discriminate].
  intros [= <- <-]. cbn. rewrite Hs. cbn.
  split; [|split; reflexivity]. eapply reachable_keyed; eauto.
Qed.

Lemma status_is_of_the_quote_asked_for_witness :
  exists st,
    exec Scenario.failing (getSwapStatus "quote-0") (sys Played.settled)
      = (inr st, sys Played.settled) /\
    responseStatus st = SUCCESS /\
    quoteId (responseQuote st) = "quote-0" /\
    sys Played.settled = sys Played.settled /\
    awaited Scenario.failing (getSwapStatus "quote-0") (sys Played.settled) = [].
Proof.
  let x := eval vm_compute in (swaps (sys Played.settled) !! "quote-0") in
  match x with Some ?w => pose (swap := w) end.
  assert (Hs : swaps (sys Played.settled) !! "quote-0" = Some swap)
    by (vm_compute; reflexivity).
  eassert (He : exec Scenario.failing (getSwapStatus "quote-0") (sys Played.settled)
                = (inr _, sys Played.settled)).
  { rewrite exec_run, getSwapStatus_run, Hs. reflexivity. }
  eexists. split; [exact He|]. split; [reflexivity|].
  exact (status_is_of_the_quote_asked_for Played.settled Scenario.failing "quote-0"
           _ _ settled_reachable He).
Defined.

(** X15. At every point a simulator can reach, each quote has at most one
    timer or suspended execution, never both: a suspended execution only
    while its record is [PROCESSING] (a record is [PROCESSING] without
    one once its execution was rejected), a timer exactly while it is
    [PENDING_DEPOSIT] and the request was not dry.  An identifier without
    a record has neither, so that [simulateExecution] always finds the
    record of its quote. *)
Theorem each_swap_executes_once l q :
  reachable l ->
  match swaps (sys l) !! q with
  | Some swap =>
      (timer_count q (timers (sys l)) + exec_count q (jobs l) <= 1)%nat /\
      (exec_count q (jobs l) = 1%nat -> status swap = PROCESSING) /\
      (timer_count q (timers (sys l)) = 1%nat <->
         status swap = PENDING_DEPOSIT /\
         JS.truthy_bool (dry (quoteRequest (quoteResponse swap))) = false)
  | None =>
      timer_count q (timers (sys l)) = 0%nat /\ exec_count q (jobs l) = 0%nat
  end.
Proof.
  intros Hl. pose proof (inv_phase _ _ (reachable_invariant _ Hl) q) as Hq.
  destruct (swaps (sys l) !! q) as [swap|]; [|exact Hq].
  unfold phase_ok in Hq.
  destruct (status swap); try contradiction;
    destruct (JS.truthy_bool (dry (quoteRequest (quoteResponse swap))));
    destruct Hq as (He & Hq); try destruct Hq as (Ht & Hq);
    repeat split; try lia; try congruence; try tauto;
    try (intros [? ?]; congruence); try discriminate.
Qed.

Lemma paused_reachable : reachable Played.paused.
Proof.
  apply (reachable_play (Scenario.loop0 false)
           [CallRequestQuote Played.request; TimerFires 0]).
  - apply reachable_initial, loop0_initial.
  - apply play_default. vm_compute. reflexivity.
Qed.

Lemma each_swap_executes_once_witness :
  (status <$> swaps (sys Played.paused) !! "quote-0" = Some PROCESSING /\
   exec_count "quote-0" (jobs Played.paused) = 1%nat) /\
  match swaps (sys Played.paused) !! "quote-0" with
  | Some swap =>
      (timer_count "quote-0" (timers (sys Played.paused))
       + exec_count "quote-0" (jobs Played.paused) <= 1)%nat /\
      (exec_count "quote-0" (jobs Played.paused) = 1%nat -> status swap = PROCESSING) /\
      (timer_count "quote-0" (timers (sys Played.paused)) = 1%nat <->
         status swap = PENDING_DEPOSIT /\
         JS.truthy_bool (dry (quoteRequest (quoteResponse swap))) = false)
  | None =>
      timer_count "quote-0" (timers (sys Played.paused)) = 0%nat /\
      exec_count "quote-0" (jobs Played.paused) = 0%nat
  end.
Proof.
  split; [split; vm_compute; reflexivity|].
  exact (each_swap_executes_once Played.paused "quote-0" paused_reachable).
Defined.

(** X16. At every point a simulator can reach, a call of [requestQuote]
    that returns a response stores it under an identifier that had no
    record, the next one of the host, and leaves every other record as it
    is: no quote is ever overwritten. *)
Theorem quote_ids_are_fresh l (ad : Adapters) request resp s' :
  reachable l ->
  exec ad (requestQuote request) (sys l) = (inr resp, s') ->
  quoteId resp = uuid (host (sys l)) (uuid_ix (host (sys l))) /\
  swaps (sys l) !! quoteId resp = None /\
  forall q swap, swaps (sys l) !! q = Some swap -> swaps s' !! q = Some swap.
Proof.
  intros Hl H. apply requestQuote_ok in H as (_ & quote & _ & -> & ->).
  pose proof (next_uuid_fresh _ _ (reachable_invariant _ Hl)) as Hf.
  unfold response_at, stored_at, tick, next_clock. cbn.
  split; [reflexivity|]. split; [exact Hf|].
  intros q swap Hs. rewrite lookup_insert_ne; [exact Hs|].
  intros Heq. rewrite Heq, Hs in Hf. discriminate.
Qed.

Lemma quote_ids_are_fresh_witness :
  let outcome := exec Scenario.succeeding (requestQuote Played.request)
                   (sys Played.settled) in
  let resp := Scenario.response_of outcome in
  quoteId resp = "quote-1" /\
  (quoteId resp = uuid (host (sys Played.settled)) (uuid_ix (host (sys Played.settled))) /\
   swaps (sys Played.settled) !! quoteId resp = None /\
   forall q swap, swaps (sys Played.settled) !! q = Some swap ->
                  swaps (snd outcome) !! q = Some swap).
Proof.
  split; [vm_compute; reflexivity|].
  exact (quote_ids_are_fresh Played.settled Scenario.succeeding Played.request
           _ _ settled_reachable eq_refl).
Defined.

(* ===================================================================== *)
(** ** Clients made by the factory *)
(* ===================================================================== *)

Section GuardedFacts.
Context {A : Type}.
Variable Pre : Sys -> Prop.
Variable ok : Call -> Prop.

Lemma guarded_stretch (p : Prog A) :
  guarded Pre ok p ->
  forall s, Pre s -> guard_ok Pre ok (guarded Pre ok) (run p s).
Proof.
  intros [p' Hp Hc Hk] s Hs. specialize (Hp s Hs). unfold guard_ok.
  destruct (run p' s) as [[a|e|c k] s'] eqn:Hr; cbn in Hp; eauto.
Qed.

Lemma stretch_guarded (p : Prog A) :
  (forall s, Pre s -> guard_ok Pre ok (guarded Pre ok) (run p s)) ->
  guarded Pre ok p.
Proof.
  intros H. constructor.
  - intros s Hs. specialize (H s Hs). unfold guard_ok in H.
    destruct (run p s) as [[a|e|c k] s']; cbn; tauto.
  - intros s c k s' Hs Hr. specialize (H s Hs). rewrite Hr in H. cbn in H. tauto.
  - intros s c k s' Hs Hr. specialize (H s Hs). rewrite Hr in H. cbn in H. tauto.
Qed.

Lemma guarded_induction (P : Prog A -> Prop) :
  (forall p,
     (forall s, Pre s ->
        guard_ok Pre ok (fun p' => guarded Pre ok p' /\ P p') (run p s)) ->
     P p) ->
  forall p, guarded Pre ok p -> P p.
Proof.
  intros Hstep p Hp. induction Hp as [p Hpre Hc Hk IH].
  apply Hstep. intros s Hs. specialize (Hpre s Hs). unfold guard_ok.
  destruct (run p s) as [[a|e|c k] s'] eqn:Hr; cbn in Hpre;
    [exact Hpre | exact Hpre |].
  split; [exact Hpre|]. split; [eauto|]. intros r. split; eauto.
Qed.

Lemma guarded_Ret (a : A) : guarded Pre ok (Ret a).
Proof. apply stretch_guarded. intros s Hs. exact Hs. Qed.

Lemma guarded_Throw e : guarded Pre ok (Throw e : Prog A).
Proof. apply stretch_guarded. intros s Hs. exact Hs. Qed.

Lemma guarded_Await c (k : Settled c -> Prog A) :
  ok c -> (forall r, guarded Pre ok (k r)) -> guarded Pre ok (Await c k).
Proof. intros Hc Hk. apply stretch_guarded. intros s Hs. cbn. auto. Qed.

Lemma guarded_Act {X : Type} (f : Sys -> X * Sys) (k : X -> Prog A) :
  (forall s, Pre s -> Pre (snd (f s)) /\ guarded Pre ok (k (fst (f s)))) ->
  guarded Pre ok (Act f k).
Proof.
  intros H. apply stretch_guarded. intros s Hs. cbn [run].
  specialize (H s Hs). destruct (f s) as [x s1]. cbn in H. destruct H as [H1 H2].
  apply guarded_stretch; assumption.
Qed.

Lemma guarded_try_catch (p : Prog A) (h : Thrown -> Prog A) :
  guarded Pre ok p -> (forall e, guarded Pre ok (h e)) ->
  guarded Pre ok (try_catch p h).
Proof.
  intros Hp Hh. revert p Hp. apply guarded_induction. intros p Hstep.
  apply stretch_guarded. intros s Hs. specialize (Hstep s Hs).
  rewrite run_try_catch. unfold guard_ok in Hstep.
  destruct (run p s) as [[x|e|c k] s1].
  - exact Hstep.
  - apply guarded_stretch; [apply Hh|exact Hstep].
  - destruct Hstep as (H1 & H2 & H3). cbn. split; [exact H1|]. split; [exact H2|].
    intros r. apply H3.
Qed.

End GuardedFacts.

Lemma guarded_bind {X A : Type} (Pre : Sys -> Prop) (ok : Call -> Prop)
    (p : Prog X) (g : X -> Prog A) :
  guarded Pre ok p -> (forall x, guarded Pre ok (g x)) ->
  guarded Pre ok (bind p g).
Proof.
  intros Hp Hg. revert p Hp. apply guarded_induction. intros p Hstep.
  apply stretch_guarded. intros s Hs. specialize (Hstep s Hs).
  rewrite run_bind. unfold guard_ok in Hstep.
  destruct (run p s) as [[x|e|c k] s1].
  - apply guarded_stretch; [apply Hg|exact Hstep].
  - exact Hstep.
  - destruct Hstep as (H1 & H2 & H3). cbn. split; [exact H1|]. split; [exact H2|].
    intros r. apply H3.
Qed.

(** *** The methods of a simulator without adapter for NEAR *)

Ltac mock_with known :=
  lazymatch goal with
  | |- mocking _ => unfold mocking; mock_with known
  | |- guarded _ _ (match ?x with _ => _ end) => destruct x; mock_with known
  | |- guarded _ _ (Ret _) => apply guarded_Ret
  | |- guarded _ _ (Throw _) => apply guarded_Throw
  | |- guarded _ _ (settle ?r) => destruct r; cbn; mock_with known
  | |- guarded _ _ (read_message ?e) => destruct e; cbn; mock_with known
  | |- guarded _ _ (swap_failed _ _) => unfold swap_failed; mock_with known
  | |- guarded _ _ (assign _ _) => unfold assign; mock_with known
  | |- guarded _ _ (Await _ _) =>
      apply guarded_Await; [reflexivity|intros ?; cbn; mock_with known]
  | |- guarded _ _ (Act _ _) =>
      let s := fresh "s" in
      let Hs := fresh "Hs" in
      apply guarded_Act; intros s Hs; cbn;
      split; [exact Hs|rewrite ?Hs; cbn; mock_with known]
  | |- guarded _ _ (try_catch _ _) =>
      apply guarded_try_catch; [|intros ?; cbn]; mock_with known
  | |- guarded _ _ (bind _ _) =>
      apply guarded_bind; [|intros ?; cbn]; mock_with known
  | |- _ => try known
  end.

Ltac mock := mock_with idtac.

Lemma mocking_random_hex n : mocking (random_hex n).
Proof.
  induction n as [|n IH]; cbn [random_hex]; [mock|].
  apply guarded_bind; [unfold random16; mock|]. intros d.
  apply guarded_bind; [exact IH|]. intros rest. mock.
Qed.

Lemma mocking_generateMockTxHash chain : mocking (generateMockTxHash chain).
Proof.
  unfold generateMockTxHash. apply guarded_bind; [apply mocking_random_hex|].
  intros h. mock.
Qed.

Lemma mocking_simulateExecution q : mocking (simulateExecution q).
Proof.
  unfold simulateExecution. cbn.
  mock_with ltac:(apply mocking_generateMockTxHash).
Qed.

Lemma mocking_requestQuote request : mocking (requestQuote request ;; Ret tt).
Proof.
  unfold requestQuote, validateQuoteRequest, calculateQuote, split_asset. cbn.
  mock_with ltac:(unfold setTimeout; mock).
Qed.

Lemma mocking_getSwapStatus quoteId : mocking (getSwapStatus quoteId ;; Ret tt).
Proof. unfold getSwapStatus. cbn. mock. Qed.

(** *** Guarded jobs in the loop *)

Section GuardedLoop.
Variable Pre : Sys -> Prop.
Variable ok : Call -> Prop.
Hypothesis guarded_requestQuote :
  forall request, guarded Pre ok (requestQuote request ;; Ret tt).
Hypothesis guarded_getSwapStatus :
  forall quoteId, guarded Pre ok (getSwapStatus quoteId ;; Ret tt).
Hypothesis guarded_simulateExecution :
  forall quoteId, guarded Pre ok (simulateExecution quoteId).
Hypothesis Pre_timers : forall s ts, Pre s -> Pre (with_timers ts s).

Local Abbreviation guards := (guards Pre ok).

Lemma launch_guarded o (p : Prog unit) s js :
  guarded Pre ok p -> guards {| sys := s; jobs := js |} ->
  guards (launch o p s js).
Proof.
  intros Hp [Hs Hjs]. cbn in Hs, Hjs.
  pose proof (guarded_stretch _ _ _ Hp s Hs) as H.
  unfold guards, launch, guard_ok in *.
  destruct (run p s) as [[a|e|c k] s']; cbn [sys jobs].
  - auto.
  - auto.
  - destruct H as (H1 & H2 & H3). split; [exact H1|].
    intros j [Hj|Hj]%elem_of_app; [auto|].
    apply list_elem_of_singleton in Hj as ->. cbn. auto.
Qed.

Lemma step_guarded l e l' : guards l -> step l e = Some l' -> guards l'.
Proof.
  intros [Hs Hjs]. destruct e as [request|quoteId|i|i ad]; cbn [step].
  - intros Hstep; apply (inj Some) in Hstep; subst l'.
    apply launch_guarded; [apply guarded_requestQuote|split; assumption].
  - intros Hstep; apply (inj Some) in Hstep; subst l'.
    apply launch_guarded; [apply guarded_getSwapStatus|split; assumption].
  - destruct (timers (sys l) !! i) as [[q ms]|]; [|discriminate].
    intros Hstep; apply (inj Some) in Hstep; subst l'.
    apply launch_guarded; [apply guarded_simulateExecution|].
    split; [apply Pre_timers; exact Hs|exact Hjs].
  - destruct (jobs l !! i) as [j|] eqn:Hj; [|discriminate].
    intros Hstep; apply (inj Some) in Hstep; subst l'.
    apply launch_guarded.
    + apply (Hjs j). eapply list_elem_of_lookup_2; eauto.
    + split; [exact Hs|]. cbn. intros j' Hj'. apply Hjs.
      eapply list_elem_of_delete_inv; eauto.
Qed.

Lemma play_guarded l es l' : guards l -> play l es = Some l' -> guards l'.
Proof.
  revert l. induction es as [|e es IH]; intros l Hl; cbn.
  - intros [= <-]. exact Hl.
  - destruct (step l e) as [l1|] eqn:Hstep; [|discriminate].
    apply IH. eapply step_guarded; eauto.
Qed.

Lemma reachable_guarded l :
  (forall l0, initial l0 -> Pre (sys l0)) -> reachable l -> guards l.
Proof.
  intros H0. induction 1 as [l Hl|l e l' _ IH Hstep].
  - split; [apply H0; exact Hl|]. destruct Hl as (_ & _ & -> & _).
    intros j Hj. apply elem_of_nil in Hj. destruct Hj.
  - eapply step_guarded; eauto.
Qed.

End GuardedLoop.

(** X17. A client that the factory makes as a simulator has no
    [NearExecutionAdapter], and keeps none: whatever events follow (calls,
    timers, settlements, in any order and however the adapters answer), no
    job of it ever awaits [sendNearTransfer]. *)
Theorem factory_simulator_never_transfers env h s es l :
  Factory.createOneClickClient env h = Factory.SimulatorClient s ->
  play {| sys := s; jobs := [] |} es = Some l ->
  nearExec (sys l) = false /\
  forall j, j ∈ jobs l -> is_transfer (call j) = false.
Proof.
  unfold Factory.createOneClickClient.
  destruct (Config.useSimulators _); [|discriminate]. intros [= <-] Hplay.
  pose proof (play_guarded _ _ mocking_requestQuote mocking_getSwapStatus
                mocking_simulateExecution (fun s ts H => H)
                {| sys := Factory.new_OneClickSimulator false h; jobs := [] |}
                es l) as H.
  destruct H as [H1 H2]; [|exact Hplay|].
  - split; [reflexivity|]. intros j Hj. apply elem_of_nil in Hj. destruct Hj.
  - split; [exact H1|]. intros j Hj. apply H2. exact Hj.
Qed.

Lemma factory_simulator_never_transfers_witness :
  let l := default (Scenario.loop0 false)
             (play (Scenario.loop0 false)
                [CallRequestQuote Played.request; TimerFires 0;
                 CallRequestQuote (Scenario.request0 "bitcoin:native" "near:native" "5")]) in
  length (jobs l) = 2%nat /\
  nearExec (sys l) = false /\
  forall j, j ∈ jobs l -> is_transfer (call j) = false.
Proof.
  intros l. split; [vm_compute; reflexivity|].
  refine (factory_simulator_never_transfers ∅ Scenario.host0 (Scenario.sys0 false)
            [CallRequestQuote Played.request; TimerFires 0;
             CallRequestQuote (Scenario.request0 "bitcoin:native" "near:native" "5")]
            l eq_refl _).
  apply (play_default (Scenario.loop0 false)). vm_compute. reflexivity.
Defined.

(** X18. The factory makes the production client exactly when the
    variable USE_PRODUCTION_SIMULATORS of the environment is the string
    "true" (unset, or set to anything else, it makes a simulator with no
    record and no [NearExecutionAdapter]); and both methods of the
    production client reject with "Production client not yet implemented",
    whatever their argument, without awaiting or changing anything. *)
Theorem factory_follows_environment env h :
  Factory.createOneClickClient env h =
    (if bool_decide (env !! "USE_PRODUCTION_SIMULATORS" = Some "true")
     then Factory.ProductionClient
     else Factory.SimulatorClient
            {| swaps := ∅; nearExec := false; timers := []; host := h |}) /\
  forall ad s,
    exec ad Factory.ProductionOneClickClient.requestQuote s
      = (inl (of_Error {| message := "Production client not yet implemented" |}), s) /\
    exec ad Factory.ProductionOneClickClient.getSwapStatus s
      = (inl (of_Error {| message := "Production client not yet implemented" |}), s) /\
    awaited ad Factory.ProductionOneClickClient.requestQuote s = [] /\
    awaited ad Factory.ProductionOneClickClient.getSwapStatus s = [].
Proof.
  split; [|intros ad s; repeat split].
  unfold Factory.createOneClickClient, Config.getConfig. cbn.
  case_bool_decide; reflexivity.
Qed.

(* ===================================================================== *)
(** ** Details and errors follow the status *)
(* ===================================================================== *)

Lemma idle_settles q s1 s2 s3 : idle s1 s2 -> settles q s2 s3 -> settles q s1 s3.
Proof.
  unfold idle, settles. intros (-> & _) (swap & swap' & H1 & H2 & H3). eauto.
Qed.

Lemma settles_try_catch q (p : Prog unit) (h : Thrown -> Prog unit) :
  behaves (has_record q) (settles q) idle idle p ->
  (forall e s, has_record q s ->
     (exists s', run (h e) s = (Done tt, s') /\ settles q s s') \/
     (exists e' s', run (h e) s = (Raised e', s') /\ idle s s')) ->
  settle_job q (try_catch p h).
Proof.
  intros Hp Hh. revert p Hp. apply behaves_induction. intros p Hstep.
  apply stretch_behaves. intros s Hs. specialize (Hstep s Hs).
  rewrite run_try_catch. unfold stretch_ok in Hstep.
  destruct (run p s) as [[x|e|c k] s1].
  - exact Hstep.
  - destruct (Hh e s1 (idle_has_record _ _ _ Hs Hstep))
      as [(s2 & -> & Hc) | (e' & s2 & -> & Hi)]; cbn.
    + eapply idle_settles; eauto.
    + eapply idle_trans; eauto.
  - destruct Hstep as [H1 H2]. split; [exact H1|]. intros r. apply H2.
Qed.

Lemma swap_failed_settles q e s :
  has_record q s ->
  (exists s', run (swap_failed q e) s = (Done tt, s') /\ settles q s s') \/
  (exists e' s', run (swap_failed q e) s = (Raised e', s') /\ idle s s').
Proof.
  intros [swap Hs].
  destruct e as [| |m];
    [right; eexists _, _; split; [reflexivity|apply idle_refl]..|].
  left. eexists. split; [reflexivity|].
  unfold with_swaps, with_host; cbn [swaps nearExec timers host].
  rewrite !alter_alter_eq. exists swap. eexists.
  split; [exact Hs|]. split; [exact (alter_is_insert _ _ _ _ Hs)|].
  split; [reflexivity|]. right. cbn. eauto.
Qed.

Ltac reads_first :=
  solve [ exact idle_trans | intros ? ? ? ? ?; eapply idle_settles; eassumption ].

(* Walks through a body made of pieces that only read. *)
Ltac stroll :=
  lazymatch goal with
  | |- quiet _ _ => unfold quiet; stroll
  | |- behaves _ _ _ _ (match ?x with _ => _ end) => destruct x; stroll
  | |- behaves _ idle _ _ (Ret _) => apply quiet_Ret
  | |- behaves _ _ _ _ (Throw _) => apply throws
  | |- behaves _ idle _ _ (settle _) => apply quiet_settle
  | |- behaves _ idle _ _ (read_message _) => apply quiet_read_message
  | |- behaves _ idle _ _ (generateMockTxHash _) => apply quiet_generateMockTxHash
  | |- behaves _ idle _ _ (Await _ _) => apply quiet_Await; intros ?; stroll
  | |- behaves _ idle _ _ (try_catch _ _) =>
      apply quiet_try_catch; [|intros ?]; stroll
  | |- behaves _ _ _ _ (bind _ _) =>
      apply quiet_bind; [reads_first| |intros ?]; stroll
  | |- behaves _ _ _ _ (Act _ _) =>
      try (apply quiet_Act;
           [reads_first|solve [intros ?; apply idle_refl]|intros ?]; stroll)
  | |- _ => idtac
  end.

(** The start of an execution, and what it goes on with. *)
Lemma simulateExecution_settle_job q s swap :
  swaps s !! q = Some swap ->
  exists k s',
    run (simulateExecution q) s
      = (Blocked (Sleep (timeEstimate (quote (quoteResponse swap)) * 100)) k, s') /\
    swaps s' = <[q := set_updatedAt (clock (host s) (clock_ix (host s)))
                         (set_status PROCESSING swap)]> (swaps s) /\
    forall r, settle_job q (k r).
Proof.
  intros Hs. unfold simulateExecution. cbn. rewrite Hs. cbn.
  eexists _, _. split; [reflexivity|]. split.
  - unfold with_swaps, with_host; cbn [swaps nearExec timers host].
    rewrite !alter_alter_eq. exact (alter_is_insert _ _ _ _ Hs).
  - intros r. apply settles_try_catch; [|apply swap_failed_settles].
    stroll.
    apply stretch_behaves. intros s0 [swap0 Hs0]. cbn.
    unfold with_swaps, with_host; cbn [swaps nearExec timers host].
    rewrite !alter_alter_eq. exists swap0. eexists.
    split; [exact Hs0|]. split; [exact (alter_is_insert _ _ _ _ Hs0)|].
    split; [reflexivity|]. left. cbn. eauto.
Qed.

Lemma kept_launch_request s js p :
  request_job p -> kept s js ->
  kept (sys (launch ORequest p s js)) (jobs (launch ORequest p s js)).
Proof.
  intros Hp [K1 K2]. pose proof (behaves_stretch _ _ _ _ _ Hp s Logic.I) as H.
  unfold launch, stretch_ok in *. destruct (run p s) as [[a|e|c k] s']; cbn [sys jobs].
  - destruct H as (request & quote & ->). split; [|exact K2].
    intros q swap. unfold stored_at. cbn [swaps].
    destruct (decide (uuid (host (tick s)) (uuid_ix (host (tick s))) = q)) as [<-|Hne].
    + rewrite lookup_insert_eq. intros [= <-]. split; reflexivity.
    + rewrite lookup_insert_ne by exact Hne. apply K1.
  - rewrite H. split; assumption.
  - destruct H as [-> _]. split; [exact K1|].
    intros j q [Hj|Hj]%elem_of_app; [eauto|].
    apply list_elem_of_singleton in Hj as ->. discriminate.
Qed.

Lemma kept_delete s js i : kept s js -> kept s (delete i js).
Proof.
  intros [K1 K2]. split; [exact K1|]. intros j q Hj. apply K2.
  eapply list_elem_of_delete_inv; eauto.
Qed.

Lemma kept_timer_fires s js i q ms :
  invariant s js -> kept s js -> timers s !! i = Some (q, ms) ->
  let l' := launch (OExec q) (simulateExecution q)
              (with_timers (delete i (timers s)) s) js in
  kept (sys l') (jobs l').
Proof.
  intros I [K1 K2] Ht. pose proof (inv_phase _ _ I q) as Hq.
  rewrite (timer_count_delete q _ _ _ _ Ht), decide_True in Hq by reflexivity.
  destruct (swaps s !! q) as [swap|] eqn:Hs; [|lia].
  unfold phase_ok in Hq.
  destruct (status swap) eqn:Hst; try (exfalso; lia).
  pose proof (K1 q swap Hs) as Hc. unfold consistent in Hc. rewrite Hst in Hc.
  destruct (simulateExecution_settle_job q (with_timers (delete i (timers s)) s) swap Hs)
    as (k & s' & Hrun & Hs' & Hk).
  cbn zeta. unfold launch. rewrite Hrun. cbn [sys jobs]. cbn in Hs'. split.
  - intros q0 swap0. rewrite Hs'. destruct (decide (q = q0)) as [<-|Hne].
    + rewrite lookup_insert_eq. intros [= <-]. exact Hc.
    + rewrite lookup_insert_ne by exact Hne. apply K1.
  - intros j q0 [Hj|Hj]%elem_of_app; [eauto|].
    apply list_elem_of_singleton in Hj as ->. cbn. intros [= <-]. exact Hk.
Qed.

Lemma kept_exec_settles s js i j q r :
  invariant s js -> kept s js -> js !! i = Some j -> owner j = OExec q ->
  let l' := launch (OExec q) (cont j r) s (delete i js) in
  kept (sys l') (jobs l').
Proof.
  intros I [K1 K2] Hj Ho. pose proof (inv_phase _ _ I q) as Hq.
  rewrite (exec_count_delete q _ _ _ Hj), Ho, decide_True in Hq by reflexivity.
  destruct (swaps s !! q) as [swap|] eqn:Hs; [|lia].
  unfold phase_ok in Hq.
  destruct (status swap) eqn:Hst; try (exfalso; lia).
  pose proof (K1 q swap Hs) as Hc. unfold consistent in Hc. rewrite Hst in Hc.
  destruct Hc as [Hd He].
  pose proof (K2 j q (list_elem_of_lookup_2 _ _ _ Hj) Ho r) as Hjob.
  pose proof (behaves_stretch _ _ _ _ _ Hjob s (mk_is_Some _ _ Hs)) as H.
  cbn zeta. unfold launch, stretch_ok in *.
  destruct (run (cont j r) s) as [[a|e|c k] s']; cbn [sys jobs].
  - destruct H as (swap0 & swap' & Hs0 & Hs' & _ & Hcl).
    rewrite Hs in Hs0. injection Hs0 as <-. split.
    + intros q0 swap1. rewrite Hs'. destruct (decide (q = q0)) as [<-|Hne].
      * rewrite lookup_insert_eq. intros [= <-]. unfold consistent.
        destruct Hcl as [(-> & H1 & H2) | (-> & H2)]; [split|]; congruence.
      * rewrite lookup_insert_ne by exact Hne. apply K1.
    + intros j' q0 Hj'. apply K2. eapply list_elem_of_delete_inv; eauto.
  - destruct H as (Hs' & _). split.
    + rewrite Hs'. exact K1.
    + intros j' q0 Hj'. apply K2. eapply list_elem_of_delete_inv; eauto.
  - destruct H as [(Hs' & _) Hk]. split.
    + rewrite Hs'. exact K1.
    + intros j' q0 [Hj'|Hj']%elem_of_app.
      * apply K2. eapply list_elem_of_delete_inv; eauto.
      * apply list_elem_of_singleton in Hj' as ->. cbn. intros [= <-]. exact Hk.
Qed.

Lemma step_kept l e l' :
  invariant (sys l) (jobs l) -> kept (sys l) (jobs l) -> step l e = Some l' ->
  kept (sys l') (jobs l').
Proof.
  intros I K. destruct e as [request|quoteId|i|i ad]; cbn [step].
  - intros Hstep; apply (inj Some) in Hstep; subst l'.
    apply kept_launch_request; [apply requestQuote_request_job|exact K].
  - intros Hstep; apply (inj Some) in Hstep; subst l'.
    rewrite launch_getSwapStatus. exact K.
  - destruct (timers (sys l) !! i) as [[q ms]|] eqn:Ht; [|discriminate].
    intros Hstep; apply (inj Some) in Hstep; subst l'.
    eapply kept_timer_fires; eauto.
  - destruct (jobs l !! i) as [j|] eqn:Hj; [|discriminate].
    intros Hstep; apply (inj Some) in Hstep; subst l'.
    pose proof (inv_jobs _ _ I j (list_elem_of_lookup_2 _ _ _ Hj)) as Hjob.
    destruct (owner j) as [| |q] eqn:Ho.
    + apply kept_launch_request; [apply Hjob|apply kept_delete; exact K].
    + destruct Hjob.
    + eapply kept_exec_settles; eauto.
Qed.

Lemma reachable_kept l : reachable l -> kept (sys l) (jobs l).
Proof.
  induction 1 as [l (Hs & _ & Hj & _)|l e l' Hl IH Hstep].
  - split.
    + intros q swap. rewrite Hs, lookup_empty. discriminate.
    + intros j q H. rewrite Hj in H. apply elem_of_nil in H. destruct H.
  - eapply step_kept; eauto. apply reachable_invariant. exact Hl.
Qed.

(** X19. At every point a simulator can reach, a record holds
    [swapDetails] exactly when its status is [SUCCESS], and an error only
    when its status is [FAILED]: a successful swap never carries an error,
    a failed one never carries details, and a pending or processing one
    carries neither.  (A failed swap need not carry an error: what is
    stored is the [message] of the caught value, which may have none.) *)
Theorem details_and_error_follow_status l q swap :
  reachable l ->
  swaps (sys l) !! q = Some swap ->
  (is_Some (swapDetails swap) <-> status swap = SUCCESS) /\
  (is_Some (error swap) -> status swap = FAILED).
Proof.
  intros Hl Hs. destruct (reachable_kept _ Hl) as [K _].
  pose proof (K q swap Hs) as Hc. unfold consistent in Hc.
  assert (Hnone : forall A, ~ is_Some (@None A))
    by (intros A H; apply is_Some_None in H; exact H).
  destruct (status swap) eqn:Hst.
  1-2, 4-5: destruct Hc as [-> ->]; repeat split; intros H;
    try discriminate; exfalso; exact (Hnone _ H).
  - destruct Hc as [H1 ->]. repeat split; intros H;
      try assumption; exfalso; exact (Hnone _ H).
  - rewrite Hc. repeat split; intros H; try discriminate.
    exfalso; exact (Hnone _ H).
Qed.

Lemma details_and_error_follow_status_witness :
  exists swap,
    swaps (sys Played.settled) !! "quote-0" = Some swap /\
    status swap = SUCCESS /\
    (is_Some (swapDetails swap) <-> status swap = SUCCESS) /\
    (is_Some (error swap) -> status swap = FAILED).
Proof.
  let x := eval vm_compute in (swaps (sys Played.settled) !! "quote-0") in
  match x with Some ?w => pose (swap := w) end.
  assert (Hs : swaps (sys Played.settled) !! "quote-0" = Some swap)
    by (vm_compute; reflexivity).
  exists swap. split; [exact Hs|]. split; [reflexivity|].
  exact (details_and_error_follow_status Played.settled "quote-0" swap
           settled_reachable Hs).
Defined.

(* ===================================================================== *)
(** ** Records hold the quotes computed for their requests *)
(* ===================================================================== *)

Lemma all_quoted_alter (f : StoredSwap -> StoredSwap) q s :
  (forall swap, quoteResponse (f swap) = quoteResponse swap) ->
  all_quoted s -> all_quoted (with_swaps (alter f q (swaps s)) s).
Proof.
  intros Hf H q0 swap. cbn. destruct (decide (q = q0)) as [<-|Hne].
  - rewrite lookup_alter_eq. destruct (swaps s !! q) as [swap0|] eqn:Hs; [|discriminate].
    intros [= <-]. unfold quoted_for. rewrite Hf. exact (H q swap0 Hs).
  - rewrite lookup_alter_ne by exact Hne. apply H.
Qed.

Lemma all_quoted_insert q swap s :
  quoted_for swap -> all_quoted s ->
  all_quoted (with_swaps (<[q := swap]> (swaps s)) s).
Proof.
  intros Hq H q0 swap0. cbn. destruct (decide (q = q0)) as [<-|Hne].
  - rewrite lookup_insert_eq. intros [= <-]. exact Hq.
  - rewrite lookup_insert_ne by exact Hne. apply H.
Qed.

(* Walks through a method, keeping [all_quoted]; [write] proves it after
   an action that stores a record. *)
Ltac keep_with write :=
  lazymatch goal with
  | |- guarded _ _ (match ?x with _ => _ end) => destruct x; keep_with write
  | |- guarded _ _ (Ret _) => apply guarded_Ret
  | |- guarded _ _ (Throw _) => apply guarded_Throw
  | |- guarded _ _ (settle ?r) => destruct r; cbn; keep_with write
  | |- guarded _ _ (read_message ?e) => destruct e; cbn; keep_with write
  | |- guarded _ _ (swap_failed _ _) => unfold swap_failed; keep_with write
  | |- guarded _ _ (assign _ _) => unfold assign; keep_with write
  | |- guarded _ _ (Await _ _) =>
      let r := fresh "r" in
      apply guarded_Await; [exact I|intros r; destruct r; cbn; keep_with write]
  | |- guarded _ _ (Act _ _) =>
      let s := fresh "s" in
      let Hs := fresh "Hs" in
      apply guarded_Act; intros s Hs; cbn;
      split;
      [first [ exact Hs
             | apply all_quoted_alter; [intros ?; reflexivity|exact Hs]
             | write Hs ]
      |keep_with write]
  | |- guarded _ _ (try_catch _ _) =>
      apply guarded_try_catch; [|intros ?; cbn]; keep_with write
  | |- guarded _ _ (bind _ _) =>
      apply guarded_bind; [|intros ?; cbn]; keep_with write
  | |- _ => idtac
  end.

Lemma keeps_random_hex n : guarded all_quoted any_call (random_hex n).
Proof.
  induction n as [|n IH]; cbn [random_hex]; [apply guarded_Ret|].
  apply guarded_bind; [unfold random16; keep_with ltac:(fun H => fail)|]. intros d.
  apply guarded_bind; [exact IH|]. intros rest. apply guarded_Ret.
Qed.

Lemma keeps_generateMockTxHash chain :
  guarded all_quoted any_call (generateMockTxHash chain).
Proof.
  unfold generateMockTxHash. apply guarded_bind; [apply keeps_random_hex|].
  intros h. apply guarded_Ret.
Qed.

Lemma keeps_simulateExecution q : guarded all_quoted any_call (simulateExecution q).
Proof.
  unfold simulateExecution. cbn. keep_with ltac:(fun H => fail).
  all: apply keeps_generateMockTxHash.
Qed.

Lemma keeps_getSwapStatus quoteId :
  guarded all_quoted any_call (getSwapStatus quoteId ;; Ret tt).
Proof. unfold getSwapStatus. cbn. keep_with ltac:(fun H => fail). Qed.

Lemma keeps_requestQuote request :
  guarded all_quoted any_call (requestQuote request ;; Ret tt).
Proof.
  unfold requestQuote.
  destruct (validateQuoteRequest_cases request) as [Hv | [e Hv]]; rewrite Hv; cbn;
    [|apply guarded_Throw].
  destruct (validateQuoteRequest_passed _ Hv) as (Ho & Hd & _).
  apply truthy_str_Some in Ho as [o Ho]. apply truthy_str_Some in Hd as [d Hd].
  unfold calculateQuote, split_asset. rewrite Ho, Hd. cbn.
  case_bool_decide; cbn;
    keep_with ltac:(fun Hs =>
      apply all_quoted_insert; [|exact Hs];
      split; [exact Hv|]; exists o, d;
      split; [exact Ho|]; split; [exact Hd|];
      cbn; unfold asset_decimals, asset_chain, asset_token;
      repeat split; try reflexivity; case_bool_decide; reflexivity).
  all: unfold setTimeout; keep_with ltac:(fun H => fail).
Qed.

(** X22. At every point a simulator can reach, every record holds a
    request that passed validation (so its assets, amount, [refundTo] and
    [recipient] are present) together with the quote computed for that
    request: [amountIn] is the amount verbatim, [fee] and [amountOut] are
    what [toFixed] renders of the amounts of the fee model, called with
    the decimals of the two assets (decimal notation below [10^21],
    exponent notation from there on), and [timeEstimate] is 7 when the
    two chains are the same and 45 otherwise.  Nothing the simulator does
    later alters them. *)
Theorem records_hold_computed_quotes l q swap :
  reachable l ->
  swaps (sys l) !! q = Some swap ->
  let request := quoteRequest (quoteResponse swap) in
  let computed := quote (quoteResponse swap) in
  validateQuoteRequest request = Ret tt /\
  exists o d,
    originAsset request = Some o /\ destinationAsset request = Some d /\
    amountIn computed = amount request /\
    fee computed = JS.toFixed (amountInNum request * 0.003) (asset_decimals o) /\
    amountOut computed
      = JS.toFixed (amountInNum request * (1 - 0.003)
                    * (1 - effective_slippage request)) (asset_decimals d) /\
    timeEstimate computed = (if bool_decide (asset_chain o = asset_chain d) then 7 else 45).
Proof.
  intros Hl Hs.
  destruct (reachable_guarded all_quoted any_call keeps_requestQuote
              keeps_getSwapStatus keeps_simulateExecution (fun s ts H => H) l)
    as [H _]; [|exact Hl|exact (H q swap Hs)].
  intros l0 (H0 & _) q0 swap0. rewrite H0, lookup_empty. discriminate.
Qed.

Lemma records_hold_computed_quotes_witness :
  exists swap,
    swaps (sys Played.settled) !! "quote-0" = Some swap /\
    let request := quoteRequest (quoteResponse swap) in
    let computed := quote (quoteResponse swap) in
    validateQuoteRequest request = Ret tt /\
    exists o d,
      originAsset request = Some o /\ destinationAsset request = Some d /\
      amountIn computed = amount request /\
      fee computed = JS.toFixed (amountInNum request * 0.003) (asset_decimals o) /\
      amountOut computed
        = JS.toFixed (amountInNum request * (1 - 0.003)
                      * (1 - effective_slippage request)) (asset_decimals d) /\
      timeEstimate computed
        = (if bool_decide (asset_chain o = asset_chain d) then 7 else 45).
Proof.
  let x := eval vm_compute in (swaps (sys Played.settled) !! "quote-0") in
  match x with Some ?w => pose (swap := w) end.
  assert (Hs : swaps (sys Played.settled) !! "quote-0" = Some swap)
    by (vm_compute; reflexivity).
  exists swap. split; [exact Hs|].
  exact (records_hold_computed_quotes Played.settled "quote-0" swap
           settled_reachable Hs).
Defined.
